(** * Chunked upload component: model and verified properties

    Shallow embedding of the script part of the chunk-upload Vue component
    (the component whose props are [accept], [multiple], [tip], [action],
    [headers], [maxSize], [chunkSize], [simultaneousUploads], [autoUpload]
    and [data]).

    The component runs on a single event loop.  Every synchronous piece of
    code (an event handler, or the part of an [async] function between two
    [await]s) is a function on the component [State]; the environment
    (user, network, timers) chooses which piece runs next, see [Event] and
    [handle].  Callbacks that run as microtasks right after a piece
    ([finally], the continuation after a resolved promise) are part of that
    piece.

    Objects.  File entries and chunk descriptors are mutable objects that
    closures keep referring to after the component has replaced them
    ([retryUpload] and [uploadFile] build new chunk objects, [removeFile]
    drops an entry from the list).  They live in append-only heaps and are
    referred to by their index.

    Numbers.  JavaScript numbers are modelled by [Z]: sizes, byte offsets and
    progress sums are integers far below 2^53, where floating point
    arithmetic on them, and [Math.ceil]/[Math.round] of their quotients, is
    exact.  The only quotient that can be undefined, 0/0 in
    [updateFileProgress], is modelled by [JNaN].  The percentage of a
    progress event, [Math.round((e.loaded / e.total) * 100)], is taken as
    an input.

    The loading store, in which the component records the identifiers of
    its pending create and merge calls for a global spinner, does not act
    on the component: it is modelled on its own in [LoadingStore], with the
    text of the spinner, and the route filter of the permission store in
    [Router].

    Left out: the target URL and the headers of the calls. *)

From stdpp Require Import base tactics option list relations gmap strings pretty.
From Stdlib Require Import ZArith Lia QArith Ascii.

Local Open Scope Z_scope.

(** ** JavaScript numbers that may be NaN *)

Inductive jsnum : Type :=
  | JNum (z : Z)
  | JNaN.

#[global] Instance jsnum_eq_dec : EqDecision jsnum.
Proof. solve_decision. Defined.

(** [a >= b] on numbers: every comparison with NaN is false. *)
Definition js_ge (a b : jsnum) : bool :=
  match a, b with
  | JNum x, JNum y => bool_decide (y ≤ x)
  | _, _ => false
  end.

(** [Math.ceil(a / b)] for integers [a], [b] with [b <> 0]. *)
Definition Math_ceil_div (a b : Z) : Z := - ((- a) / b).

(** [Math.round(a / b)] for integers [a] and [b >= 0]: the nearest integer,
    halves rounded towards +infinity; 0/0 is NaN. *)
Definition Math_round_div (a b : Z) : jsnum :=
  if decide (b = 0) then JNaN else JNum ((2 * a + b) / (2 * b)).

(** ** Data model *)

Inductive Status : Type :=
  | waiting
  | uploading
  | success
  | error.

#[global] Instance Status_eq_dec : EqDecision Status.
Proof. solve_decision. Defined.

(** Objects live in append-only heaps; a location is an index. *)
Abbreviation loc := nat (only parsing).

(** A chunk descriptor, as built in [uploadFile]. *)
Record Chunk : Type := mkChunk {
  chunk_index : nat;
  chunk_start : Z;
  chunk_end : Z;
  chunk_progress : Z;
  chunk_status : Status
}.

(** The browser [File] handed over by the input element or the drop. *)
Record RawFile : Type := mkRawFile {
  raw_name : string;
  raw_size : Z;
  raw_type : string;
  raw_lastModified : Z
}.

(** ** The chunk plan of [uploadFile] *)

(** [Array(chunks).fill(0).map((_, index) => ({ index, start, end,
    progress: 0, status: 'waiting' }))] with
    [chunks = Math.ceil(size / chunkSize)]. *)
Definition planChunk (size chunkSize : Z) (index : nat) : Chunk :=
  {| chunk_index := index;
     chunk_start := Z.of_nat index * chunkSize;
     chunk_end := Z.min ((Z.of_nat index + 1) * chunkSize) size;
     chunk_progress := 0;
     chunk_status := waiting |}.

Definition planChunks (size chunkSize : Z) : list Chunk :=
  let chunks := Math_ceil_div size chunkSize in
  map (planChunk size chunkSize) (seq 0 (Z.to_nat chunks)).

(** ** Component state *)

(** An entry of [fileList], as pushed by [validateAndAddFiles]; the fields
    [identifier], [uploadId] and [url] are [undefined] ([None]) until they
    are assigned.  [file_chunks] holds references to chunk objects. *)
Record FileEntry : Type := mkFileEntry {
  file_raw : RawFile;
  file_name : string;
  file_size : Z;
  file_type : string;
  file_status : Status;
  file_progress : jsnum;
  file_chunks : list loc;
  file_identifier : option string;
  file_uploadId : option string;
  file_url : option string
}.

(** The props the script reads.  [chunkSize] (MB) is a positive whole
    number: for other values [Array(chunks)] raises or the offsets are not
    integers.  [accept], [multiple], [tip] are template-only; [action] and
    [headers] only parameterise the transport. *)
Record Props : Type := mkProps {
  maxSize : Z;
  chunkSize : positive;
  simultaneousUploads : Z;
  autoUpload : bool;
  data : list (string * string)
}.

(** The three calls of the upload protocol, with their form fields. *)
Inductive Call : Type :=
  | CreateCall (filename : string) (size : Z) (mime_type : string)
      (chunk_size : Z) (chunks : nat) (extra : list (string * string))
  | ChunkCall (upload_id : option string) (chunk_index : nat)
      (slice_start slice_end : Z) (filename : string)
  | CompleteCall (upload_id : option string) (filename : string)
      (total_chunks : nat) (extra : list (string * string)).

(** The errors the component raises or passes on. *)
Inductive UploadError : Type :=
  | CreateStatusError (status : Z)
  | MergeStatusError (status : Z)
  | ChunksFailedError
  | TransportError
  | BodyError.

Inductive HostEvent : Type :=
  | file_change (entries : list loc)
  | upload_progress (file : loc) (percent : jsnum)
  | upload_success (file : loc) (url : option string)
  | upload_error (file : loc) (err : UploadError)
  | upload_complete (entries : list loc).

(** Everything the outside can observe, in order of occurrence.  A network
    call carries the number of the [uploadChunks] invocation (the attempt)
    that issued it. *)
Inductive Obs : Type :=
  | Message (name : string) (limit : Z)
  | Emit (e : HostEvent)
  | Net (attempt : nat) (c : Call).

Inductive XhrState : Type :=
  | Sent
  | Settled
  | Aborted.

#[global] Instance XhrState_eq_dec : EqDecision XhrState.
Proof. solve_decision. Defined.

(** An [XMLHttpRequest] created by [uploadChunk], with what its handlers
    close over. *)
Record Xhr : Type := mkXhr {
  xhr_file : loc;
  xhr_chunk : loc;
  xhr_attempt : nat;
  xhr_state : XhrState
}.

(** Where an invocation of [uploadChunks] is suspended. *)
Inductive Phase : Type :=
  | CreatePending
  | SlotWait (pending : list loc)
  | JoinPolling
  | MergePending
  | Finished.

(** An invocation of [uploadChunks]: its file, its local counter
    [runningUploads] and its suspension point. *)
Record Attempt : Type := mkAttempt {
  attempt_file : loc;
  runningUploads : Z;
  attempt_phase : Phase
}.

Record State : Type := mkState {
  fileList : list loc;
  fileHeap : list FileEntry;
  chunkHeap : list Chunk;
  activeRequests : gmap string (list nat);
  xhrs : list Xhr;
  attempts : list Attempt;
  trace : list Obs
}.

Definition init : State :=
  {| fileList := []; fileHeap := []; chunkHeap := [];
     activeRequests := ∅; xhrs := []; attempts := []; trace := [] |}.

(** What the network answers to a [fetch]: rejection, or a response with
    its status and its body ([None] when the body is not the expected
    JSON). *)
Inductive FetchOutcome (A : Type) : Type :=
  | FetchRejected
  | FetchResponse (status : Z) (json : option A).
Arguments FetchRejected {A}.
Arguments FetchResponse {A} status json.

Record CreateResponse : Type := mkCreateResponse {
  upload_id : option string
}.

Record MergeResult : Type := mkMergeResult {
  url : option string
}.

(** What can happen next on the event loop. *)
Inductive Event : Type :=
  | InputChange (files : list RawFile)
  | Drop (files : list RawFile)
  | ClickCancel (file : loc)
  | ClickRetry (file : loc)
  | ClickRemove (index : nat)
  | CallUpload
  | CallClearFiles
  | CreateSettled (attempt : nat) (o : FetchOutcome CreateResponse)
  | SlotTimer (attempt : nat)
  | XhrProgress (xhr : nat) (lengthComputable : bool) (percent : Z)
  | XhrLoad (xhr : nat) (status : Z)
  | XhrError (xhr : nat)
  | JoinTimer (attempt : nat)
  | MergeSettled (attempt : nat) (o : FetchOutcome MergeResult).

(** ** State updates *)

Definition set_fileList (g : list loc → list loc) (s : State) : State :=
  {| fileList := g (fileList s); fileHeap := fileHeap s;
     chunkHeap := chunkHeap s; activeRequests := activeRequests s;
     xhrs := xhrs s; attempts := attempts s; trace := trace s |}.

Definition set_fileHeap (g : list FileEntry → list FileEntry) (s : State)
  : State :=
  {| fileList := fileList s; fileHeap := g (fileHeap s);
     chunkHeap := chunkHeap s; activeRequests := activeRequests s;
     xhrs := xhrs s; attempts := attempts s; trace := trace s |}.

Definition set_chunkHeap (g : list Chunk → list Chunk) (s : State) : State :=
  {| fileList := fileList s; fileHeap := fileHeap s;
     chunkHeap := g (chunkHeap s); activeRequests := activeRequests s;
     xhrs := xhrs s; attempts := attempts s; trace := trace s |}.

Definition set_activeRequests
    (g : gmap string (list nat) → gmap string (list nat)) (s : State)
  : State :=
  {| fileList := fileList s; fileHeap := fileHeap s;
     chunkHeap := chunkHeap s; activeRequests := g (activeRequests s);
     xhrs := xhrs s; attempts := attempts s; trace := trace s |}.

Definition set_xhrs (g : list Xhr → list Xhr) (s : State) : State :=
  {| fileList := fileList s; fileHeap := fileHeap s;
     chunkHeap := chunkHeap s; activeRequests := activeRequests s;
     xhrs := g (xhrs s); attempts := attempts s; trace := trace s |}.

Definition set_attempts (g : list Attempt → list Attempt) (s : State)
  : State :=
  {| fileList := fileList s; fileHeap := fileHeap s;
     chunkHeap := chunkHeap s; activeRequests := activeRequests s;
     xhrs := xhrs s; attempts := g (attempts s); trace := trace s |}.

Definition observe (o : Obs) (s : State) : State :=
  {| fileList := fileList s; fileHeap := fileHeap s;
     chunkHeap := chunkHeap s; activeRequests := activeRequests s;
     xhrs := xhrs s; attempts := attempts s; trace := trace s ++ [o] |}.

Definition emit (e : HostEvent) : State → State := observe (Emit e).

Definition updFile (f : loc) (g : FileEntry → FileEntry) : State → State :=
  set_fileHeap (alter g f).

Definition updChunk (c : loc) (g : Chunk → Chunk) : State → State :=
  set_chunkHeap (alter g c).

Definition updAttempt (t : nat) (g : Attempt → Attempt) : State → State :=
  set_attempts (alter g t).

Definition with_status (st : Status) (fe : FileEntry) : FileEntry :=
  {| file_raw := file_raw fe; file_name := file_name fe;
     file_size := file_size fe; file_type := file_type fe;
     file_status := st; file_progress := file_progress fe;
     file_chunks := file_chunks fe; file_identifier := file_identifier fe;
     file_uploadId := file_uploadId fe; file_url := file_url fe |}.

Definition with_progress (p : jsnum) (fe : FileEntry) : FileEntry :=
  {| file_raw := file_raw fe; file_name := file_name fe;
     file_size := file_size fe; file_type := file_type fe;
     file_status := file_status fe; file_progress := p;
     file_chunks := file_chunks fe; file_identifier := file_identifier fe;
     file_uploadId := file_uploadId fe; file_url := file_url fe |}.

Definition with_chunks (cs : list loc) (fe : FileEntry) : FileEntry :=
  {| file_raw := file_raw fe; file_name := file_name fe;
     file_size := file_size fe; file_type := file_type fe;
     file_status := file_status fe; file_progress := file_progress fe;
     file_chunks := cs; file_identifier := file_identifier fe;
     file_uploadId := file_uploadId fe; file_url := file_url fe |}.

Definition with_identifier (id : string) (fe : FileEntry) : FileEntry :=
  {| file_raw := file_raw fe; file_name := file_name fe;
     file_size := file_size fe; file_type := file_type fe;
     file_status := file_status fe; file_progress := file_progress fe;
     file_chunks := file_chunks fe; file_identifier := Some id;
     file_uploadId := file_uploadId fe; file_url := file_url fe |}.

Definition with_uploadId (u : option string) (fe : FileEntry) : FileEntry :=
  {| file_raw := file_raw fe; file_name := file_name fe;
     file_size := file_size fe; file_type := file_type fe;
     file_status := file_status fe; file_progress := file_progress fe;
     file_chunks := file_chunks fe; file_identifier := file_identifier fe;
     file_uploadId := u; file_url := file_url fe |}.

Definition with_url (u : option string) (fe : FileEntry) : FileEntry :=
  {| file_raw := file_raw fe; file_name := file_name fe;
     file_size := file_size fe; file_type := file_type fe;
     file_status := file_status fe; file_progress := file_progress fe;
     file_chunks := file_chunks fe; file_identifier := file_identifier fe;
     file_uploadId := file_uploadId fe; file_url := u |}.

Definition chunk_with_status (st : Status) (c : Chunk) : Chunk :=
  {| chunk_index := chunk_index c; chunk_start := chunk_start c;
     chunk_end := chunk_end c; chunk_progress := chunk_progress c;
     chunk_status := st |}.

Definition chunk_with_progress (p : Z) (c : Chunk) : Chunk :=
  {| chunk_index := chunk_index c; chunk_start := chunk_start c;
     chunk_end := chunk_end c; chunk_progress := p;
     chunk_status := chunk_status c |}.

Definition with_running (g : Z → Z) (a : Attempt) : Attempt :=
  {| attempt_file := attempt_file a; runningUploads := g (runningUploads a);
     attempt_phase := attempt_phase a |}.

Definition with_phase (ph : Phase) (a : Attempt) : Attempt :=
  {| attempt_file := attempt_file a; runningUploads := runningUploads a;
     attempt_phase := ph |}.

Definition with_xhr_state (st : XhrState) (x : Xhr) : Xhr :=
  {| xhr_file := xhr_file x; xhr_chunk := xhr_chunk x;
     xhr_attempt := xhr_attempt x; xhr_state := st |}.

(** ** Reading the state *)

(** [chunk.status] and [chunk.progress] of the chunk object at [c]. *)
Definition chunkStatus (s : State) (c : loc) : option Status :=
  chunk_status <$> chunkHeap s !! c.

Definition chunkProgress (s : State) (c : loc) : Z :=
  from_option chunk_progress 0 (chunkHeap s !! c).

Definition fileStatus (s : State) (f : loc) : option Status :=
  file_status <$> fileHeap s !! f.

Definition fileProgress (s : State) (f : loc) : option jsnum :=
  file_progress <$> fileHeap s !! f.

Definition fileChunks (s : State) (f : loc) : list loc :=
  from_option file_chunks [] (fileHeap s !! f).

Definition attemptPhase (s : State) (t : nat) : option Phase :=
  attempt_phase <$> attempts s !! t.

(** The property key [activeRequests.value[file.identifier]] is read
    with. *)
Definition prop_key (identifier : option string) : string :=
  default "undefined" identifier.

Definition registered (s : State) (f : loc) : list nat :=
  match fileHeap s !! f with
  | Some fe => default [] (activeRequests s !! prop_key (file_identifier fe))
  | None => []
  end.

(** ** The component *)

(** [xhr.abort()]: a request in flight is aborted; the component installs no
    [onabort] handler, so nothing else happens.  On a request that is
    already done the call has no effect. *)
Definition abort (x : nat) : State → State :=
  set_xhrs (alter (λ xr, if decide (xhr_state xr = Sent)
                         then with_xhr_state Aborted xr else xr) x).

(** [reqs.forEach(xhr => xhr.abort())] *)
Definition abortAll (reqs : list nat) (s : State) : State :=
  foldl (λ s x, abort x s) s reqs.

(** [reqs.splice(reqs.indexOf(xhr), 1)] when the index is found. *)
Fixpoint remove_first (x : nat) (reqs : list nat) : list nat :=
  match reqs with
  | [] => []
  | y :: reqs' => if decide (x = y) then reqs' else y :: remove_first x reqs'
  end.

(** [response.ok] *)
Definition response_ok (status : Z) : bool :=
  bool_decide (200 ≤ status) && bool_decide (status ≤ 299).

(** The branch [xhr.status >= 200 && xhr.status < 300] of [xhr.onload]. *)
Definition xhr_status_ok (status : Z) : bool :=
  bool_decide (200 ≤ status) && bool_decide (status < 300).

(** The counter [runningUploads] of attempt [t]. *)
Definition running (s : State) (t : nat) : Z :=
  from_option runningUploads 0 (attempts s !! t).

Section Component.

Variable props : Props.

(** [props.chunkSize * 1024 * 1024] *)
Definition chunkBytes : Z := Z.pos (chunkSize props) * 1024 * 1024.

(** [`${file.name}_${file.size}_${file.lastModified}`] *)
Definition calculateFileIdentifier (file : RawFile) : string :=
  raw_name file +:+ "_" +:+ pretty (raw_size file) +:+ "_"
    +:+ pretty (raw_lastModified file).

(** *** Progress *)

(** [updateFileProgress]: the rounded quotient of the sum of the chunk
    progress values by their number, stored and emitted. *)
Definition updateFileProgress (f : loc) (s : State) : State :=
  let chunks := fileChunks s f in
  let totalProgress := foldl (λ sum c, sum + chunkProgress s c) 0 chunks in
  let progress :=
    Math_round_div totalProgress (Z.of_nat (length chunks)) in
  emit (upload_progress f progress) (updFile f (with_progress progress) s).

(** *** Phase 1: create *)

(** The part of [createUploadTask] before its [await]: the form is built
    and the request sent. *)
Definition createUploadTask (t : nat) (f : loc) (s : State) : State :=
  match fileHeap s !! f with
  | Some fe =>
      observe (Net t (CreateCall (file_name fe) (file_size fe)
                        (file_type fe) chunkBytes
                        (length (file_chunks fe)) (data props))) s
  | None => s
  end.

(** What the [await] in [createUploadTask] yields: the parsed body, or
    the error it throws. *)
Definition createUploadTask_result (o : FetchOutcome CreateResponse)
  : UploadError + CreateResponse :=
  match o with
  | FetchRejected => inl TransportError
  | FetchResponse status json =>
      if response_ok status then
        match json with
        | Some r => inr r
        | None => inl BodyError
        end
      else inl (CreateStatusError status)
  end.

(** [uploadChunks] up to [await createUploadTask(file)]; the invocation
    gets the next attempt number. *)
Definition uploadChunks (f : loc) (s : State) : State :=
  let t := length (attempts s) in
  createUploadTask t f
    (set_attempts (λ l, l ++ [mkAttempt f 0 CreatePending]) s).

(** The [catch] block of [uploadChunks]. *)
Definition uploadChunks_catch (t : nat) (f : loc) (err : UploadError)
    (s : State) : State :=
  updAttempt t (with_phase Finished)
    (emit (upload_error f err) (updFile f (with_status error) s)).

(** *** Phase 2: chunks *)

(** [uploadChunk] up to [xhr.send]: the request is registered under the
    file's identifier and sent.  When the registry has no entry for the
    identifier the [push] raises inside the promise executor: no request
    is made and the promise is rejected, which runs the [finally] of the
    caller. *)
Definition uploadChunk (t : nat) (f c : loc) (s : State) : State :=
  let s1 := updChunk c (chunk_with_status uploading) s in
  match fileHeap s1 !! f, chunkHeap s1 !! c with
  | Some fe, Some ch =>
      let key := prop_key (file_identifier fe) in
      match activeRequests s1 !! key with
      | Some reqs =>
          let x := length (xhrs s1) in
          observe (Net t (ChunkCall (file_uploadId fe) (chunk_index ch)
                            (chunk_start ch) (chunk_end ch) (file_name fe)))
            (set_activeRequests <[key := reqs ++ [x]]>
               (set_xhrs (λ l, l ++ [mkXhr f c t Sent]) s1))
      | None => updAttempt t (with_running (λ n, n - 1)) s1
      end
  | _, _ => s1
  end.

(** The body of the dispatch loop after the slot check:
    [if (chunk.status !== 'success') { runningUploads++; uploadChunk(...) }] *)
Definition dispatch (t : nat) (f c : loc) (s : State) : State :=
  match chunkStatus s c with
  | Some success => s
  | Some _ =>
      uploadChunk t f c (updAttempt t (with_running (λ n, n + 1)) s)
  | None => s
  end.

(** [checkAllChunksUploaded]: the 500 ms interval is installed. *)
Definition checkAllChunksUploaded (t : nat) (s : State) : State :=
  updAttempt t (with_phase JoinPolling) s.

(** [for (const chunk of file.chunks) { ... }] followed by
    [await checkAllChunksUploaded(file)], run until the loop has to wait
    for a free slot. *)
Fixpoint dispatchLoop (t : nat) (f : loc) (pending : list loc) (s : State)
  : State :=
  match pending with
  | [] => checkAllChunksUploaded t s
  | c :: rest =>
      if decide (simultaneousUploads props ≤ running s t)
      then updAttempt t (with_phase (SlotWait (c :: rest))) s
      else dispatchLoop t f rest (dispatch t f c s)
  end.

(** [uploadChunks] resumed when the create call has settled. *)
Definition uploadChunks_resume (t : nat) (o : FetchOutcome CreateResponse)
    (s : State) : State :=
  match attempts s !! t with
  | Some a =>
      match attempt_phase a with
      | CreatePending =>
          let f := attempt_file a in
          match createUploadTask_result o with
          | inr createResponse =>
              let s1 :=
                updFile f (with_uploadId (upload_id createResponse)) s in
              dispatchLoop t f (fileChunks s1 f) s1
          | inl err => uploadChunks_catch t f err s
          end
      | _ => s
      end
  | None => s
  end.

(** A tick of the 100 ms interval that waits for a free slot. *)
Definition slotTimer (t : nat) (s : State) : State :=
  match attempts s !! t with
  | Some a =>
      match attempt_phase a with
      | SlotWait (c :: rest) =>
          if decide (runningUploads a < simultaneousUploads props)
          then dispatchLoop t (attempt_file a) rest
                 (dispatch t (attempt_file a) c s)
          else s
      | _ => s
      end
  | None => s
  end.

(** Removal of a settled request from the registry; [None] when the
    registry has no entry for the identifier (the handler raises). *)
Definition deregister (f : loc) (x : nat) (s : State) : option State :=
  match fileHeap s !! f with
  | Some fe =>
      let key := prop_key (file_identifier fe) in
      match activeRequests s !! key with
      | Some reqs =>
          Some (set_activeRequests <[key := remove_first x reqs]> s)
      | None => None
      end
  | None => None
  end.

(** The tail shared by [xhr.onload] and [xhr.onerror]: deregister, then
    settle the promise, which runs [runningUploads--]. *)
Definition xhr_settle (x : nat) (xr : Xhr) (s : State) : State :=
  let s1 := set_xhrs (alter (with_xhr_state Settled) x) s in
  match deregister (xhr_file xr) x s1 with
  | Some s2 => updAttempt (xhr_attempt xr) (with_running (λ n, n - 1)) s2
  | None => s1
  end.

(** [xhr.upload.onprogress]; [percent] is
    [Math.round((e.loaded / e.total) * 100)]. *)
Definition xhr_onprogress (x : nat) (lengthComputable : bool) (percent : Z)
    (s : State) : State :=
  match xhrs s !! x with
  | Some xr =>
      if lengthComputable then
        updateFileProgress (xhr_file xr)
          (updChunk (xhr_chunk xr) (chunk_with_progress percent) s)
      else s
  | None => s
  end.

Definition xhr_onload (x : nat) (status : Z) (s : State) : State :=
  match xhrs s !! x with
  | Some xr =>
      if xhr_status_ok status then
        xhr_settle x xr
          (updateFileProgress (xhr_file xr)
             (updChunk (xhr_chunk xr)
                (λ c, chunk_with_progress 100
                        (chunk_with_status success c)) s))
      else
        xhr_settle x xr
          (updateFileProgress (xhr_file xr)
             (updChunk (xhr_chunk xr) (chunk_with_status error) s))
  | None => s
  end.

Definition xhr_onerror (x : nat) (s : State) : State :=
  match xhrs s !! x with
  | Some xr =>
      xhr_settle x xr
        (updateFileProgress (xhr_file xr)
           (updChunk (xhr_chunk xr) (chunk_with_status error) s))
  | None => s
  end.

(** *** Phase 3: join and merge *)

(** [mergeChunks] up to its [await fetch]. *)
Definition mergeChunks (t : nat) (f : loc) (s : State) : State :=
  match fileHeap s !! f with
  | Some fe =>
      updAttempt t (with_phase MergePending)
        (observe (Net t (CompleteCall (file_uploadId fe) (file_name fe)
                           (length (file_chunks fe)) (data props))) s)
  | None => updAttempt t (with_phase MergePending) s
  end.

Definition allUploaded (s : State) (f : loc) : bool :=
  forallb (λ c, bool_decide (chunkStatus s c = Some success))
    (fileChunks s f).

Definition hasError (s : State) (f : loc) : bool :=
  existsb (λ c, bool_decide (chunkStatus s c = Some error))
    (fileChunks s f).

(** A tick of the 500 ms interval of [checkAllChunksUploaded]; on
    failure the rejection is caught by [uploadChunks]. *)
Definition joinTimer (t : nat) (s : State) : State :=
  match attempts s !! t with
  | Some a =>
      match attempt_phase a with
      | JoinPolling =>
          let f := attempt_file a in
          if allUploaded s f then mergeChunks t f s
          else if hasError s f then
            uploadChunks_catch t f ChunksFailedError
              (emit (upload_error f ChunksFailedError)
                 (updFile f (with_status error) s))
          else s
      | _ => s
      end
  | None => s
  end.

Definition mergeChunks_result (o : FetchOutcome MergeResult)
  : UploadError + MergeResult :=
  match o with
  | FetchRejected => inl TransportError
  | FetchResponse status json =>
      if response_ok status then
        match json with
        | Some r => inr r
        | None => inl BodyError
        end
      else inl (MergeStatusError status)
  end.

Definition allComplete (s : State) : bool :=
  forallb (λ f, bool_decide (fileStatus s f = Some success)
                || bool_decide (fileStatus s f = Some error))
    (fileList s).

(** [mergeChunks] resumed when the complete call has settled; its error
    is rethrown through [checkAllChunksUploaded] into the [catch] of
    [uploadChunks]. *)
Definition mergeChunks_resume (t : nat) (o : FetchOutcome MergeResult)
    (s : State) : State :=
  match attempts s !! t with
  | Some a =>
      match attempt_phase a with
      | MergePending =>
          let f := attempt_file a in
          match mergeChunks_result o with
          | inr result =>
              let s1 :=
                emit (upload_success f (url result))
                  (updFile f (λ fe, with_progress (JNum 100)
                                      (with_url (url result)
                                         (with_status success fe))) s) in
              let s2 :=
                if allComplete s1
                then emit (upload_complete (fileList s1)) s1 else s1 in
              updAttempt t (with_phase Finished) s2
          | inl err =>
              uploadChunks_catch t f err
                (emit (upload_error f err)
                   (updFile f (with_status error) s))
          end
      | _ => s
      end
  | None => s
  end.

(** *** Starting, cancelling, retrying *)

(** [uploadFile]: the entry is uploading, gets a fresh chunk plan and its
    identifier, the registry entry of the identifier is emptied, and
    [uploadChunks] starts. *)
Definition uploadFile (f : loc) (s : State) : State :=
  match fileHeap s !! f with
  | Some fe =>
      let plan := planChunks (file_size fe) chunkBytes in
      let refs := seq (length (chunkHeap s)) (length plan) in
      let identifier := calculateFileIdentifier (file_raw fe) in
      uploadChunks f
        (set_activeRequests <[identifier := []]>
           (updFile f (λ fe, with_identifier identifier
                               (with_chunks refs
                                  (with_status uploading fe)))
              (set_chunkHeap (λ h, h ++ plan) s)))
  | None => s
  end.

(** [startUpload]: every entry that is waiting or in error is uploaded. *)
Definition startUpload (s : State) : State :=
  foldl (λ s f, match fileStatus s f with
                | Some waiting | Some error => uploadFile f s
                | _ => s
                end) s (fileList s).

(** [cancelUpload]: nothing unless the entry is uploading; the requests
    registered under its identifier are aborted and the registry entry
    emptied, when there is one; the entry is in error with progress 0. *)
Definition cancelUpload (f : loc) (s : State) : State :=
  match fileHeap s !! f with
  | Some fe =>
      if decide (file_status fe = uploading) then
        let key := prop_key (file_identifier fe) in
        let s1 :=
          match activeRequests s !! key with
          | Some reqs =>
              set_activeRequests <[key := []]> (abortAll reqs s)
          | None => s
          end in
        updFile f (λ fe, with_progress (JNum 0) (with_status error fe)) s1
      else s
  | None => s
  end.

(** [retryUpload]: progress 0, the chunks replaced by reset copies, then
    [uploadFile]. *)
Definition retryUpload (f : loc) (s : State) : State :=
  let s1 := updFile f (with_progress (JNum 0)) s in
  let copies :=
    omap (λ c, (λ ch, chunk_with_status waiting (chunk_with_progress 0 ch))
                 <$> chunkHeap s1 !! c) (fileChunks s1 f) in
  let refs := seq (length (chunkHeap s1)) (length copies) in
  uploadFile f
    (updFile f (with_chunks refs)
       (set_chunkHeap (λ h, h ++ copies) s1)).

(** [removeFile]: an uploading entry is cancelled first; the entry leaves
    the list (its object stays reachable from running code). *)
Definition removeFile (index : nat) (s : State) : State :=
  match fileList s !! index with
  | Some f =>
      let s1 :=
        if decide (fileStatus s f = Some uploading)
        then cancelUpload f s else s in
      set_fileList (delete index) s1
  | None => s
  end.

(** The exposed [clearFiles]. *)
Definition clearFiles : State → State := set_fileList (λ _, []).

(** *** Admission *)

(** One iteration of the loop of [validateAndAddFiles]. *)
Definition addFile (s : State) (file : RawFile) : State :=
  if decide (maxSize props * 1024 * 1024 < raw_size file) then
    observe (Message (raw_name file) (maxSize props)) s
  else
    set_fileList (λ l, l ++ [length (fileHeap s)])
      (set_fileHeap
         (λ h, h ++ [ {| file_raw := file; file_name := raw_name file;
                         file_size := raw_size file;
                         file_type := raw_type file;
                         file_status := waiting;
                         file_progress := JNum 0; file_chunks := [];
                         file_identifier := None; file_uploadId := None;
                         file_url := None |} ]) s).

(** [validateAndAddFiles]: the loop, then file-change, then with
    [autoUpload] and a non-empty list [startUpload]. *)
Definition validateAndAddFiles (files : list RawFile) (s : State) : State :=
  let s1 := foldl addFile s files in
  let s2 := emit (file_change (fileList s1)) s1 in
  if autoUpload props && bool_decide (fileList s2 ≠ [])
  then startUpload s2 else s2.

(** [handleFileChange] returns at once on an empty selection; [handleDrop]
    does not. *)
Definition handleFileChange (files : list RawFile) (s : State) : State :=
  match files with
  | [] => s
  | _ => validateAndAddFiles files s
  end.

Definition handleDrop (files : list RawFile) (s : State) : State :=
  validateAndAddFiles files s.

(** *** The event loop *)

(** One turn of the event loop.  The buttons exist as the template
    renders them: cancel on an entry of the list that is uploading, retry
    on one in error, remove on the others.  Network events reach the
    handlers of a request only while it is in flight. *)
Definition handle (e : Event) (s : State) : State :=
  match e with
  | InputChange files => handleFileChange files s
  | Drop files => handleDrop files s
  | ClickCancel f =>
      if decide (f ∈ fileList s ∧ fileStatus s f = Some uploading)
      then cancelUpload f s else s
  | ClickRetry f =>
      if decide (f ∈ fileList s ∧ fileStatus s f = Some error)
      then retryUpload f s else s
  | ClickRemove index =>
      match fileList s !! index with
      | Some f =>
          if decide (fileStatus s f = Some uploading
                     ∨ fileStatus s f = Some error)
          then s else removeFile index s
      | None => s
      end
  | CallUpload => startUpload s
  | CallClearFiles => clearFiles s
  | CreateSettled t o => uploadChunks_resume t o s
  | SlotTimer t => slotTimer t s
  | XhrProgress x lengthComputable percent =>
      if decide (xhr_state <$> xhrs s !! x = Some Sent)
      then xhr_onprogress x lengthComputable percent s else s
  | XhrLoad x status =>
      if decide (xhr_state <$> xhrs s !! x = Some Sent)
      then xhr_onload x status s else s
  | XhrError x =>
      if decide (xhr_state <$> xhrs s !! x = Some Sent)
      then xhr_onerror x s else s
  | JoinTimer t => joinTimer t s
  | MergeSettled t o => mergeChunks_resume t o s
  end.

(** The state after a sequence of events. *)
Definition run (events : list Event) (s : State) : State :=
  foldl (λ s e, handle e s) s events.

End Component.

(** ** Runs and the protocol of an attempt *)

Definition reachable (props : Props) (s : State) : Prop :=
  ∃ events, s = run props events init.

Definition is_create_call (c : Call) : bool :=
  match c with CreateCall _ _ _ _ _ _ => true | _ => false end.

Definition is_chunk_call (c : Call) : bool :=
  match c with ChunkCall _ _ _ _ _ => true | _ => false end.

Definition is_complete_call (c : Call) : bool :=
  match c with CompleteCall _ _ _ _ => true | _ => false end.

Definition is_join_timer (e : Event) : bool :=
  match e with JoinTimer _ => true | _ => false end.

(** The calls of attempt [t] in a trace, in order. *)
Definition callOf (t : nat) (o : Obs) : option Call :=
  match o with
  | Net t' c => if decide (t' = t) then Some c else None
  | _ => None
  end.

Definition callsOf (t : nat) (tr : list Obs) : list Call :=
  omap (callOf t) tr.

(** The file and the suspension point of attempt [t]. *)
Definition attemptView (s : State) (t : nat) : option (nat * Phase) :=
  (λ a, (attempt_file a, attempt_phase a)) <$> attempts s !! t.

(** The calls an attempt has made, by suspension point: the create call
    first; only chunk calls after it as long as the attempt has not passed
    the join. *)
Definition calls_shape (ph : Phase) (cs : list Call) : Prop :=
  ∃ c rest, cs = c :: rest ∧ is_create_call c = true ∧
    match ph with
    | CreatePending => rest = []
    | SlotWait _ | JoinPolling => Forall (λ c, is_chunk_call c = true) rest
    | MergePending | Finished => True
    end.

(** The invariant of reachable states that links attempts and trace. *)
Definition inv (s : State) : Prop :=
  ∀ t, match attemptView s t with
       | None => callsOf t (trace s) = []
       | Some (f, ph) =>
           (f < length (fileHeap s))%nat ∧ calls_shape ph (callsOf t (trace s))
       end.

(** What one piece of code may do to an attempt: nothing; dispatch chunks;
    pass the join with the complete call (only the join timer, [b = true],
    does); finish without a call. *)
Definition proto (b : bool) (ph : Phase) (cs : list Call) (ph' : Phase)
  : Prop :=
  (cs = [] ∧ ph' = ph)
  ∨ ((ph = CreatePending ∨ ∃ p, ph = SlotWait p)
     ∧ ((∃ p, ph' = SlotWait p) ∨ ph' = JoinPolling)
     ∧ Forall (λ c, is_chunk_call c = true) cs)
  ∨ (b = true ∧ ph = JoinPolling ∧ ph' = MergePending
     ∧ Forall (λ c, is_complete_call c = true) cs)
  ∨ (ph ≠ Finished ∧ ph' = Finished ∧ cs = []).

Definition trans (b : bool) (heap' : nat) (o o' : option (nat * Phase))
    (cs : list Call) : Prop :=
  match o, o' with
  | None, None => cs = []
  | None, Some (f, ph') =>
      ph' = CreatePending ∧ (f < heap')%nat
      ∧ ∃ c, cs = [c] ∧ is_create_call c = true
  | Some (f, ph), Some (f', ph') => f' = f ∧ proto b ph cs ph'
  | Some _, None => False
  end.

Definition step (b : bool) (s s' : State) : Prop :=
  (length (fileHeap s) ≤ length (fileHeap s'))%nat
  ∧ ∃ added, trace s' = trace s ++ added
      ∧ ∀ t, trans b (length (fileHeap s')) (attemptView s t)
               (attemptView s' t) (callsOf t added).

(** Code that touches no attempt (but for its counter) and makes no call. *)
Definition quiet (s s' : State) : Prop :=
  (length (fileHeap s) ≤ length (fileHeap s'))%nat
  ∧ (∀ t, attemptView s' t = attemptView s t)
  ∧ ∃ added, trace s' = trace s ++ added ∧ ∀ t, callsOf t added = [].

(** Attempt [t] is finished and has made the calls [cs]. *)
Definition frozen (t : nat) (cs : list Call) (s : State) : Prop :=
  (∃ f, attemptView s t = Some (f, Finished)) ∧ callsOf t (trace s) = cs.

(** ** Progress values *)

(** The computation of [updateFileProgress] on the vector of chunk
    progress values. *)
Definition aggregateProgress (ps : list Z) : jsnum :=
  Math_round_div (foldl Z.add 0 ps) (Z.of_nat (length ps)).

(** The chunk progress values of a file, in chunk order. *)
Definition chunkProgresses (s : State) (f : loc) : list Z :=
  map (chunkProgress s) (fileChunks s f).

(** The unweighted arithmetic mean, as the specification words it. *)
Definition arithmetic_mean (ps : list Z) : Q :=
  Qdiv (inject_Z (foldr Z.add 0 ps)) (inject_Z (Z.of_nat (length ps))).

(** An attempt that is past its dispatch loop, and the chunk calls it has
    made. *)
Definition pastDispatch (ph : Phase) : Prop :=
  ph = JoinPolling ∨ ph = MergePending ∨ ph = Finished.

Definition chunkCalls (t : nat) (s : State) : list Call :=
  filter (λ c, is_chunk_call c = true) (callsOf t (trace s)).

Definition joined (t : nat) (cs : list Call) (s : State) : Prop :=
  (∃ f ph, attemptView s t = Some (f, ph) ∧ pastDispatch ph)
  ∧ chunkCalls t s = cs.

(** An entry of size 0 has no chunks. *)
Definition unchunkedWhenEmpty (s : State) : Prop :=
  ∀ f fe, fileHeap s !! f = Some fe → file_size fe = 0 → file_chunks fe = [].

(** Code that leaves the status of every existing chunk alone. *)
Definition keepsStatus (s s' : State) : Prop :=
  ∀ c st, chunkStatus s c = Some st → chunkStatus s' c = Some st.

(** Code that leaves the progress of every existing entry alone. *)
Definition keepsProgress (s s' : State) : Prop :=
  ∀ f p, fileProgress s f = Some p → fileProgress s' f = Some p.

(** ** Concrete inputs *)

(** The props at their defaults: [maxSize] 100 MB, [chunkSize] 5 MB,
    three simultaneous uploads, automatic upload, no extra data. *)
Definition defaultProps : Props :=
  {| maxSize := 100; chunkSize := 5; simultaneousUploads := 3;
     autoUpload := true; data := [] |}.

(** The props of the scenario with a limit of 5 MB. *)
Definition smallLimitProps : Props :=
  {| maxSize := 5; chunkSize := 5; simultaneousUploads := 3;
     autoUpload := true; data := [] |}.

Definition MB : Z := 1024 * 1024.

Definition sampleFile (name : string) (size : Z) : RawFile :=
  {| raw_name := name; raw_size := size;
     raw_type := "application/octet-stream";
     raw_lastModified := 1700000000000 |}.

Definition createOk (id : string) : FetchOutcome CreateResponse :=
  FetchResponse 200 (Some {| upload_id := Some id |}).

Definition mergeOk (u : string) : FetchOutcome MergeResult :=
  FetchResponse 200 (Some {| url := Some u |}).

(** ** The pieces of code a handler is made of *)

(** Where the dispatch loop of an attempt takes its chunks from: the chunk
    list of its entry when the create call has just settled, the rest of
    the list it is suspended on when it waits for a slot. *)
Definition loopSource (s : State) (f : loc) (ph : Phase)
    (pending : list loc) : Prop :=
  (ph = CreatePending ∧ pending ⊆ fileChunks s f)
  ∨ (∃ p, ph = SlotWait p ∧ pending ⊆ p).

(** [Preserved props e P]: every piece of code that the handler of event
    [e] runs keeps [P], in the context the handler runs it in.  The fields
    follow the source: admission, [uploadFile], [retryUpload],
    [cancelUpload], [removeFile], [clearFiles], the continuation of
    [uploadChunks] with its loop and its [catch], the handlers of a
    request, the join and [mergeChunks]. *)
Record Preserved (props : Props) (e : Event) (P : State → Prop) : Prop := {
  pres_addFile : ∀ s file, P s → P (addFile props s file);
  pres_file_change : ∀ s, P s → P (emit (file_change (fileList s)) s);
  pres_uploadFile : ∀ f s,
    f ∈ fileList s →
    fileStatus s f = Some waiting ∨ fileStatus s f = Some error →
    P s → P (uploadFile props f s);
  pres_retryUpload : ∀ f s,
    f ∈ fileList s → fileStatus s f = Some error →
    P s → P (retryUpload props f s);
  pres_cancelUpload : ∀ f s,
    f ∈ fileList s → fileStatus s f = Some uploading →
    P s → P (cancelUpload f s);
  pres_splice : ∀ index f s,
    fileList s !! index = Some f →
    fileStatus s f ≠ Some uploading → fileStatus s f ≠ Some error →
    P s → P (set_fileList (delete index) s);
  pres_clearFiles : ∀ s, P s → P (clearFiles s);
  pres_uploadId : ∀ t f u s,
    attemptView s t = Some (f, CreatePending) →
    P s → P (updFile f (with_uploadId u) s);
  pres_dispatch : ∀ t f ph c s,
    attemptView s t = Some (f, ph) →
    running s t < simultaneousUploads props →
    loopSource s f ph [c] →
    P s → P (dispatch t f c s);
  pres_slot_wait : ∀ t f ph pending s,
    attemptView s t = Some (f, ph) → loopSource s f ph pending →
    P s → P (updAttempt t (with_phase (SlotWait pending)) s);
  pres_join : ∀ t f ph s,
    attemptView s t = Some (f, ph) →
    ph = CreatePending ∨ (∃ p, ph = SlotWait p) →
    P s → P (checkAllChunksUploaded t s);
  pres_tick : ∀ x xr percent s,
    e = XhrProgress x true percent →
    xhrs s !! x = Some xr → xhr_state xr = Sent →
    P s → P (updChunk (xhr_chunk xr) (chunk_with_progress percent) s);
  pres_chunk_success : ∀ x xr s,
    xhrs s !! x = Some xr → xhr_state xr = Sent →
    P s →
    P (updChunk (xhr_chunk xr)
         (λ c, chunk_with_progress 100 (chunk_with_status success c)) s);
  pres_chunk_error : ∀ x xr s,
    xhrs s !! x = Some xr → xhr_state xr = Sent →
    P s → P (updChunk (xhr_chunk xr) (chunk_with_status error) s);
  pres_updateFileProgress : ∀ x xr s,
    xhrs s !! x = Some xr → xhr_state xr = Sent →
    P s → P (updateFileProgress (xhr_file xr) s);
  pres_xhr_settle : ∀ x xr s,
    xhrs s !! x = Some xr → xhr_state xr = Sent →
    P s → P (xhr_settle x xr s);
  pres_mergeChunks : ∀ t f s,
    e = JoinTimer t →
    attemptView s t = Some (f, JoinPolling) → allUploaded s f = true →
    P s → P (mergeChunks props t f s);
  pres_status_error : ∀ t f ph s,
    attemptView s t = Some (f, ph) → ph ≠ Finished →
    P s → P (updFile f (with_status error) s);
  pres_upload_error : ∀ t f ph err s,
    attemptView s t = Some (f, ph) → ph ≠ Finished →
    P s → P (emit (upload_error f err) s);
  pres_finish : ∀ t f ph s,
    attemptView s t = Some (f, ph) → ph ≠ Finished →
    P s → P (updAttempt t (with_phase Finished) s);
  pres_merged : ∀ t f o result s,
    e = MergeSettled t o → mergeChunks_result o = inr result →
    attemptView s t = Some (f, MergePending) →
    P s →
    P (updFile f (λ fe, with_progress (JNum 100)
                          (with_url (url result)
                             (with_status success fe))) s);
  pres_upload_success : ∀ t f o result s,
    e = MergeSettled t o → mergeChunks_result o = inr result →
    attemptView s t = Some (f, MergePending) →
    P s → P (emit (upload_success f (url result)) s);
  pres_upload_complete : ∀ t f o result s,
    e = MergeSettled t o → mergeChunks_result o = inr result →
    attemptView s t = Some (f, MergePending) → allComplete s = true →
    P s → P (emit (upload_complete (fileList s)) s)
}.

Arguments pres_addFile {props e P}.
Arguments pres_file_change {props e P}.
Arguments pres_uploadFile {props e P}.
Arguments pres_retryUpload {props e P}.
Arguments pres_cancelUpload {props e P}.
Arguments pres_splice {props e P}.
Arguments pres_clearFiles {props e P}.
Arguments pres_uploadId {props e P}.
Arguments pres_dispatch {props e P}.
Arguments pres_slot_wait {props e P}.
Arguments pres_join {props e P}.
Arguments pres_tick {props e P}.
Arguments pres_chunk_success {props e P}.
Arguments pres_chunk_error {props e P}.
Arguments pres_updateFileProgress {props e P}.
Arguments pres_xhr_settle {props e P}.
Arguments pres_mergeChunks {props e P}.
Arguments pres_status_error {props e P}.
Arguments pres_upload_error {props e P}.
Arguments pres_finish {props e P}.
Arguments pres_merged {props e P}.
Arguments pres_upload_success {props e P}.
Arguments pres_upload_complete {props e P}.

(** The requests of attempt [t] that are in flight. *)
Definition inFlight (s : State) (t : nat) : list Xhr :=
  filter (λ xr, xhr_attempt xr = t ∧ xhr_state xr = Sent) (xhrs s).

(** The counter of an attempt bounds its requests in flight and stays
    within the limit. *)
Definition slotsBounded (props : Props) (s : State) : Prop :=
  ∀ t, Z.of_nat (length (inFlight s t)) ≤ running s t
       ∧ running s t ≤ Z.max 0 (simultaneousUploads props).

(** An entry that [uploadFile] has started carries the identifier of its
    browser file. *)
Definition identifierSet (fe : FileEntry) : Prop :=
  file_identifier fe = Some (calculateFileIdentifier (file_raw fe)).

(** Identifiers are assigned at most once per entry, and before the entry
    gets its first attempt. *)
Definition identified (s : State) : Prop :=
  (∀ f fe, fileHeap s !! f = Some fe →
     file_identifier fe = None ∨ identifierSet fe)
  ∧ (∀ t f ph, attemptView s t = Some (f, ph) →
       ∃ fe, fileHeap s !! f = Some fe ∧ identifierSet fe).

(** The registry holds requests in flight only, each once, under the
    identifier of its entry. *)
Definition registryLive (s : State) : Prop :=
  ∀ key reqs, activeRequests s !! key = Some reqs →
    NoDup reqs
    ∧ ∀ x, x ∈ reqs →
        ∃ xr fe, xhrs s !! x = Some xr ∧ xhr_state xr = Sent
          ∧ fileHeap s !! xhr_file xr = Some fe
          ∧ file_identifier fe = Some key.

(** The number of chunks of the plan of an entry. *)
Definition planSize (props : Props) (fe : FileEntry) : nat :=
  length (planChunks (file_size fe) (chunkBytes props)).

(** Chunk object [c] is chunk [i] of the plan of entry [fe], whatever its
    progress and status. *)
Definition plannedChunk (props : Props) (s : State) (fe : FileEntry)
    (i : nat) (c : loc) : Prop :=
  ∃ ch, chunkHeap s !! c = Some ch ∧ chunk_index ch = i
    ∧ chunk_start ch = Z.of_nat i * chunkBytes props
    ∧ chunk_end ch
      = Z.min ((Z.of_nat i + 1) * chunkBytes props) (file_size fe).

(** An entry that was never started has no chunks; the chunk list of a
    started entry is its plan. *)
Definition entryPlanned (props : Props) (s : State) (fe : FileEntry) : Prop :=
  (file_identifier fe = None → file_chunks fe = [])
  ∧ (file_identifier fe ≠ None →
     length (file_chunks fe) = planSize props fe)
  ∧ ∀ i c, file_chunks fe !! i = Some c → plannedChunk props s fe i c.

Definition chunksPlanned (props : Props) (s : State) : Prop :=
  ∀ f fe, fileHeap s !! f = Some fe → entryPlanned props s fe.

(** The chunks a suspended dispatch loop still has to go through belong
    to the plan of its entry. *)
Definition pendingPlanned (props : Props) (s : State) : Prop :=
  ∀ t f pending, attemptView s t = Some (f, SlotWait pending) →
    ∃ fe, fileHeap s !! f = Some fe
      ∧ ∀ c, c ∈ pending →
          ∃ i, (i < planSize props fe)%nat ∧ plannedChunk props s fe i c.

(** The form fields of a call agree with the entry [fe]. *)
Definition callFits (props : Props) (fe : FileEntry) (c : Call) : Prop :=
  match c with
  | CreateCall filename size mime_type chunk_size chunks extra =>
      filename = file_name fe ∧ size = file_size fe
      ∧ mime_type = file_type fe ∧ chunk_size = chunkBytes props
      ∧ chunks = planSize props fe ∧ extra = data props
  | ChunkCall _ chunk_index slice_start slice_end filename =>
      filename = file_name fe ∧ (chunk_index < planSize props fe)%nat
      ∧ slice_start = Z.of_nat chunk_index * chunkBytes props
      ∧ slice_end
        = Z.min ((Z.of_nat chunk_index + 1) * chunkBytes props)
            (file_size fe)
  | CompleteCall _ filename total_chunks extra =>
      filename = file_name fe ∧ total_chunks = planSize props fe
      ∧ extra = data props
  end.

(** Every call made so far fits the entry of its attempt. *)
Definition callsFit (props : Props) (s : State) : Prop :=
  ∀ t c, Net t c ∈ trace s →
    ∃ f ph fe, attemptView s t = Some (f, ph)
      ∧ fileHeap s !! f = Some fe ∧ callFits props fe c.

Definition planned (props : Props) (s : State) : Prop :=
  chunksPlanned props s ∧ pendingPlanned props s ∧ callsFit props s.

(** Two versions of an entry that differ in status, progress, upload id
    or url only. *)
Definition sameEntry (fe fe' : FileEntry) : Prop :=
  file_name fe' = file_name fe ∧ file_size fe' = file_size fe
  ∧ file_type fe' = file_type fe ∧ file_chunks fe' = file_chunks fe
  ∧ file_identifier fe' = file_identifier fe.

(** Code that keeps index and range of every chunk object. *)
Definition keepsChunks (s s' : State) : Prop :=
  ∀ c ch, chunkHeap s !! c = Some ch →
    ∃ ch', chunkHeap s' !! c = Some ch'
      ∧ chunk_index ch' = chunk_index ch
      ∧ chunk_start ch' = chunk_start ch ∧ chunk_end ch' = chunk_end ch.

(** Code that keeps name, size and type of every entry. *)
Definition keepsFiles (s s' : State) : Prop :=
  ∀ f fe, fileHeap s !! f = Some fe →
    ∃ fe', fileHeap s' !! f = Some fe'
      ∧ file_name fe' = file_name fe ∧ file_size fe' = file_size fe
      ∧ file_type fe' = file_type fe.

(** Code that leaves the plans alone: entries keep their shape, new
    entries are not started, chunk objects keep index and range. *)
Definition sameShape (s s' : State) : Prop :=
  (∀ f, match fileHeap s !! f, fileHeap s' !! f with
        | Some fe, Some fe' => sameEntry fe fe'
        | None, Some fe' => file_identifier fe' = None ∧ file_chunks fe' = []
        | None, None => True
        | Some _, None => False
        end)
  ∧ keepsChunks s s'.

Definition wellPlanned (props : Props) (s : State) : Prop :=
  identified s ∧ planned props s.

(** Every request belongs to a started entry with at least one chunk. *)
Definition requestsChunked (props : Props) (s : State) : Prop :=
  ∀ x xr, xhrs s !! x = Some xr →
    ∃ fe, fileHeap s !! xhr_file xr = Some fe ∧ file_identifier fe ≠ None
      ∧ (0 < planSize props fe)%nat.

(** A progress value that is a percentage. *)
Definition percentage (p : jsnum) : Prop :=
  ∃ z, p = JNum z ∧ 0 ≤ z ∧ z ≤ 100.

Definition percentages (s : State) : Prop :=
  Forall (λ ch, 0 ≤ chunk_progress ch ∧ chunk_progress ch ≤ 100)
    (chunkHeap s)
  ∧ Forall (λ fe, percentage (file_progress fe)) (fileHeap s).

(** The percentage of a progress event the handler reads lies between 0
    and 100. *)
Definition tickInRange (e : Event) : Prop :=
  match e with
  | XhrProgress _ true percent => 0 ≤ percent ∧ percent ≤ 100
  | _ => True
  end.

Definition progressSound (props : Props) (s : State) : Prop :=
  requestsChunked props s ∧ percentages s.

(** The calls of an attempt by suspension point: one create call, then
    chunk calls, then at most one complete call, and none before the
    attempt has passed the join. *)
Definition calls_sequence (ph : Phase) (cs : list Call) : Prop :=
  ∃ c rest tail, cs = c :: rest ++ tail ∧ is_create_call c = true
    ∧ Forall (λ c, is_chunk_call c = true) rest
    ∧ match ph with
      | CreatePending | SlotWait _ | JoinPolling => tail = []
      | MergePending | Finished =>
          tail = [] ∨ ∃ c', tail = [c'] ∧ is_complete_call c' = true
      end.

Definition sequenced (s : State) : Prop :=
  ∀ t, match attemptView s t with
       | None => callsOf t (trace s) = []
       | Some (_, ph) => calls_sequence ph (callsOf t (trace s))
       end.

(** The two events that report a finished upload. *)
Definition is_success_event (o : Obs) : bool :=
  match o with
  | Emit (upload_success _ _) | Emit (upload_complete _) => true
  | _ => false
  end.

(** Code that reports no finished upload. *)
Definition reportsNoSuccess (s s' : State) : Prop :=
  ∃ added, trace s' = trace s ++ added
    ∧ Forall (λ o, is_success_event o = false) added.

(** An event other than the success of a complete call. *)
Definition is_merge_success (e : Event) : bool :=
  match e with
  | MergeSettled _ o =>
      match mergeChunks_result o with inr _ => true | inl _ => false end
  | _ => false
  end.

(** The status [startUpload] leaves an entry of the list with. *)
Definition started (st : Status) : Status :=
  match st with success => success | _ => uploading end.


(** No character of the string is an underscore. *)
Fixpoint underscoreFree (s : string) : Prop :=
  match s with
  | EmptyString => True
  | String a s' => a ≠ "_"%char ∧ underscoreFree s'
  end.

(** ** The loading store and the global spinner *)

(** [id.startsWith(prefix)] *)
Fixpoint startsWith (prefix s : string) : bool :=
  match prefix, s with
  | EmptyString, _ => true
  | String a prefix', String b s' =>
      bool_decide (a = b) && startsWith prefix' s'
  | String _ _, EmptyString => false
  end.

Module LoadingStore.

(** [loadingRequests]: the set of the request identifiers that are
    loading. *)
Definition isLoading (loadingRequests : gset string) : bool :=
  bool_decide (0 < size loadingRequests)%nat.

Definition startLoading (requestId : string) (loadingRequests : gset string)
  : gset string :=
  {[requestId]} ∪ loadingRequests.

Definition finishLoading (requestId : string) (loadingRequests : gset string)
  : gset string :=
  loadingRequests ∖ {[requestId]}.

Definition clearAllLoadings (loadingRequests : gset string) : gset string :=
  ∅.

(** [Array.from(loadingRequests).some(id => id.startsWith(`${module}:`))] *)
Definition getModuleLoading (module : string)
    (loadingRequests : gset string) : bool :=
  existsb (startsWith (module +:+ ":")) (elements loadingRequests).

(** The text of the global spinner, [loadingText] of the component that
    shows it while [isLoading]. *)
Definition loadingText (loadingRequests : gset string) : string :=
  let requests := elements loadingRequests in
  if decide (length requests = 0%nat) then "加载中..."
  else if existsb (startsWith "upload:") requests then "正在上传文件..."
  else if existsb (startsWith "download:") requests then "正在准备下载..."
  else if existsb (startsWith "auth:") requests then "正在验证身份..."
  else "加载中...".

(** The identifiers the upload component and the template download give
    to the store. *)
Definition createKey (identifier : option string) : string :=
  "upload:create:" +:+ prop_key identifier.

Definition mergeKey (identifier : option string) : string :=
  "upload:merge:" +:+ prop_key identifier.

Definition downloadTemplateKey : string := "download-template".

End LoadingStore.

(** ** The routes a role may see *)

Module Router.

Section Routes.

(** The roles, [UserRole]; arrays of roles are searched with [includes]. *)
Context {Role : Type} `{EqDecision Role}.

(** A route record: its path and name, [meta.roles] when [meta] and
    [meta.roles] are there, and its children when it has any. *)
#[local] Unset Elimination Schemes.

Inductive Route : Type :=
  | mkRoute (path : string) (name : option string)
      (roles : option (list Role)) (children : option (list Route)).

Definition route_path (r : Route) : string :=
  match r with mkRoute path _ _ _ => path end.

Definition route_roles (r : Route) : option (list Role) :=
  match r with mkRoute _ _ roles _ => roles end.

Definition route_children (r : Route) : option (list Route) :=
  match r with mkRoute _ _ _ children => children end.

(** [hasPermission]: a route without [meta.roles] is open to every role. *)
Definition hasPermission (route : Route) (role : Role) : bool :=
  match route_roles route with
  | Some roles => bool_decide (role ∈ roles)
  | None => true
  end.

(** One iteration of the loop of [filterAsyncRoutes]: the copy of the
    route with its children filtered, when the role may see the route. *)
Fixpoint filterRoute (role : Role) (route : Route) : option Route :=
  match route with
  | mkRoute path name roles children =>
      if hasPermission route role then
        Some (mkRoute path name roles
                (match children with
                 | Some children =>
                     Some ((fix go (l : list Route) : list Route :=
                              match l with
                              | [] => []
                              | r :: l' =>
                                  match filterRoute role r with
                                  | Some r' => r' :: go l'
                                  | None => go l'
                                  end
                              end) children)
                 | None => None
                 end))
      else None
  end.

(** [filterAsyncRoutes] *)
Definition filterAsyncRoutes (routes : list Route) (role : Role)
  : list Route :=
  omap (filterRoute role) routes.

(** The role may see the route. *)
Definition permitted (role : Role) (r : Route) : Prop :=
  hasPermission r role = true.

(** [P] holds of a route and of all routes below it. *)
Inductive everyRoute (P : Route → Prop) : Route → Prop :=
  | everyRoute_intro path name roles children :
      P (mkRoute path name roles children) →
      (∀ l, children = Some l → Forall (everyRoute P) l) →
      everyRoute P (mkRoute path name roles children).

#[local] Set Elimination Schemes.

End Routes.

End Router.

(** ** Facts on the chunk plan *)

Lemma Math_ceil_div_bounds (a b : Z) :
  0 < b → (Math_ceil_div a b - 1) * b < a ≤ Math_ceil_div a b * b.
Proof.
  intros Hb. unfold Math_ceil_div.
  pose proof (Z.div_mod (- a) b ltac:(lia)) as Hdm.
  pose proof (Z.mod_pos_bound (- a) b Hb) as Hm.
  nia.
Qed.

Lemma Math_ceil_div_pos (a b : Z) : 0 < a → 0 < b → 0 < Math_ceil_div a b.
Proof.
  intros Ha Hb. pose proof (Math_ceil_div_bounds a b Hb). nia.
Qed.

Lemma planChunks_length (size chunkSize : Z) :
  length (planChunks size chunkSize)
  = Z.to_nat (Math_ceil_div size chunkSize).
Proof. unfold planChunks. by rewrite length_map, length_seq. Qed.

Lemma planChunks_lookup (size chunkSize : Z) (i : nat) :
  (i < length (planChunks size chunkSize))%nat →
  planChunks size chunkSize !! i = Some (planChunk size chunkSize i).
Proof.
  rewrite planChunks_length. intros Hi. unfold planChunks.
  rewrite list_lookup_fmap, lookup_seq_lt by done. done.
Qed.



(** ** Cancelling *)

Lemma abort_frame (x : nat) (s : State) :
  fileList (abort x s) = fileList s ∧ fileHeap (abort x s) = fileHeap s
  ∧ chunkHeap (abort x s) = chunkHeap s
  ∧ activeRequests (abort x s) = activeRequests s
  ∧ attempts (abort x s) = attempts s ∧ trace (abort x s) = trace s.
Proof. done. Qed.

Lemma abortAll_frame (reqs : list nat) (s : State) :
  fileList (abortAll reqs s) = fileList s
  ∧ fileHeap (abortAll reqs s) = fileHeap s
  ∧ chunkHeap (abortAll reqs s) = chunkHeap s
  ∧ activeRequests (abortAll reqs s) = activeRequests s
  ∧ attempts (abortAll reqs s) = attempts s
  ∧ trace (abortAll reqs s) = trace s.
Proof.
  revert s. induction reqs as [|x reqs IH]; intros s; [done |].
  unfold abortAll in *. simpl. destruct (IH (abort x s)) as (-> & -> & -> & -> & -> & ->).
  done.
Qed.

Lemma abort_state (x y : nat) (s : State) :
  xhr_state <$> xhrs (abort x s) !! y
  = (λ st, if decide (x = y ∧ st = Sent) then Aborted else st)
      <$> (xhr_state <$> xhrs s !! y).
Proof.
  unfold abort. simpl. destruct (decide (x = y)) as [-> | Hne].
  - rewrite list_lookup_alter_eq. destruct (xhrs s !! y) as [xr|]; [|done].
    simpl. destruct (decide (xhr_state xr = Sent)) as [Hs|Hs].
    + by rewrite decide_True.
    + rewrite decide_False; [done |]. by intros [_ ?].
  - rewrite list_lookup_alter_ne by done.
    destruct (xhrs s !! y) as [xr|]; [|done]. simpl.
    rewrite decide_False; [done |]. by intros [? _].
Qed.

Lemma abortAll_state (reqs : list nat) (y : nat) (s : State) :
  xhr_state <$> xhrs (abortAll reqs s) !! y
  = (λ st, if decide (y ∈ reqs ∧ st = Sent) then Aborted else st)
      <$> (xhr_state <$> xhrs s !! y).
Proof.
  revert s. induction reqs as [|x reqs IH]; intros s.
  - simpl. by destruct (xhrs s !! y) as [xr|].
  - unfold abortAll in *. simpl. rewrite IH, abort_state.
    destruct (xhrs s !! y) as [xr|]; [|done]. simpl. f_equal.
    destruct (decide (x = y ∧ xhr_state xr = Sent)) as [[-> Hs]|Hn].
    + rewrite decide_False; [| intros [_ ?]; congruence].
      rewrite decide_True; [done | split; [set_solver | done]].
    + destruct (decide (y ∈ reqs ∧ xhr_state xr = Sent)) as [[Hy Hs]|Hn'].
      * rewrite decide_True; [done | split; [set_solver | done]].
      * rewrite decide_False; [done |]. intros [Hy Hs].
        apply elem_of_cons in Hy as [-> | Hy]; naive_solver.
Qed.

Lemma cancelUpload_progress (s : State) (f : loc) :
  fileStatus s f = Some uploading →
  fileProgress (cancelUpload f s) f = Some (JNum 0).
Proof.
  unfold fileStatus, fileProgress, cancelUpload.
  destruct (fileHeap s !! f) as [fe|] eqn:Hf; [|done]. simpl.
  intros [= Hst]. rewrite decide_True by done.
  destruct (activeRequests s !! prop_key (file_identifier fe)) as [reqs|];
    simpl.
  - destruct (abortAll_frame reqs s) as (_ & -> & _).
    by rewrite list_lookup_alter_eq, Hf.
  - by rewrite list_lookup_alter_eq, Hf.
Qed.

(** C3.  Cancelling an entry that is uploading calls [abort] on every
    request registered under the entry's identifier (none of them is in
    flight afterwards, those that were are aborted), leaves no request
    registered under that identifier, and puts the entry in the error
    state, from which it can be retried, with progress 0. *)
Theorem C3_cancel_aborts_and_clears (s : State) (f : loc) :
  fileStatus s f = Some uploading →
  let s' := cancelUpload f s in
  (∀ x, x ∈ registered s f →
        xhr_state <$> xhrs s' !! x ≠ Some Sent
        ∧ (xhr_state <$> xhrs s !! x = Some Sent →
           xhr_state <$> xhrs s' !! x = Some Aborted))
  ∧ registered s' f = []
  ∧ fileStatus s' f = Some error
  ∧ fileProgress s' f = Some (JNum 0).
Proof.
  unfold fileStatus, fileProgress, registered, cancelUpload.
  destruct (fileHeap s !! f) as [fe|] eqn:Hf; [|done]. simpl.
  intros [= Hst]. rewrite decide_True by done.
  destruct (activeRequests s !! prop_key (file_identifier fe))
    as [reqs|] eqn:Hreg; simpl.
  - destruct (abortAll_frame reqs s) as (_ & HfH & _ & _ & _ & _).
    rewrite HfH, !list_lookup_alter_eq, !Hf. simpl.
    rewrite lookup_insert_eq. split_and!; [|done..].
    intros x Hx. rewrite abortAll_state.
    destruct (xhrs s !! x) as [xr|]; simpl; [|done].
    case_decide as Hd.
    + done.
    + split; [|intros [= Hs]; exfalso; by apply Hd].
      intros [= Hs]. by apply Hd.
  - rewrite !list_lookup_alter_eq, !Hf. simpl. rewrite Hreg.
    split_and!; [|done..]. intros x Hx. by apply elem_of_nil in Hx.
Qed.

(** ** Quiet code *)

Lemma callsOf_app (t : nat) (l1 l2 : list Obs) :
  callsOf t (l1 ++ l2) = callsOf t l1 ++ callsOf t l2.
Proof. apply omap_app. Qed.

Lemma elem_of_callsOf (t : nat) (c : Call) (tr : list Obs) :
  c ∈ callsOf t tr ↔ Net t c ∈ tr.
Proof.
  unfold callsOf. rewrite list_elem_of_omap. split.
  - intros (o & Ho & Hc). destruct o as [| |t' c']; simpl in Hc; try done.
    case_decide; naive_solver.
  - intros H. exists (Net t c). split; [done |]. simpl.
    by rewrite decide_True.
Qed.

Lemma quiet_refl (s : State) : quiet s s.
Proof.
  split_and!; [done | done |]. exists []. by rewrite app_nil_r.
Qed.

Lemma quiet_trans (s1 s2 s3 : State) :
  quiet s1 s2 → quiet s2 s3 → quiet s1 s3.
Proof.
  intros (Hl & Hv & a & Ht & Hc) (Hl' & Hv' & a' & Ht' & Hc').
  split_and!; [lia | intros t; by rewrite Hv', Hv |].
  exists (a ++ a'). split.
  - by rewrite Ht', Ht, <-app_assoc.
  - intros t. by rewrite callsOf_app, Hc, Hc'.
Qed.

(** Composition, in the order the code is written: [op (rest s)]. *)
Lemma quiet_then (op : State → State) (s x : State) :
  (∀ y, quiet y (op y)) → quiet s x → quiet s (op x).
Proof. intros Hop Hx. eapply quiet_trans; [exact Hx | apply Hop]. Qed.

(** An update that leaves file heap, attempts and trace as they are. *)
Ltac quiet_frame :=
  split_and!; [done | done | exists []; simpl; by rewrite app_nil_r].

Lemma quiet_set_fileList g s : quiet s (set_fileList g s).
Proof. quiet_frame. Qed.

Lemma quiet_set_chunkHeap g s : quiet s (set_chunkHeap g s).
Proof. quiet_frame. Qed.

Lemma quiet_set_activeRequests g s : quiet s (set_activeRequests g s).
Proof. quiet_frame. Qed.

Lemma quiet_set_xhrs g s : quiet s (set_xhrs g s).
Proof. quiet_frame. Qed.

Lemma quiet_updChunk c g s : quiet s (updChunk c g s).
Proof. quiet_frame. Qed.

Lemma quiet_updFile f g s : quiet s (updFile f g s).
Proof.
  split_and!; [simpl; by rewrite length_alter | done |].
  exists []. by rewrite app_nil_r.
Qed.

Lemma quiet_push_file fe s : quiet s (set_fileHeap (λ h, h ++ [fe]) s).
Proof.
  split_and!; [simpl; rewrite length_app; lia | done |].
  exists []. by rewrite app_nil_r.
Qed.

Lemma quiet_emit e s : quiet s (emit e s).
Proof. split_and!; [done | done |]. by exists [Emit e]. Qed.

Lemma quiet_message name limit s : quiet s (observe (Message name limit) s).
Proof. split_and!; [done | done |]. by exists [Message name limit]. Qed.

Lemma quiet_running t g s : quiet s (updAttempt t (with_running g) s).
Proof.
  split_and!; [done | |exists []; by rewrite app_nil_r].
  intros t'. unfold attemptView. simpl.
  destruct (decide (t = t')) as [-> | Hne].
  - rewrite list_lookup_alter_eq. by destruct (attempts s !! t').
  - by rewrite list_lookup_alter_ne.
Qed.

Lemma quiet_abortAll reqs s : quiet s (abortAll reqs s).
Proof.
  destruct (abortAll_frame reqs s) as (_ & Hf & _ & _ & Ha & Ht).
  split_and!; [by rewrite Hf | intros; unfold attemptView; by rewrite Ha |].
  exists []. by rewrite Ht, app_nil_r.
Qed.

Lemma quiet_updateFileProgress f s : quiet s (updateFileProgress f s).
Proof.
  unfold updateFileProgress.
  apply quiet_then; [apply quiet_emit | apply quiet_updFile].
Qed.

Lemma quiet_cancelUpload f s : quiet s (cancelUpload f s).
Proof.
  unfold cancelUpload. repeat case_match; try apply quiet_refl.
  - apply quiet_then; [apply quiet_updFile |].
    apply quiet_then; [apply quiet_set_activeRequests | apply quiet_abortAll].
  - apply quiet_updFile.
Qed.

Lemma quiet_removeFile index s : quiet s (removeFile index s).
Proof.
  unfold removeFile. repeat case_match;
    first [apply quiet_refl | apply quiet_set_fileList | idtac].
  apply quiet_then; [apply quiet_set_fileList | apply quiet_cancelUpload].
Qed.

Lemma quiet_xhr_settle x xr s : quiet s (xhr_settle x xr s).
Proof.
  unfold xhr_settle, deregister. repeat case_match; simplify_eq;
    try apply quiet_set_xhrs.
  apply quiet_then; [apply quiet_running |].
  apply quiet_then; [apply quiet_set_activeRequests | apply quiet_set_xhrs].
Qed.

Lemma quiet_xhr_onprogress x lc pct s : quiet s (xhr_onprogress x lc pct s).
Proof.
  unfold xhr_onprogress. repeat case_match; try apply quiet_refl.
  apply quiet_then; [apply quiet_updateFileProgress | apply quiet_updChunk].
Qed.

Lemma quiet_xhr_onload x status s : quiet s (xhr_onload x status s).
Proof.
  unfold xhr_onload. repeat case_match; try apply quiet_refl;
    (apply quiet_then; [apply quiet_xhr_settle |]);
    (apply quiet_then; [apply quiet_updateFileProgress | apply quiet_updChunk]).
Qed.

Lemma quiet_xhr_onerror x s : quiet s (xhr_onerror x s).
Proof.
  unfold xhr_onerror. repeat case_match; try apply quiet_refl.
  apply quiet_then; [apply quiet_xhr_settle |].
  apply quiet_then; [apply quiet_updateFileProgress | apply quiet_updChunk].
Qed.

Lemma quiet_addFile props s file : quiet s (addFile props s file).
Proof.
  unfold addFile. case_decide; [apply quiet_message |].
  apply quiet_then; [apply quiet_set_fileList | apply quiet_push_file].
Qed.

(** ** Steps of an attempt *)

Lemma attemptView_with_phase (t t' : nat) (ph : Phase) (s : State) :
  attemptView (updAttempt t (with_phase ph) s) t'
  = if decide (t = t') then (λ v, (v.1, ph)) <$> attemptView s t'
    else attemptView s t'.
Proof.
  unfold attemptView. simpl. case_decide as Ht.
  - subst. rewrite list_lookup_alter_eq. by destruct (attempts s !! t').
  - by rewrite list_lookup_alter_ne.
Qed.

Lemma step_quiet (b : bool) (s s' : State) : quiet s s' → step b s s'.
Proof.
  intros (Hl & Hv & added & Ht & Hc). split; [done |].
  exists added. split; [done |]. intros t. rewrite Hv, Hc.
  destruct (attemptView s t) as [[f ph]|]; simpl; [|done].
  split; [done | by left].
Qed.

Lemma step_advance (b : bool) (s s' : State) (t f : nat) (ph ph' : Phase)
    (added : list Obs) :
  attemptView s t = Some (f, ph) →
  attemptView s' t = Some (f, ph') →
  (∀ t', t' ≠ t → attemptView s' t' = attemptView s t') →
  (length (fileHeap s) ≤ length (fileHeap s'))%nat →
  trace s' = trace s ++ added →
  (∀ t', t' ≠ t → callsOf t' added = []) →
  proto b ph (callsOf t added) ph' →
  step b s s'.
Proof.
  intros Hv Hv' Hother Hl Ht Hc Hp. split; [done |].
  exists added. split; [done |]. intros t'.
  destruct (decide (t' = t)) as [-> | Hne].
  - rewrite Hv, Hv'. by split.
  - rewrite Hother, Hc by done.
    destruct (attemptView s t') as [[f' ph'']|]; simpl; [|done].
    split; [done | by left].
Qed.

Lemma step_uploadChunks (b : bool) props (f : nat) (s : State) :
  (f < length (fileHeap s))%nat → step b s (uploadChunks props f s).
Proof.
  intros Hf. unfold uploadChunks, createUploadTask. simpl.
  destruct (lookup_lt_is_Some_2 _ _ Hf) as [fe Hfe]. rewrite Hfe.
  split; [done |]. eexists. split; [done |]. intros t.
  unfold attemptView. simpl.
  destruct (lt_eq_lt_dec t (length (attempts s))) as [[Hlt | ->] | Hgt].
  - rewrite lookup_app_l by done.
    destruct (lookup_lt_is_Some_2 _ _ Hlt) as [a ->]. simpl.
    rewrite decide_False by lia. split; [done | by left].
  - rewrite (lookup_ge_None_2 (attempts s)) by lia.
    rewrite list_lookup_middle by done. simpl.
    rewrite decide_True by done. eauto.
  - rewrite !lookup_ge_None_2; [| rewrite length_app; simpl; lia | lia].
    simpl. by rewrite decide_False by lia.
Qed.

Lemma uploadChunk_effect (t f c : nat) (s : State) :
  let s' := uploadChunk t f c s in
  fileHeap s' = fileHeap s
  ∧ (∀ t', attemptView s' t' = attemptView s t')
  ∧ ∃ added, trace s' = trace s ++ added
      ∧ (∀ t', t' ≠ t → callsOf t' added = [])
      ∧ Forall (λ c, is_chunk_call c = true) (callsOf t added).
Proof.
  unfold uploadChunk. simpl. repeat case_match; simpl.
  - split_and!; [done | done |]. eexists. split; [done |]. split.
    + intros t' Hne. simpl. by rewrite decide_False.
    + simpl. rewrite decide_True by done. by constructor.
  - destruct (quiet_running t (λ n, n - 1)
                (updChunk c (chunk_with_status uploading) s))
      as (_ & Hv & _).
    split_and!; [done | apply Hv |]. exists []. by rewrite app_nil_r.
  - split_and!; [done | done |]. exists []. by rewrite app_nil_r.
  - split_and!; [done | done |]. exists []. by rewrite app_nil_r.
Qed.

Lemma dispatch_effect (t f c : nat) (s : State) :
  let s' := dispatch t f c s in
  fileHeap s' = fileHeap s
  ∧ (∀ t', attemptView s' t' = attemptView s t')
  ∧ ∃ added, trace s' = trace s ++ added
      ∧ (∀ t', t' ≠ t → callsOf t' added = [])
      ∧ Forall (λ c, is_chunk_call c = true) (callsOf t added).
Proof.
  assert (Hid : fileHeap s = fileHeap s
                ∧ (∀ t', attemptView s t' = attemptView s t')
                ∧ ∃ added, trace s = trace s ++ added
                    ∧ (∀ t', t' ≠ t → callsOf t' added = [])
                    ∧ Forall (λ c, is_chunk_call c = true) (callsOf t added)).
  { split_and!; [done | done |]. exists []. by rewrite app_nil_r. }
  unfold dispatch. repeat case_match; try exact Hid.
  all: destruct (uploadChunk_effect t f c
                   (updAttempt t (with_running (λ n, n + 1)) s))
         as (Hf & Hv & added & Ht & Hc);
       destruct (quiet_running t (λ n, n + 1) s) as (_ & Hv' & _);
       split_and!; [by rewrite Hf | intros; by rewrite Hv, Hv' | by exists added].
Qed.

Lemma dispatchLoop_effect props (t f : nat) (pending : list nat) (s : State)
    (fv : nat) (ph : Phase) :
  attemptView s t = Some (fv, ph) →
  let s' := dispatchLoop props t f pending s in
  fileHeap s' = fileHeap s
  ∧ (∃ ph', attemptView s' t = Some (fv, ph')
            ∧ ((∃ p, ph' = SlotWait p) ∨ ph' = JoinPolling))
  ∧ (∀ t', t' ≠ t → attemptView s' t' = attemptView s t')
  ∧ ∃ added, trace s' = trace s ++ added
      ∧ (∀ t', t' ≠ t → callsOf t' added = [])
      ∧ Forall (λ c, is_chunk_call c = true) (callsOf t added).
Proof.
  revert s ph. induction pending as [|c rest IH]; intros s ph Hv; simpl.
  - unfold checkAllChunksUploaded. split_and!; [done | | |].
    + exists JoinPolling. rewrite attemptView_with_phase, decide_True by done.
      rewrite Hv. eauto.
    + intros t' Hne. by rewrite attemptView_with_phase, decide_False.
    + exists []. by rewrite app_nil_r.
  - case_decide.
    + split_and!; [done | | |].
      * eexists. rewrite attemptView_with_phase, decide_True by done.
        rewrite Hv. eauto.
      * intros t' Hne. by rewrite attemptView_with_phase, decide_False.
      * exists []. by rewrite app_nil_r.
    + destruct (dispatch_effect t f c s) as (Hf & Hv1 & a1 & Ht1 & Hc1 & Hk1).
      destruct (IH (dispatch t f c s) ph) as (Hf' & Hv2 & Ho2 & a2 & Ht2 & Hc2 & Hk2).
      { by rewrite Hv1. }
      split_and!; [by rewrite Hf', Hf | done | |].
      * intros t' Hne. by rewrite Ho2, Hv1.
      * exists (a1 ++ a2). split_and!.
        -- by rewrite Ht2, Ht1, <-app_assoc.
        -- intros t' Hne. by rewrite callsOf_app, Hc1, Hc2.
        -- rewrite callsOf_app. by apply Forall_app.
Qed.

Lemma dispatchLoop_fileHeap props (t f : nat) (pending : list nat) (s : State) :
  fileHeap (dispatchLoop props t f pending s) = fileHeap s.
Proof.
  revert s. induction pending as [|c rest IH]; intros s; simpl; [done |].
  case_decide; [done |]. rewrite IH.
  by destruct (dispatch_effect t f c s) as [-> _].
Qed.

Lemma step_set_phase (b : bool) (s x : State) (t f : nat) (ph ph' : Phase)
    (added : list Obs) :
  attemptView s t = Some (f, ph) →
  (∀ t', attemptView x t' = attemptView s t') →
  (length (fileHeap s) ≤ length (fileHeap x))%nat →
  trace x = trace s ++ added →
  (∀ t', t' ≠ t → callsOf t' added = []) →
  proto b ph (callsOf t added) ph' →
  step b s (updAttempt t (with_phase ph') x).
Proof.
  intros Hv Hvx Hl Ht Hc Hp.
  apply (step_advance b s _ t f ph ph' added); try done.
  - by rewrite attemptView_with_phase, decide_True, Hvx, Hv.
  - intros t' Hne. by rewrite attemptView_with_phase, decide_False, Hvx.
Qed.

Lemma step_finish (b : bool) (s x : State) (t f : nat) (ph : Phase) :
  quiet s x → attemptView s t = Some (f, ph) → ph ≠ Finished →
  step b s (updAttempt t (with_phase Finished) x).
Proof.
  intros (Hl & Hv & added & Ht & Hc) Hview Hph.
  apply (step_set_phase b s x t f ph Finished added); try done.
  rewrite Hc. by right; right; right.
Qed.

Lemma step_uploadChunks_catch (b : bool) (t f fv : nat) (ph : Phase)
    (err : UploadError) (s x : State) :
  quiet s x → attemptView s t = Some (fv, ph) → ph ≠ Finished →
  step b s (uploadChunks_catch t f err x).
Proof.
  intros Hq Hv Hph. unfold uploadChunks_catch.
  apply (step_finish b s _ t fv ph); [| done | done].
  apply quiet_then; [apply quiet_emit |].
  apply quiet_then; [apply quiet_updFile | done].
Qed.

Lemma attemptView_lookup (s : State) (t : nat) (a : Attempt) :
  attempts s !! t = Some a →
  attemptView s t = Some (attempt_file a, attempt_phase a).
Proof. unfold attemptView. by intros ->. Qed.

Lemma step_refl (b : bool) (s : State) : step b s s.
Proof. apply step_quiet, quiet_refl. Qed.

Lemma step_uploadChunks_resume (b : bool) props t o s :
  step b s (uploadChunks_resume props t o s).
Proof.
  unfold uploadChunks_resume.
  destruct (attempts s !! t) as [a|] eqn:Ha; [|apply step_refl].
  apply attemptView_lookup in Ha.
  destruct (attempt_phase a) eqn:Hph; try apply step_refl.
  destruct (createUploadTask_result o) as [err|r].
  - eapply step_uploadChunks_catch; [apply quiet_refl | done | done].
  - set (s1 := updFile _ _ s).
    destruct (quiet_updFile (attempt_file a) (with_uploadId (upload_id r)) s)
      as (Hl & Hv & _). fold s1 in Hl, Hv.
    destruct (dispatchLoop_effect props t (attempt_file a)
                (fileChunks s1 (attempt_file a)) s1
                (attempt_file a) CreatePending)
      as (Hf & (ph' & Hv' & Hph') & Ho & added & Ht & Hc & Hk).
    { by rewrite Hv. }
    apply (step_advance b s _ t (attempt_file a) CreatePending ph' added);
      [done | done | | by rewrite Hf | done | done |].
    + intros t' Hne. by rewrite Ho, Hv.
    + right; left. eauto.
Qed.

Lemma step_slotTimer (b : bool) props t s : step b s (slotTimer props t s).
Proof.
  unfold slotTimer.
  destruct (attempts s !! t) as [a|] eqn:Ha; [|apply step_refl].
  apply attemptView_lookup in Ha.
  destruct (attempt_phase a) as [|[|c rest]| | |] eqn:Hph;
    try apply step_refl.
  case_decide; [|apply step_refl].
  destruct (dispatch_effect t (attempt_file a) c s)
    as (Hf & Hv1 & a1 & Ht1 & Hc1 & Hk1).
  destruct (dispatchLoop_effect props t (attempt_file a) rest
              (dispatch t (attempt_file a) c s)
              (attempt_file a) (SlotWait (c :: rest)))
    as (Hf' & (ph' & Hv' & Hph') & Ho & a2 & Ht2 & Hc2 & Hk2).
  { by rewrite Hv1. }
  apply (step_advance b s _ t (attempt_file a) (SlotWait (c :: rest)) ph'
           (a1 ++ a2)); [done | done | | | | |].
  - intros t' Hne. by rewrite Ho, Hv1.
  - by rewrite Hf', Hf.
  - by rewrite Ht2, Ht1, <-app_assoc.
  - intros t' Hne. by rewrite callsOf_app, Hc1, Hc2.
  - right; left. split_and!; [eauto | done |].
    rewrite callsOf_app. by apply Forall_app.
Qed.

Lemma step_mergeChunks props (t f fv : nat) (s : State) :
  attemptView s t = Some (fv, JoinPolling) →
  step true s (mergeChunks props t f s).
Proof.
  intros Hv. unfold mergeChunks. destruct (fileHeap s !! f) as [fe|].
  - eapply (step_set_phase true s _ t fv JoinPolling MergePending); try done.
    + intros t' Hne. simpl. by rewrite decide_False.
    + simpl. rewrite decide_True by done.
      right; right; left. split_and!; [done | done | done |]. by constructor.
  - eapply (step_set_phase true s s t fv JoinPolling MergePending []); try done.
    + by rewrite app_nil_r.
    + right; right; left. split_and!; [done | done | done |]. by constructor.
Qed.

Lemma step_joinTimer props t s : step true s (joinTimer props t s).
Proof.
  unfold joinTimer.
  destruct (attempts s !! t) as [a|] eqn:Ha; [|apply step_refl].
  apply attemptView_lookup in Ha.
  destruct (attempt_phase a) eqn:Hph; try apply step_refl.
  destruct (allUploaded s (attempt_file a)).
  - by eapply step_mergeChunks.
  - destruct (hasError s (attempt_file a)); [|apply step_refl].
    eapply step_uploadChunks_catch; [| done | done].
    apply quiet_then; [apply quiet_emit | apply quiet_updFile].
Qed.

Lemma step_mergeChunks_resume (b : bool) t o s :
  step b s (mergeChunks_resume t o s).
Proof.
  unfold mergeChunks_resume.
  destruct (attempts s !! t) as [a|] eqn:Ha; [|apply step_refl].
  apply attemptView_lookup in Ha.
  destruct (attempt_phase a) eqn:Hph; try apply step_refl.
  destruct (mergeChunks_result o) as [err|r].
  - eapply step_uploadChunks_catch; [| done | done].
    apply quiet_then; [apply quiet_emit | apply quiet_updFile].
  - eapply step_finish; [| done | done].
    case_match.
    + apply quiet_then; [apply quiet_emit |].
      apply quiet_then; [apply quiet_emit | apply quiet_updFile].
    + apply quiet_then; [apply quiet_emit | apply quiet_updFile].
Qed.

(** ** Every handler is a sequence of steps *)

Lemma steps_foldl {A} (b : bool) (op : State → A → State) (l : list A)
    (s : State) :
  (∀ s x, rtc (step b) s (op s x)) → rtc (step b) s (foldl op s l).
Proof.
  intros Hop. revert s. induction l as [|x l IH]; intros s; simpl.
  - done.
  - etrans; [apply Hop | apply IH].
Qed.

Lemma steps_quiet (b : bool) (s s' : State) : quiet s s' → rtc (step b) s s'.
Proof. intros. by apply rtc_once, step_quiet. Qed.

Lemma steps_uploadFile (b : bool) props f s :
  rtc (step b) s (uploadFile props f s).
Proof.
  unfold uploadFile. destruct (fileHeap s !! f) as [fe|] eqn:Hf; [|done].
  eapply rtc_r; [apply steps_quiet | apply step_uploadChunks].
  - apply quiet_then; [apply quiet_set_activeRequests |].
    apply quiet_then; [apply quiet_updFile | apply quiet_set_chunkHeap].
  - simpl. rewrite length_alter. by eapply lookup_lt_Some.
Qed.

Lemma steps_startUpload (b : bool) props s :
  rtc (step b) s (startUpload props s).
Proof.
  unfold startUpload. apply steps_foldl. intros s' f.
  repeat case_match; first [done | apply steps_uploadFile].
Qed.

Lemma steps_retryUpload (b : bool) props f s :
  rtc (step b) s (retryUpload props f s).
Proof.
  unfold retryUpload. etrans; [|apply steps_uploadFile].
  apply steps_quiet.
  apply quiet_then; [apply quiet_updFile |].
  apply quiet_then; [apply quiet_set_chunkHeap | apply quiet_updFile].
Qed.

Lemma steps_validateAndAddFiles (b : bool) props files s :
  rtc (step b) s (validateAndAddFiles props files s).
Proof.
  unfold validateAndAddFiles.
  assert (Hq : rtc (step b) s
                 (emit (file_change (fileList (foldl (addFile props) s files)))
                    (foldl (addFile props) s files))).
  { etrans; [| apply steps_quiet, quiet_emit].
    apply steps_foldl. intros. apply steps_quiet, quiet_addFile. }
  case_match; [|done]. etrans; [exact Hq | apply steps_startUpload].
Qed.

Lemma steps_handle props e s :
  rtc (step (is_join_timer e)) s (handle props e s).
Proof.
  destruct e; simpl.
  - unfold handleFileChange. destruct files; [done |].
    apply steps_validateAndAddFiles.
  - apply steps_validateAndAddFiles.
  - case_decide; [apply steps_quiet, quiet_cancelUpload | done].
  - case_decide; [apply steps_retryUpload | done].
  - repeat case_match; first [done | apply steps_quiet, quiet_removeFile].
  - apply steps_startUpload.
  - apply steps_quiet, quiet_set_fileList.
  - apply rtc_once, step_uploadChunks_resume.
  - apply rtc_once, step_slotTimer.
  - case_decide; [apply steps_quiet, quiet_xhr_onprogress | done].
  - case_decide; [apply steps_quiet, quiet_xhr_onload | done].
  - case_decide; [apply steps_quiet, quiet_xhr_onerror | done].
  - apply rtc_once, step_joinTimer.
  - apply rtc_once, step_mergeChunks_resume.
Qed.

Lemma proto_weaken (b : bool) ph cs ph' :
  proto b ph cs ph' → proto true ph cs ph'.
Proof.
  intros [H | [H | [(_ & H) | H]]]; [by left | by right; left | | by do 3 right].
  right; right; left. by split.
Qed.

Lemma step_weaken (b : bool) (s s' : State) : step b s s' → step true s s'.
Proof.
  intros (Hl & added & Ht & Htr). split; [done |]. exists added.
  split; [done |]. intros t. specialize (Htr t).
  destruct (attemptView s t) as [[f ph]|], (attemptView s' t) as [[f' ph']|];
    simpl in *; try done.
  destruct Htr. eauto using proto_weaken.
Qed.

Lemma steps_weaken (b : bool) (s s' : State) :
  rtc (step b) s s' → rtc (step true) s s'.
Proof. induction 1; [done |]. eapply rtc_l; eauto using step_weaken. Qed.

Lemma steps_run props events s : rtc (step true) s (run props events s).
Proof.
  unfold run. apply steps_foldl. intros.
  eapply steps_weaken, steps_handle.
Qed.

(** ** The invariant *)

Lemma inv_init : inv init.
Proof. intros t. unfold attemptView. simpl. done. Qed.

Lemma calls_shape_proto (b : bool) (ph ph' : Phase) (old cs : list Call) :
  calls_shape ph old → proto b ph cs ph' → calls_shape ph' (old ++ cs).
Proof.
  intros (c & rest & -> & Hc & Hrest) Hp. exists c, (rest ++ cs).
  split; [done |]. split; [done |].
  destruct Hp as [[-> ->] | [(Hd & Hpoll & Hcs) | [(_ & -> & -> & _) | (_ & -> & ->)]]].
  - rewrite app_nil_r. done.
  - assert (Forall (λ c, is_chunk_call c = true) rest) as Hr.
    { destruct Hd as [-> | [p ->]]; [by subst |done]. }
    destruct Hpoll as [[p ->] | ->]; by apply Forall_app.
  - done.
  - done.
Qed.

Lemma inv_step (b : bool) (s s' : State) : step b s s' → inv s → inv s'.
Proof.
  intros (Hl & added & Ht & Htr) Hinv t.
  specialize (Htr t). specialize (Hinv t).
  rewrite Ht, callsOf_app.
  destruct (attemptView s t) as [[f ph]|], (attemptView s' t) as [[f' ph']|];
    simpl in Htr; try done.
  - destruct Htr as [-> Hp], Hinv as [Hf Hs].
    split; [lia | by eapply calls_shape_proto].
  - destruct Htr as (-> & Hf & c & -> & Hc). rewrite Hinv. simpl.
    split; [done |]. by exists c, [].
  - by rewrite Hinv, Htr.
Qed.

Lemma inv_steps (b : bool) (s s' : State) :
  rtc (step b) s s' → inv s → inv s'.
Proof. induction 1; eauto using inv_step. Qed.

Lemma inv_reachable props s : reachable props s → inv s.
Proof.
  intros [events ->]. eapply inv_steps; [apply steps_run | apply inv_init].
Qed.

Lemma frozen_step (b : bool) (t : nat) (cs : list Call) (s s' : State) :
  step b s s' → frozen t cs s → frozen t cs s'.
Proof.
  intros (Hl & added & Ht & Htr) [[f Hv] Hcs].
  specialize (Htr t). rewrite Hv in Htr.
  destruct (attemptView s' t) as [[f' ph']|] eqn:Hv'; simpl in Htr; [|done].
  destruct Htr as [-> Hp].
  destruct Hp as [[Hc ->] | [(Hd & _) | [(_ & ? & _) | (? & _)]]];
    [| by destruct Hd as [|[]] | done | done].
  split; [by exists f |]. by rewrite Ht, callsOf_app, Hc, app_nil_r.
Qed.

Lemma frozen_steps (b : bool) (t : nat) (cs : list Call) (s s' : State) :
  rtc (step b) s s' → frozen t cs s → frozen t cs s'.
Proof. induction 1; eauto using frozen_step. Qed.

Lemma trace_steps (b : bool) (s s' : State) :
  rtc (step b) s s' → ∃ added, trace s' = trace s ++ added.
Proof.
  induction 1 as [s | s1 s2 s3 (_ & a & Ha & _) _ [a' Ha']].
  - exists []. by rewrite app_nil_r.
  - exists (a ++ a'). by rewrite Ha', Ha, <-app_assoc.
Qed.

(** A call of an attempt that does not exist yet is not in the trace. *)
Lemma inv_fresh (s : State) (t : nat) (c : Call) :
  inv s → attempts s !! t = None → Net t c ∉ trace s.
Proof.
  intros Hinv Hnone Hin. specialize (Hinv t). unfold attemptView in Hinv.
  rewrite Hnone in Hinv. simpl in Hinv.
  apply elem_of_callsOf in Hin. rewrite Hinv in Hin. by apply elem_of_nil in Hin.
Qed.

Lemma steps_no_complete (s s' : State) :
  rtc (step false) s s' →
  ∃ added, trace s' = trace s ++ added
    ∧ ∀ t c, Net t c ∈ added → is_complete_call c = false.
Proof.
  induction 1 as [s | s1 s2 s3 (_ & a & Ha & Htr) _ (a' & Ha' & Hnc)].
  - exists []. split; [by rewrite app_nil_r |]. intros t c Hin.
    by apply elem_of_nil in Hin.
  - exists (a ++ a'). split; [by rewrite Ha', Ha, <-app_assoc |].
    intros t c [Hin | Hin]%elem_of_app; [| by eapply Hnc].
    apply elem_of_callsOf in Hin. specialize (Htr t).
    destruct (attemptView s1 t) as [[f ph]|], (attemptView s2 t) as [[f' ph']|];
      simpl in Htr; try done.
    + destruct Htr as [_ [[Hc _] | [(_ & _ & Hc) | [(? & _) | (_ & _ & Hc)]]]];
        try done.
      * rewrite Hc in Hin. by apply elem_of_nil in Hin.
      * rewrite Forall_forall in Hc. apply Hc in Hin. by destruct c.
      * rewrite Hc in Hin. by apply elem_of_nil in Hin.
    + destruct Htr as (_ & _ & c' & Hc & Hcr). rewrite Hc in Hin.
      apply list_elem_of_singleton in Hin as ->. by destruct c'.
    + rewrite Htr in Hin. by apply elem_of_nil in Hin.
Qed.

(** Once an attempt is finished it makes no further call. *)
Lemma finished_no_more_calls props (t : nat) (cs : list Call) (s : State)
    (later : list Event) (c : Call) :
  frozen t cs s → Net t c ∈ trace (run props later s) → c ∈ cs.
Proof.
  intros Hfr Hin.
  destruct (frozen_steps true t cs s (run props later s)
              (steps_run props later s) Hfr) as [_ <-].
  by apply elem_of_callsOf.
Qed.

Lemma allUploaded_Forall (s : State) (f : nat) :
  allUploaded s f = true
  ↔ Forall (λ c, chunkStatus s c = Some success) (fileChunks s f).
Proof.
  unfold allUploaded. induction (fileChunks s f) as [|c l IH]; simpl.
  - split; [by constructor | done].
  - rewrite andb_true_iff, bool_decide_eq_true, IH, Forall_cons. done.
Qed.

Lemma hasError_true (s : State) (f c : nat) :
  c ∈ fileChunks s f → chunkStatus s c = Some error →
  hasError s f = true ∧ allUploaded s f = false.
Proof.
  intros Hin Hc. unfold hasError, allUploaded. split.
  - apply existsb_exists. exists c. split; [by apply list_elem_of_In |].
    by apply bool_decide_eq_true.
  - apply not_true_iff_false. intros Hall.
    rewrite forallb_forall in Hall. apply list_elem_of_In, Hall in Hin.
    apply bool_decide_eq_true in Hin. congruence.
Qed.

(** ** Starting an upload *)

Lemma uploadFile_spec props (f : nat) (s : State) (fe : FileEntry) :
  fileHeap s !! f = Some fe →
  let plan := planChunks (file_size fe) (chunkBytes props) in
  let refs := seq (length (chunkHeap s)) (length plan) in
  let identifier := calculateFileIdentifier (file_raw fe) in
  let t := length (attempts s) in
  let s' := uploadFile props f s in
  fileList s' = fileList s
  ∧ fileHeap s' !! f
    = Some (with_identifier identifier
              (with_chunks refs (with_status uploading fe)))
  ∧ (∀ f', f' ≠ f → fileHeap s' !! f' = fileHeap s !! f')
  ∧ chunkHeap s' = chunkHeap s ++ plan
  ∧ activeRequests s' = <[identifier := []]> (activeRequests s)
  ∧ xhrs s' = xhrs s
  ∧ attempts s' = attempts s ++ [mkAttempt f 0 CreatePending]
  ∧ trace s'
    = trace s ++ [Net t (CreateCall (file_name fe) (file_size fe)
                           (file_type fe) (chunkBytes props) (length plan)
                           (data props))].
Proof.
  intros Hfe plan refs identifier t s'. subst s'.
  unfold uploadFile. rewrite Hfe. unfold uploadChunks, createUploadTask.
  simpl. rewrite list_lookup_alter_eq, Hfe. simpl.
  split_and!; try done.
  - by rewrite list_lookup_alter_eq, Hfe.
  - intros f' Hne. by rewrite list_lookup_alter_ne.
  - by rewrite length_seq.
Qed.

Lemma uploadFile_plan props (f : nat) (s : State) (fe : FileEntry) (i : nat) :
  fileHeap s !! f = Some fe →
  let s' := uploadFile props f s in
  fileChunks s' f !! i ≫= (λ c, chunkHeap s' !! c)
  = planChunks (file_size fe) (chunkBytes props) !! i.
Proof.
  intros Hfe s'.
  destruct (uploadFile_spec props f s fe Hfe) as (_ & Hf & _ & Hc & _).
  fold s' in Hf, Hc. unfold fileChunks. rewrite Hf, Hc. simpl.
  set (plan := planChunks _ _).
  destruct (decide (i < length plan)%nat) as [Hlt | Hge].
  - rewrite lookup_seq_lt by done. simpl.
    rewrite lookup_app_r by lia. f_equal. lia.
  - rewrite lookup_seq_ge by lia. simpl.
    symmetry. apply lookup_ge_None_2. lia.
Qed.

(** C1.  For a file of size [s > 0] and a chunk size of [c > 0] bytes the
    plan has [n = ceil(s/c)] chunks (the [n] with [(n-1)*c < s <= n*c]);
    chunk [i] carries index [i] and the half-open range
    [[i*c, min((i+1)*c, s))]; the ranges are non-empty, start at 0, each
    ends where the next one starts and the last ends at [s], so they cover
    [[0, s)] without gap or overlap; every chunk but the last has length
    exactly [c].  This plan, for the chunk size of the props in bytes, is
    what [uploadFile] stores as the chunks of the file. *)
Theorem C1_chunk_plan_covers (s c : Z) :
  0 < s → 0 < c →
  let plan := planChunks s c in
  let n := Z.of_nat (length plan) in
  n = Math_ceil_div s c
  ∧ (n - 1) * c < s ≤ n * c
  ∧ (∀ (i : nat) ch, plan !! i = Some ch →
       chunk_index ch = i
       ∧ chunk_start ch = Z.of_nat i * c
       ∧ chunk_end ch = Z.min ((Z.of_nat i + 1) * c) s
       ∧ 0 ≤ chunk_start ch ∧ chunk_start ch < chunk_end ch
       ∧ chunk_end ch ≤ s)
  ∧ (∀ ch, plan !! 0%nat = Some ch → chunk_start ch = 0)
  ∧ (∀ (i : nat) ch ch', plan !! i = Some ch → plan !! S i = Some ch' →
       chunk_end ch = chunk_start ch' ∧ chunk_end ch - chunk_start ch = c)
  ∧ (∀ ch, last plan = Some ch → chunk_end ch = s)
  ∧ (∀ props st f fe i,
       fileHeap st !! f = Some fe → file_size fe = s → chunkBytes props = c →
       fileChunks (uploadFile props f st) f !! i
         ≫= (λ r, chunkHeap (uploadFile props f st) !! r)
       = plan !! i).
Proof.
  intros Hs Hc plan n.
  pose proof (Math_ceil_div_bounds s c Hc) as Hb.
  pose proof (Math_ceil_div_pos s c Hs Hc) as Hpos.
  assert (Hn : n = Math_ceil_div s c).
  { subst n plan. rewrite planChunks_length. lia. }
  assert (Hget : ∀ (i : nat) ch, plan !! i = Some ch →
                 ch = planChunk s c i ∧ Z.of_nat i < n).
  { intros i ch Hi. pose proof (lookup_lt_Some _ _ _ Hi) as Hlt.
    subst plan. rewrite planChunks_lookup in Hi by done.
    split; [congruence | lia]. }
  split_and!; [done | lia | lia | | | | |].
  - intros i ch Hi. destruct (Hget i ch Hi) as [-> Hlt]. simpl.
    split_and!; [done | done | done | lia | nia | lia].
  - intros ch Hi. by destruct (Hget _ _ Hi) as [-> _].
  - intros i ch ch' Hi Hi'.
    destruct (Hget _ _ Hi) as [-> _], (Hget _ _ Hi') as [-> Hlt].
    simpl. split; nia.
  - intros ch Hl. rewrite last_lookup in Hl.
    destruct (Hget _ _ Hl) as [-> _]. simpl.
    assert (Z.of_nat (Init.Nat.pred (length plan)) = n - 1) by lia.
    nia.
  - intros props st f fe i Hfe <- <-. by apply uploadFile_plan.
Qed.

Lemma planChunks_waiting (size c : Z) (ch : Chunk) :
  ch ∈ planChunks size c → chunk_status ch = waiting ∧ chunk_progress ch = 0.
Proof.
  unfold planChunks. intros (i & -> & _)%list_elem_of_fmap. done.
Qed.

Lemma app_split_notin {A} (pre post l1 l2 : list A) (x : A) :
  pre ++ x :: post = l1 ++ l2 → x ∉ l1 → ∃ pre', pre = l1 ++ pre'.
Proof.
  revert pre. induction l1 as [|y l1 IH]; intros pre Heq Hx; [by exists pre |].
  destruct pre as [|z pre]; simpl in Heq.
  - injection Heq as -> _. exfalso. apply Hx. by left.
  - injection Heq as -> Heq. destruct (IH pre Heq) as [pre' ->].
    + intros ?. apply Hx. by right.
    + by exists pre'.
Qed.

(** ** Who writes the status of a chunk *)

Lemma cancelUpload_chunkHeap (f : nat) (s : State) :
  chunkHeap (cancelUpload f s) = chunkHeap s.
Proof.
  unfold cancelUpload.
  destruct (fileHeap s !! f) as [fe|]; [|done].
  case_decide; [|done]. simpl.
  destruct (activeRequests s !! prop_key (file_identifier fe)) as [reqs|];
    [|done].
  simpl. by destruct (abortAll_frame reqs s) as (_ & _ & -> & _).
Qed.

Lemma xhr_settle_heaps x xr s :
  fileHeap (xhr_settle x xr s) = fileHeap s
  ∧ chunkHeap (xhr_settle x xr s) = chunkHeap s.
Proof. unfold xhr_settle, deregister. by repeat case_match; simplify_eq. Qed.

Lemma ks_refl (s : State) : keepsStatus s s.
Proof. by intros c st. Qed.

Lemma ks_trans (s1 s2 s3 : State) :
  keepsStatus s1 s2 → keepsStatus s2 s3 → keepsStatus s1 s3.
Proof. intros H1 H2 c st Hc. by apply H2, H1. Qed.

Lemma ks_frame (s s' : State) : chunkHeap s' = chunkHeap s → keepsStatus s s'.
Proof. intros Hh c st. unfold chunkStatus. by rewrite Hh. Qed.

Lemma ks_append (s s' : State) (more : list Chunk) :
  chunkHeap s' = chunkHeap s ++ more → keepsStatus s s'.
Proof.
  intros Hh c st. unfold chunkStatus. rewrite Hh. intros Hc.
  rewrite lookup_app_l; [done |].
  destruct (chunkHeap s !! c) eqn:E; [by eapply lookup_lt_Some | done].
Qed.

Lemma ks_foldl {A} (op : State → A → State) (l : list A) (s : State) :
  (∀ s x, keepsStatus s (op s x)) → keepsStatus s (foldl op s l).
Proof.
  intros Hop. revert s. induction l as [|x l IH]; intros s; simpl.
  - apply ks_refl.
  - eapply ks_trans; [apply Hop | apply IH].
Qed.

Lemma ks_uploadFile props f s : keepsStatus s (uploadFile props f s).
Proof.
  destruct (fileHeap s !! f) as [fe|] eqn:Hfe.
  - destruct (uploadFile_spec props f s fe Hfe) as (_ & _ & _ & Hc & _).
    by eapply ks_append.
  - unfold uploadFile. rewrite Hfe. apply ks_refl.
Qed.

Lemma ks_startUpload props s : keepsStatus s (startUpload props s).
Proof.
  unfold startUpload. apply ks_foldl. intros s' f.
  repeat case_match; first [apply ks_refl | apply ks_uploadFile].
Qed.

Lemma ks_addFile props s file : keepsStatus s (addFile props s file).
Proof. unfold addFile. case_decide; by apply ks_frame. Qed.

Lemma ks_validateAndAddFiles props files s :
  keepsStatus s (validateAndAddFiles props files s).
Proof.
  unfold validateAndAddFiles.
  assert (Hq : keepsStatus s
                 (emit (file_change (fileList (foldl (addFile props) s files)))
                    (foldl (addFile props) s files))).
  { eapply ks_trans; [| by apply ks_frame].
    apply ks_foldl. intros. apply ks_addFile. }
  case_match; [|done]. eapply ks_trans; [exact Hq | apply ks_startUpload].
Qed.

Lemma ks_retryUpload props f s : keepsStatus s (retryUpload props f s).
Proof.
  unfold retryUpload. eapply ks_trans; [|apply ks_uploadFile].
  by eapply ks_append.
Qed.

Lemma ks_removeFile index s : keepsStatus s (removeFile index s).
Proof.
  unfold removeFile. destruct (fileList s !! index); [|apply ks_refl].
  case_decide; apply ks_frame; [|done]. simpl. apply cancelUpload_chunkHeap.
Qed.

Lemma ks_joinTimer props t s : keepsStatus s (joinTimer props t s).
Proof.
  unfold joinTimer, mergeChunks, uploadChunks_catch.
  repeat case_match; by apply ks_frame.
Qed.

Lemma ks_mergeChunks_resume t o s : keepsStatus s (mergeChunks_resume t o s).
Proof.
  unfold mergeChunks_resume, uploadChunks_catch.
  repeat case_match; by apply ks_frame.
Qed.

Lemma chunkStatus_updChunk_ne (c c' : nat) g (s : State) :
  c' ≠ c → chunkStatus (updChunk c' g s) c = chunkStatus s c.
Proof. intros Hne. unfold chunkStatus. simpl. by rewrite list_lookup_alter_ne. Qed.

Lemma ks_updChunk (c : nat) (g : Chunk → Chunk) (s : State) :
  (∀ ch, chunk_status (g ch) = chunk_status ch) →
  keepsStatus s (updChunk c g s).
Proof.
  intros Hg c' st. destruct (decide (c = c')) as [-> | Hne].
  - unfold chunkStatus. simpl. rewrite list_lookup_alter_eq.
    destruct (chunkHeap s !! c'); simpl; [|done]. by rewrite Hg.
  - by rewrite chunkStatus_updChunk_ne.
Qed.

Lemma ks_xhr_onprogress x lc pct s : keepsStatus s (xhr_onprogress x lc pct s).
Proof.
  unfold xhr_onprogress.
  destruct (xhrs s !! x) as [xr|]; [|apply ks_refl].
  destruct lc; [|apply ks_refl].
  apply (ks_trans _ (updChunk (xhr_chunk xr) (chunk_with_progress pct) s));
    [by apply ks_updChunk | by apply ks_frame].
Qed.

Lemma uploadChunk_status_ne (t f c c' : nat) (s : State) :
  c' ≠ c → chunkStatus (uploadChunk t f c' s) c = chunkStatus s c.
Proof.
  intros Hne. unfold uploadChunk. rewrite <-(chunkStatus_updChunk_ne c c'
    (chunk_with_status uploading) s Hne).
  by repeat case_match.
Qed.

Lemma dispatch_status_ne (t f c c' : nat) (s : State) :
  c' ≠ c → chunkStatus (dispatch t f c' s) c = chunkStatus s c.
Proof.
  intros Hne. unfold dispatch. repeat case_match; try done.
  all: by rewrite uploadChunk_status_ne.
Qed.

Lemma dispatchLoop_status_notin props (t f c : nat) (pending : list nat)
    (s : State) :
  c ∉ pending →
  chunkStatus (dispatchLoop props t f pending s) c = chunkStatus s c.
Proof.
  revert s. induction pending as [|c' rest IH]; intros s Hnotin; simpl.
  - done.
  - apply not_elem_of_cons in Hnotin as [Hne Hrest]. case_decide; [done |].
    rewrite IH by done. by apply dispatch_status_ne.
Qed.

Lemma settle_status_ne (x : nat) (xr : Xhr) (g : Chunk → Chunk) (c : nat)
    (s : State) :
  xhr_chunk xr ≠ c →
  chunkStatus
    (xhr_settle x xr
       (updateFileProgress (xhr_file xr) (updChunk (xhr_chunk xr) g s))) c
  = chunkStatus s c.
Proof.
  intros Hne. unfold chunkStatus.
  destruct (xhr_settle_heaps x xr
              (updateFileProgress (xhr_file xr) (updChunk (xhr_chunk xr) g s)))
    as [_ ->].
  simpl. by rewrite list_lookup_alter_ne.
Qed.

(** A chunk in error stays in error, except when it is dispatched again or
    when another request for it settles. *)
Lemma error_persists props (e : Event) (s : State) (c : nat) :
  chunkStatus s c = Some error →
  chunkStatus (handle props e s) c = Some error
  ∨ (∃ t a o, e = CreateSettled t o ∧ attempts s !! t = Some a
              ∧ attempt_phase a = CreatePending
              ∧ c ∈ fileChunks s (attempt_file a))
  ∨ (∃ t a pending, e = SlotTimer t ∧ attempts s !! t = Some a
                    ∧ attempt_phase a = SlotWait pending ∧ c ∈ pending)
  ∨ (∃ x xr, (e = XhrError x ∨ ∃ status, e = XhrLoad x status)
             ∧ xhrs s !! x = Some xr ∧ xhr_state xr = Sent
             ∧ xhr_chunk xr = c).
Proof.
  intros Hc. destruct e; simpl.
  - left. unfold handleFileChange. destruct files; [done |].
    by apply ks_validateAndAddFiles.
  - left. by apply ks_validateAndAddFiles.
  - left. case_decide; [|done]. unfold chunkStatus.
    by rewrite cancelUpload_chunkHeap.
  - left. case_decide; [|done]. by apply ks_retryUpload.
  - left. repeat case_match; try done. by apply ks_removeFile.
  - left. by apply ks_startUpload.
  - by left.
  - unfold uploadChunks_resume.
    destruct (attempts s !! attempt) as [a|] eqn:Ha; [|by left].
    destruct (attempt_phase a) eqn:Hph; try by left.
    destruct (createUploadTask_result o) as [err|r]; [by left |].
    set (s1 := updFile (attempt_file a) (with_uploadId (upload_id r)) s).
    assert (Hch : fileChunks s1 (attempt_file a) = fileChunks s (attempt_file a)).
    { unfold fileChunks. simpl. rewrite list_lookup_alter_eq.
      by destruct (fileHeap s !! attempt_file a). }
    rewrite Hch.
    destruct (decide (c ∈ fileChunks s (attempt_file a))) as [Hin | Hnotin].
    + right; left. by exists attempt, a, o.
    + left. by rewrite dispatchLoop_status_notin.
  - unfold slotTimer.
    destruct (attempts s !! attempt) as [a|] eqn:Ha; [|by left].
    destruct (attempt_phase a) as [|[|c' rest]| | |] eqn:Hph; try by left.
    case_decide; [|by left].
    destruct (decide (c ∈ c' :: rest)) as [Hin | Hnotin].
    + right; right; left. by exists attempt, a, (c' :: rest).
    + left. apply not_elem_of_cons in Hnotin as [Hne Hrest].
      rewrite dispatchLoop_status_notin by done.
      by rewrite dispatch_status_ne.
  - left. case_decide; [|done]. by apply ks_xhr_onprogress.
  - case_decide as Hsent; [|by left]. unfold xhr_onload.
    destruct (xhrs s !! xhr) as [xr|] eqn:Hx; [|by left]. simpl in Hsent.
    destruct (decide (xhr_chunk xr = c)) as [Heq | Hne].
    + do 3 right. exists xhr, xr. split_and!; [right; eauto | done | | done].
      by injection Hsent.
    + left. destruct (xhr_status_ok status); by rewrite settle_status_ne.
  - case_decide as Hsent; [|by left]. unfold xhr_onerror.
    destruct (xhrs s !! xhr) as [xr|] eqn:Hx; [|by left]. simpl in Hsent.
    destruct (decide (xhr_chunk xr = c)) as [Heq | Hne].
    + do 3 right. exists xhr, xr. split_and!; [by left | done | | done].
      by injection Hsent.
    + left. by rewrite settle_status_ne.
  - left. by apply ks_joinTimer.
  - left. by apply ks_mergeChunks_resume.
Qed.

(** ** The join *)

(** X21.  In every reachable state: (1) a piece of code that issues a
    complete call is a tick of the join interval of the issuing attempt,
    run while the attempt is polling and every chunk in the chunk list the
    entry has at that tick is in state success; (2) when the join interval
    of a polling attempt ticks while some chunk of that list is in error,
    the entry gets status error, upload-error is emitted (by the join check
    and again by the [catch] of [uploadChunks]), the attempt is finished,
    and no complete call of that attempt occurs in any continuation of the
    run; (3) a chunk object in error stays in error under every event,
    except one that dispatches this chunk object (the answer of a create
    call or a slot timer of an attempt that has it pending) or settles a
    request in flight for it.  The chunk list is read at the tick: what
    became of the chunks the attempt itself sent is not part of this
    statement. *)
Theorem X21_complete_only_after_join props (events : list Event) :
  let s := run props events init in
  (∀ e t c added,
     trace (handle props e s) = trace s ++ added →
     Net t c ∈ added → is_complete_call c = true →
     e = JoinTimer t
     ∧ ∃ a, attempts s !! t = Some a ∧ attempt_phase a = JoinPolling
         ∧ Forall (λ ch, chunkStatus s ch = Some success)
             (fileChunks s (attempt_file a)))
  ∧ (∀ t a ch,
       attempts s !! t = Some a → attempt_phase a = JoinPolling →
       ch ∈ fileChunks s (attempt_file a) → chunkStatus s ch = Some error →
       let f := attempt_file a in
       let s' := handle props (JoinTimer t) s in
       fileStatus s' f = Some error
       ∧ trace s' = trace s ++ [Emit (upload_error f ChunksFailedError);
                                Emit (upload_error f ChunksFailedError)]
       ∧ attemptPhase s' t = Some Finished
       ∧ ∀ later c, Net t c ∈ trace (run props later s') →
                    is_complete_call c = false)
  ∧ (∀ e c,
       chunkStatus s c = Some error →
       chunkStatus (handle props e s) c = Some error
       ∨ (∃ t a o, e = CreateSettled t o ∧ attempts s !! t = Some a
                   ∧ attempt_phase a = CreatePending
                   ∧ c ∈ fileChunks s (attempt_file a))
       ∨ (∃ t a pending, e = SlotTimer t ∧ attempts s !! t = Some a
                         ∧ attempt_phase a = SlotWait pending ∧ c ∈ pending)
       ∨ (∃ x xr, (e = XhrError x ∨ ∃ status, e = XhrLoad x status)
                  ∧ xhrs s !! x = Some xr ∧ xhr_state xr = Sent
                  ∧ xhr_chunk xr = c)).
Proof.
  intros s. split_and!; [| | intros e c; apply error_persists].
  - intros e t c added Htr Hin Hc.
    destruct (is_join_timer e) eqn:He.
    + destruct e as [| | | | | | | | | | | |t0|]; try done. clear He.
      simpl in Htr. unfold joinTimer in Htr.
      destruct (attempts s !! t0) as [a|] eqn:Ha.
      2:{ apply (f_equal (drop (length (trace s)))) in Htr.
          rewrite drop_all, drop_app_length in Htr. subst.
          by apply elem_of_nil in Hin. }
      assert (Hnil : ∀ l, trace s ++ l = trace s ++ added →
                Forall (λ o, ∀ t c, o = Net t c → is_complete_call c = false) l →
                False).
      { intros l ->%app_inv_head Hl. rewrite Forall_forall in Hl.
        specialize (Hl _ Hin _ _ eq_refl). congruence. }
      destruct (attempt_phase a) eqn:Hph;
        try (exfalso; apply (Hnil []); [by rewrite app_nil_r | by constructor]).
      destruct (allUploaded s (attempt_file a)) eqn:Hall.
      * unfold mergeChunks in Htr.
        destruct (fileHeap s !! attempt_file a) as [fe|]; simpl in Htr.
        -- apply app_inv_head in Htr. subst added.
           apply list_elem_of_singleton in Hin. injection Hin as -> _.
           split; [done |]. exists a. split_and!; [done | done |].
           by apply allUploaded_Forall.
        -- exfalso; apply (Hnil []); [by rewrite app_nil_r | by constructor].
      * destruct (hasError s (attempt_file a)).
        -- exfalso. unfold uploadChunks_catch in Htr. simpl in Htr.
           rewrite <-app_assoc in Htr. eapply Hnil; [exact Htr |].
           repeat constructor; by intros ? ? [=].
        -- exfalso; apply (Hnil []); [by rewrite app_nil_r | by constructor].
    + pose proof (steps_handle props e s) as Hst. rewrite He in Hst.
      destruct (steps_no_complete _ _ Hst) as (added' & Htr' & Hnc).
      rewrite Htr in Htr'. apply app_inv_head in Htr'. subst added'.
      apply Hnc in Hin. congruence.
  - intros t a ch Ha Hph Hch Herr f s'.
    assert (Hinv : inv s) by (apply (inv_reachable props); by exists events).
    specialize (Hinv t). rewrite (attemptView_lookup _ _ _ Ha), Hph in Hinv.
    destruct Hinv as [Hf (c0 & rest & Hcalls & Hc0 & Hrest)].
    destruct (lookup_lt_is_Some_2 _ _ Hf) as [fe Hfe]. fold f in Hfe.
    destruct (hasError_true s f ch Hch Herr) as [He Hall].
    assert (Hs' : s' = uploadChunks_catch t f ChunksFailedError
                         (emit (upload_error f ChunksFailedError)
                            (updFile f (with_status error) s))).
    { subst s'. simpl. unfold joinTimer. rewrite Ha, Hph. fold f.
      by rewrite Hall, He. }
    assert (Hfr : frozen t (c0 :: rest) s').
    { rewrite Hs'. split.
      - exists f. unfold uploadChunks_catch.
        rewrite attemptView_with_phase, decide_True by done.
        unfold attemptView. simpl. by rewrite Ha.
      - unfold uploadChunks_catch. simpl. rewrite !callsOf_app. simpl.
        by rewrite !app_nil_r. }
    split_and!.
    + rewrite Hs'. unfold fileStatus, uploadChunks_catch. simpl.
      rewrite !list_lookup_alter_eq, Hfe. done.
    + rewrite Hs'. unfold uploadChunks_catch. simpl. by rewrite <-app_assoc.
    + rewrite Hs'. unfold attemptPhase, uploadChunks_catch. simpl.
      by rewrite list_lookup_alter_eq, Ha.
    + intros later c Hin.
      apply (finished_no_more_calls props t _ _ _ _ Hfr) in Hin.
      apply elem_of_cons in Hin as [-> | Hin]; [by destruct c0 |].
      rewrite Forall_forall in Hrest. apply Hrest in Hin. by destruct c.
Qed.


(** ** Failure of the create call *)

Lemma createUploadTask_result_failure (o : FetchOutcome CreateResponse) :
  (o = FetchRejected ∨ ∃ status json, o = FetchResponse status json
                                      ∧ response_ok status = false) →
  ∃ err, createUploadTask_result o = inl err.
Proof.
  intros [-> | (status & json & -> & Hok)]; simpl; [eauto |].
  rewrite Hok. eauto.
Qed.

(** C6.  In every reachable state, when the create call of an attempt
    fails (the fetch is rejected, or the response is not 2xx) the [catch] of
    [uploadChunks] runs: the file gets status error, upload-error is
    emitted and nothing else, the attempt is finished, and no chunk call of
    that attempt occurs in any continuation of the run. *)
Theorem C6_create_failure_skips_chunks props (events : list Event)
    (t : nat) (a : Attempt) (o : FetchOutcome CreateResponse) :
  let s := run props events init in
  attempts s !! t = Some a → attempt_phase a = CreatePending →
  (o = FetchRejected ∨ ∃ status json, o = FetchResponse status json
                                      ∧ response_ok status = false) →
  let f := attempt_file a in
  let s' := handle props (CreateSettled t o) s in
  ∃ err,
    fileStatus s' f = Some error
    ∧ trace s' = trace s ++ [Emit (upload_error f err)]
    ∧ attemptPhase s' t = Some Finished
    ∧ ∀ later c, Net t c ∈ trace (run props later s') →
                 is_chunk_call c = false.
Proof.
  intros s Ha Hph Ho f s'.
  destruct (createUploadTask_result_failure o Ho) as [err Herr]. exists err.
  assert (Hinv : inv s) by (apply (inv_reachable props); by exists events).
  specialize (Hinv t). rewrite (attemptView_lookup _ _ _ Ha), Hph in Hinv.
  destruct Hinv as [Hf (c0 & rest & Hcalls & Hc0 & ->)].
  destruct (lookup_lt_is_Some_2 _ _ Hf) as [fe Hfe]. fold f in Hfe.
  assert (Hs' : s' = uploadChunks_catch t f err s).
  { subst s'. simpl. unfold uploadChunks_resume. by rewrite Ha, Hph, Herr. }
  assert (Hfr : frozen t [c0] s').
  { rewrite Hs'. split.
    - exists f. unfold uploadChunks_catch.
      rewrite attemptView_with_phase, decide_True by done.
      unfold attemptView. simpl. by rewrite Ha.
    - unfold uploadChunks_catch. simpl. rewrite !callsOf_app. simpl.
      by rewrite !app_nil_r. }
  split_and!.
  - rewrite Hs'. unfold fileStatus, uploadChunks_catch. simpl.
    rewrite !list_lookup_alter_eq, Hfe. done.
  - by rewrite Hs'.
  - rewrite Hs'. unfold attemptPhase, uploadChunks_catch. simpl.
    by rewrite list_lookup_alter_eq, Ha.
  - intros later c Hin.
    apply (finished_no_more_calls props t _ _ _ _ Hfr) in Hin.
    apply list_elem_of_singleton in Hin as ->. by destruct c0.
Qed.

(** ** Retrying *)

(** C5.  In every reachable state, retrying an entry of the list that is
    in error replaces its chunks by a fresh plan (one chunk object per
    planned chunk, each waiting with progress 0), sets the file progress to
    0 and issues the create call of a new attempt at once; in every
    continuation of the run each chunk call of the new attempt comes after
    that create call. *)
Theorem C5_retry_resets_and_recreates props (events : list Event)
    (f : nat) (fe : FileEntry) :
  let s := run props events init in
  f ∈ fileList s → fileHeap s !! f = Some fe → file_status fe = error →
  let s' := handle props (ClickRetry f) s in
  let t := length (attempts s) in
  length (fileChunks s' f)
  = Z.to_nat (Math_ceil_div (file_size fe) (chunkBytes props))
  ∧ (∀ c, c ∈ fileChunks s' f →
          chunkStatus s' c = Some waiting ∧ chunkProgress s' c = 0)
  ∧ fileProgress s' f = Some (JNum 0)
  ∧ (∃ c0, is_create_call c0 = true ∧ trace s' = trace s ++ [Net t c0])
  ∧ attemptView s t = None
  ∧ attemptView s' t = Some (f, CreatePending)
  ∧ ∀ later pre c post,
      trace (run props later s') = pre ++ Net t c :: post →
      is_chunk_call c = true →
      ∃ c0, is_create_call c0 = true ∧ Net t c0 ∈ pre.
Proof.
  intros s Hin Hfe Hst s' t.
  assert (Hs' : s' = retryUpload props f s).
  { subst s'. simpl. rewrite decide_True; [done |].
    split; [done |]. unfold fileStatus. by rewrite Hfe, <-Hst. }
  unfold retryUpload in Hs'.
  set (s1 := updFile f (with_progress (JNum 0)) s) in Hs'.
  set (copies := omap _ _) in Hs'.
  set (s3 := updFile f _ (set_chunkHeap _ s1)) in Hs'.
  set (fe3 := with_chunks (seq (length (chunkHeap s1)) (length copies))
                (with_progress (JNum 0) fe)).
  assert (Hfe3 : fileHeap s3 !! f = Some fe3).
  { subst s3 s1. simpl. by rewrite !list_lookup_alter_eq, Hfe. }
  destruct (uploadFile_spec props f s3 fe3 Hfe3)
    as (_ & Hf' & _ & Hch & _ & _ & Hatt & Htr).
  rewrite <-Hs' in Hf', Hch, Hatt, Htr.
  change (file_size fe3) with (file_size fe) in *.
  assert (Hnone : attempts s !! t = None) by (apply lookup_ge_None_2; lia).
  assert (Hinv : inv s) by (apply (inv_reachable props); by exists events).
  split_and!.
  - unfold fileChunks. rewrite Hf'. simpl. by rewrite length_seq, planChunks_length.
  - intros c Hc. unfold fileChunks in Hc. rewrite Hf' in Hc. simpl in Hc.
    apply elem_of_seq in Hc as [Hlo Hhi].
    change (chunkHeap s ++ copies) with (chunkHeap s3) in Hlo, Hhi.
    unfold chunkStatus, chunkProgress. rewrite Hch.
    rewrite lookup_app_r by done.
    destruct (lookup_lt_is_Some_2
                (planChunks (file_size fe) (chunkBytes props))
                (c - length (chunkHeap s3))) as [ch Hl]; [lia |].
    rewrite Hl. simpl.
    apply list_elem_of_lookup_2, planChunks_waiting in Hl as [-> ->]. done.
  - unfold fileProgress. by rewrite Hf'.
  - eexists. split; [|exact Htr]. done.
  - unfold attemptView. by rewrite Hnone.
  - unfold attemptView. rewrite Hatt.
    change (length (attempts s3)) with t.
    change (attempts s3) with (attempts s).
    by rewrite list_lookup_middle.
  - intros later pre c post Heq Hc.
    destruct (trace_steps true _ _ (steps_run props later s')) as [more Hmore].
    rewrite Hmore, Htr in Heq.
    change (trace s3) with (trace s) in Heq.
    change (length (attempts s3)) with t in Heq.
    symmetry in Heq. apply app_split_notin in Heq as [pre' ->].
    + eexists. split; [|apply elem_of_app; left; apply elem_of_app; right;
                         apply list_elem_of_singleton; reflexivity]. done.
    + intros [Hold | Hnew%list_elem_of_singleton]%elem_of_app.
      * by apply (inv_fresh s t c Hinv Hnone).
      * by injection Hnew as ->.
Qed.

(** ** Entries of size 0 *)

Lemma planChunks_empty (c : Z) : planChunks 0 c = [].
Proof.
  unfold planChunks, Math_ceil_div. change (- 0) with 0.
  by rewrite Zdiv_0_l.
Qed.

Lemma ue_frame (s s' : State) :
  fileHeap s' = fileHeap s → unchunkedWhenEmpty s → unchunkedWhenEmpty s'.
Proof. intros Hh Hs f fe. rewrite Hh. apply Hs. Qed.

Lemma ue_updFile (f : nat) (g : FileEntry → FileEntry) (s : State) :
  (∀ fe, file_size (g fe) = file_size fe ∧ file_chunks (g fe) = file_chunks fe) →
  unchunkedWhenEmpty s → unchunkedWhenEmpty (updFile f g s).
Proof.
  intros Hg Hs f' fe'. simpl. destruct (decide (f = f')) as [-> | Hne].
  - rewrite list_lookup_alter_eq.
    destruct (fileHeap s !! f') as [fe|] eqn:Hfe; simpl; [|done].
    intros [= <-]. destruct (Hg fe) as [-> ->]. by apply (Hs f').
  - rewrite list_lookup_alter_ne by done. apply Hs.
Qed.

Lemma ue_addFile props s file :
  unchunkedWhenEmpty s → unchunkedWhenEmpty (addFile props s file).
Proof.
  intros Hs. unfold addFile. case_decide; [by eapply ue_frame |].
  intros f fe. simpl. intros Hl Hsz.
  apply lookup_app_Some in Hl as [Hl | [_ Hl]]; [by eapply Hs |].
  apply list_lookup_singleton_Some in Hl as [_ <-]. done.
Qed.

Lemma ue_foldl {A} (op : State → A → State) (l : list A) (s : State) :
  (∀ s x, unchunkedWhenEmpty s → unchunkedWhenEmpty (op s x)) →
  unchunkedWhenEmpty s → unchunkedWhenEmpty (foldl op s l).
Proof.
  intros Hop. revert s. induction l as [|x l IH]; intros s Hs; simpl; eauto.
Qed.

(** [uploadFile] replaces the chunks of its file, whatever they were. *)
Lemma ue_uploadFile_except props f s :
  (∀ f' fe, f' ≠ f → fileHeap s !! f' = Some fe → file_size fe = 0 →
            file_chunks fe = []) →
  unchunkedWhenEmpty (uploadFile props f s).
Proof.
  intros Hs. destruct (fileHeap s !! f) as [fe|] eqn:Hfe.
  - destruct (uploadFile_spec props f s fe Hfe) as (_ & Hf & Ho & _).
    intros f' fe'. destruct (decide (f' = f)) as [-> | Hne].
    + rewrite Hf. intros [= <-]. simpl. intros ->.
      by rewrite planChunks_empty.
    + rewrite Ho by done. by apply Hs.
  - unfold uploadFile. rewrite Hfe. intros f' fe' Hl.
    apply (Hs f' fe'); [|done]. intros ->. congruence.
Qed.

Lemma ue_uploadFile props f s :
  unchunkedWhenEmpty s → unchunkedWhenEmpty (uploadFile props f s).
Proof. intros Hs. apply ue_uploadFile_except. intros f' fe _. apply Hs. Qed.

Lemma ue_startUpload props s :
  unchunkedWhenEmpty s → unchunkedWhenEmpty (startUpload props s).
Proof.
  unfold startUpload. apply ue_foldl. intros s' f Hs'.
  repeat case_match; first [done | by apply ue_uploadFile].
Qed.

Lemma ue_validateAndAddFiles props files s :
  unchunkedWhenEmpty s →
  unchunkedWhenEmpty (validateAndAddFiles props files s).
Proof.
  intros Hs. unfold validateAndAddFiles.
  assert (Hq : unchunkedWhenEmpty
                 (emit (file_change (fileList (foldl (addFile props) s files)))
                    (foldl (addFile props) s files))).
  { eapply ue_frame; [done |].
    apply ue_foldl; [|done]. intros. by apply ue_addFile. }
  case_match; [|done]. by apply ue_startUpload.
Qed.

Lemma ue_retryUpload props f s :
  unchunkedWhenEmpty s → unchunkedWhenEmpty (retryUpload props f s).
Proof.
  intros Hs. unfold retryUpload. apply ue_uploadFile_except.
  intros f' fe Hne. simpl. rewrite !list_lookup_alter_ne by done. apply Hs.
Qed.

Lemma ue_cancelUpload f s :
  unchunkedWhenEmpty s → unchunkedWhenEmpty (cancelUpload f s).
Proof.
  intros Hs. unfold cancelUpload.
  destruct (fileHeap s !! f) as [fe|]; [|done].
  case_decide; [|done]. apply ue_updFile; [done |].
  destruct (activeRequests s !! prop_key (file_identifier fe)) as [reqs|];
    [|done].
  eapply ue_frame; [|done]. simpl.
  by destruct (abortAll_frame reqs s) as (_ & -> & _).
Qed.

Lemma ue_removeFile index s :
  unchunkedWhenEmpty s → unchunkedWhenEmpty (removeFile index s).
Proof.
  intros Hs. unfold removeFile. destruct (fileList s !! index); [|done].
  eapply ue_frame; [done |]. case_decide; [by apply ue_cancelUpload | done].
Qed.

Lemma ue_uploadChunks_catch t f err s :
  unchunkedWhenEmpty s → unchunkedWhenEmpty (uploadChunks_catch t f err s).
Proof.
  intros Hs. unfold uploadChunks_catch.
  eapply ue_frame; [done |]. eapply ue_frame; [done |]. by apply ue_updFile.
Qed.

Lemma ue_uploadChunks_resume props t o s :
  unchunkedWhenEmpty s → unchunkedWhenEmpty (uploadChunks_resume props t o s).
Proof.
  intros Hs. unfold uploadChunks_resume.
  destruct (attempts s !! t) as [a|]; [|done].
  destruct (attempt_phase a); try done.
  destruct (createUploadTask_result o) as [err|r].
  - by apply ue_uploadChunks_catch.
  - eapply ue_frame; [apply dispatchLoop_fileHeap |]. by apply ue_updFile.
Qed.

Lemma ue_slotTimer props t s :
  unchunkedWhenEmpty s → unchunkedWhenEmpty (slotTimer props t s).
Proof.
  intros Hs. unfold slotTimer.
  destruct (attempts s !! t) as [a|]; [|done].
  destruct (attempt_phase a) as [|[|c rest]| | |]; try done.
  case_decide; [|done]. eapply ue_frame; [|exact Hs].
  rewrite dispatchLoop_fileHeap.
  by destruct (dispatch_effect t (attempt_file a) c s) as [-> _].
Qed.

Lemma ue_joinTimer props t s :
  unchunkedWhenEmpty s → unchunkedWhenEmpty (joinTimer props t s).
Proof.
  intros Hs. unfold joinTimer.
  destruct (attempts s !! t) as [a|]; [|done].
  destruct (attempt_phase a); try done.
  destruct (allUploaded s (attempt_file a)).
  - eapply ue_frame; [|exact Hs]. unfold mergeChunks. by case_match.
  - destruct (hasError s (attempt_file a)); [|done].
    apply ue_uploadChunks_catch. eapply ue_frame; [done |].
    by apply ue_updFile.
Qed.

Lemma ue_mergeChunks_resume t o s :
  unchunkedWhenEmpty s → unchunkedWhenEmpty (mergeChunks_resume t o s).
Proof.
  intros Hs. unfold mergeChunks_resume.
  destruct (attempts s !! t) as [a|]; [|done].
  destruct (attempt_phase a); try done.
  destruct (mergeChunks_result o) as [err|r].
  - apply ue_uploadChunks_catch. eapply ue_frame; [done |].
    by apply ue_updFile.
  - eapply ue_frame; [done |].
    assert (unchunkedWhenEmpty
              (updFile (attempt_file a)
                 (λ fe, with_progress (JNum 100)
                          (with_url (url r) (with_status success fe))) s))
      as Hu by by apply ue_updFile.
    case_match; (eapply ue_frame; [|exact Hu]); done.
Qed.

Lemma ue_updateFileProgress f s :
  unchunkedWhenEmpty s → unchunkedWhenEmpty (updateFileProgress f s).
Proof.
  intros Hs. unfold updateFileProgress. eapply ue_frame; [done |].
  by apply ue_updFile.
Qed.

Lemma ue_settle_after_update x xr g s :
  unchunkedWhenEmpty s →
  unchunkedWhenEmpty
    (xhr_settle x xr
       (updateFileProgress (xhr_file xr) (updChunk (xhr_chunk xr) g s))).
Proof.
  intros Hs. eapply ue_frame; [apply xhr_settle_heaps |].
  apply ue_updateFileProgress. by eapply ue_frame.
Qed.

Lemma ue_handle props e s :
  unchunkedWhenEmpty s → unchunkedWhenEmpty (handle props e s).
Proof.
  intros Hs. destruct e; simpl.
  - unfold handleFileChange. destruct files; [done |].
    by apply ue_validateAndAddFiles.
  - by apply ue_validateAndAddFiles.
  - case_decide; [by apply ue_cancelUpload | done].
  - case_decide; [by apply ue_retryUpload | done].
  - repeat case_match; first [done | by apply ue_removeFile].
  - by apply ue_startUpload.
  - by eapply ue_frame.
  - by apply ue_uploadChunks_resume.
  - by apply ue_slotTimer.
  - case_decide; [|done]. unfold xhr_onprogress.
    destruct (xhrs s !! xhr) as [xr|]; [|done].
    destruct lengthComputable; [|done].
    apply ue_updateFileProgress. by eapply ue_frame.
  - case_decide; [|done]. unfold xhr_onload.
    destruct (xhrs s !! xhr) as [xr|]; [|done].
    destruct (xhr_status_ok status); by apply ue_settle_after_update.
  - case_decide; [|done]. unfold xhr_onerror.
    destruct (xhrs s !! xhr) as [xr|]; [|done].
    by apply ue_settle_after_update.
  - by apply ue_joinTimer.
  - by apply ue_mergeChunks_resume.
Qed.

Lemma ue_reachable props s : reachable props s → unchunkedWhenEmpty s.
Proof.
  intros [events ->]. unfold run. apply ue_foldl.
  - intros. by apply ue_handle.
  - by intros f fe.
Qed.

Lemma filter_chunk_of_complete (cs : list Call) :
  Forall (λ c, is_complete_call c = true) cs →
  filter (λ c, is_chunk_call c = true) cs = [].
Proof.
  induction 1 as [|c cs Hc _ IH]; [done |].
  rewrite filter_cons_False; [done | by destruct c].
Qed.

Lemma joined_step (b : bool) (t : nat) (cs : list Call) (s s' : State) :
  step b s s' → joined t cs s → joined t cs s'.
Proof.
  intros (Hl & added & Ht & Htr) [(f & ph & Hv & Hpast) Hcs].
  specialize (Htr t). rewrite Hv in Htr.
  destruct (attemptView s' t) as [[f' ph']|] eqn:Hv'; simpl in Htr; [|done].
  destruct Htr as [-> Hp]. unfold joined, chunkCalls in *.
  rewrite Ht, callsOf_app, filter_app, Hcs.
  destruct Hp as [[Hc ->] | [(Hd & _) | [(_ & -> & -> & Hc) | (_ & -> & Hc)]]].
  - rewrite Hc. simpl. rewrite app_nil_r. eauto.
  - exfalso. destruct Hpast as [-> | [-> | ->]]; by destruct Hd as [|[]].
  - split; [exists f, MergePending; split; [done | right; by left] |].
    by rewrite filter_chunk_of_complete, app_nil_r.
  - rewrite Hc. simpl. rewrite app_nil_r.
    split; [exists f, Finished; split; [done | right; by right] | done].
Qed.

Lemma joined_steps (b : bool) (t : nat) (cs : list Call) (s s' : State) :
  rtc (step b) s s' → joined t cs s → joined t cs s'.
Proof. induction 1; eauto using joined_step. Qed.

(** ** The empty file *)

(** C10.  A file of size 0 is planned as no chunk: [uploadFile] gives it an
    empty chunk list and issues the create call with [chunks = 0].  In
    every reachable state an entry of size 0 has no chunks, so when the
    create call of an attempt on it succeeds no chunk call is made, the join
    check is installed at once and no chunk call of the attempt occurs in
    any continuation; and the join timer of such an attempt issues the
    complete call with [total_chunks = 0], the condition that all chunks
    are uploaded being true of the empty list. *)
Theorem C10_empty_file_completes props (events : list Event) :
  let s := run props events init in
  planChunks 0 (chunkBytes props) = []
  ∧ (∀ st f fe,
       fileHeap st !! f = Some fe → file_size fe = 0 →
       let t := length (attempts st) in
       let s1 := uploadFile props f st in
       fileChunks s1 f = []
       ∧ trace s1 = trace st ++ [Net t (CreateCall (file_name fe) 0
                                          (file_type fe) (chunkBytes props)
                                          0 (data props))]
       ∧ attemptView s1 t = Some (f, CreatePending))
  ∧ (∀ t a fe o r,
       attempts s !! t = Some a → attempt_phase a = CreatePending →
       fileHeap s !! attempt_file a = Some fe → file_size fe = 0 →
       createUploadTask_result o = inr r →
       let s2 := handle props (CreateSettled t o) s in
       trace s2 = trace s
       ∧ attemptView s2 t = Some (attempt_file a, JoinPolling)
       ∧ ∀ later c, Net t c ∈ trace (run props later s2) →
                    is_chunk_call c = false)
  ∧ (∀ t a fe,
       attempts s !! t = Some a → attempt_phase a = JoinPolling →
       fileHeap s !! attempt_file a = Some fe → file_size fe = 0 →
       let s3 := handle props (JoinTimer t) s in
       allUploaded s (attempt_file a) = true
       ∧ trace s3 = trace s ++ [Net t (CompleteCall (file_uploadId fe)
                                         (file_name fe) 0 (data props))]
       ∧ attemptView s3 t = Some (attempt_file a, MergePending)).
Proof.
  intros s.
  assert (Hreach : reachable props s) by by exists events.
  pose proof (ue_reachable props s Hreach) as Hue.
  pose proof (inv_reachable props s Hreach) as Hinv.
  split_and!.
  - apply planChunks_empty.
  - intros st f fe Hfe Hsize t s1.
    destruct (uploadFile_spec props f st fe Hfe)
      as (_ & Hf' & _ & _ & _ & _ & Hatt & Htr).
    fold s1 in Hf', Hatt, Htr. rewrite Hsize in *.
    rewrite planChunks_empty in *. split_and!.
    + unfold fileChunks. by rewrite Hf'.
    + exact Htr.
    + unfold attemptView. rewrite Hatt. by rewrite list_lookup_middle.
  - intros t a fe o r Ha Hph Hfe Hsize Hr s2.
    pose proof (Hue _ _ Hfe Hsize) as Hch.
    assert (Hs2 : s2 = checkAllChunksUploaded t
                         (updFile (attempt_file a)
                            (with_uploadId (upload_id r)) s)).
    { subst s2. simpl. unfold uploadChunks_resume. rewrite Ha, Hph, Hr.
      unfold fileChunks. simpl. rewrite list_lookup_alter_eq, Hfe. simpl.
      by rewrite Hch. }
    assert (Hv2 : attemptView s2 t = Some (attempt_file a, JoinPolling)).
    { rewrite Hs2. unfold checkAllChunksUploaded.
      rewrite attemptView_with_phase, decide_True by done.
      unfold attemptView. simpl. by rewrite Ha. }
    split_and!; [by rewrite Hs2 | done |].
    intros later c Hin.
    specialize (Hinv t). rewrite (attemptView_lookup _ _ _ Ha), Hph in Hinv.
    destruct Hinv as [_ (c0 & rest & Hcalls & Hc0 & ->)].
    assert (Hj : joined t [] s2).
    { split; [exists (attempt_file a), JoinPolling; split; [done | by left] |].
      unfold chunkCalls. rewrite Hs2. simpl. rewrite Hcalls.
      rewrite filter_cons_False; [done | by destruct c0]. }
    destruct (joined_steps true t [] s2 _ (steps_run props later s2) Hj)
      as [_ Hnone].
    apply elem_of_callsOf in Hin. destruct (is_chunk_call c) eqn:Hc; [|done].
    exfalso. unfold chunkCalls in Hnone.
    eapply filter_nil_not_elem_of; [exact Hnone | | exact Hin]. done.
  - intros t a fe Ha Hph Hfe Hsize s3.
    pose proof (Hue _ _ Hfe Hsize) as Hch.
    assert (Hall : allUploaded s (attempt_file a) = true).
    { unfold allUploaded, fileChunks. rewrite Hfe. simpl. by rewrite Hch. }
    subst s3. simpl. unfold joinTimer. rewrite Ha, Hph, Hall.
    unfold mergeChunks. rewrite Hfe, Hch. split_and!; [done | done |].
    rewrite attemptView_with_phase, decide_True by done.
    unfold attemptView. simpl. by rewrite Ha.
Qed.

(** ** Aborted requests *)

(** C4 does not hold of the code.  A file of one chunk is dropped, the
    create call succeeds and the chunk request is in flight; the user clicks
    cancel.  The request is aborted and no longer registered, but its chunk
    is still uploading: only [onload] and [onerror] mark a chunk, and
    neither runs for an aborted request.  The promise of the request is
    never settled and the attempt keeps polling. *)
Example C4_aborted_chunk_stays_uploading :
  let s := run defaultProps
             [Drop [sampleFile "a.bin" (3 * MB)]; CreateSettled 0 (createOk "u1");
              ClickCancel 0] init in
  xhr_state <$> xhrs s !! 0%nat = Some Aborted
  ∧ registered s 0 = []
  ∧ fileStatus s 0 = Some error
  ∧ chunkStatus s 0 = Some uploading
  ∧ attemptPhase s 0 = Some JoinPolling
  ∧ handle defaultProps (XhrError 0) s = s
  ∧ handle defaultProps (JoinTimer 0) s = s.
Proof. vm_compute. done. Qed.

(** A consequence: the cancelled attempt is still polling when the entry is
    retried, sees the chunks of the new attempt succeed, and issues a
    complete call of its own; the merge is requested twice. *)
Example cancelled_attempt_lingers :
  let s := run defaultProps
             [Drop [sampleFile "a.bin" (3 * MB)]; CreateSettled 0 (createOk "u1");
              ClickCancel 0; ClickRetry 0; CreateSettled 1 (createOk "u2");
              XhrLoad 1 200; JoinTimer 0; JoinTimer 1] init in
  callsOf 0 (trace s)
  = [CreateCall "a.bin" (3 * MB) "application/octet-stream" (5 * MB) 1 [];
     ChunkCall (Some "u1") 0 0 (3 * MB) "a.bin";
     CompleteCall (Some "u2") "a.bin" 1 []]
  ∧ callsOf 1 (trace s)
    = [CreateCall "a.bin" (3 * MB) "application/octet-stream" (5 * MB) 1 [];
       ChunkCall (Some "u2") 0 0 (3 * MB) "a.bin";
       CompleteCall (Some "u2") "a.bin" 1 []].
Proof. vm_compute. done. Qed.

(** ** Admission *)

Lemma addFile_rejected props (s : State) (file : RawFile) :
  maxSize props * 1024 * 1024 < raw_size file →
  addFile props s file = observe (Message (raw_name file) (maxSize props)) s.
Proof. intros H. unfold addFile. by rewrite decide_True. Qed.

Lemma addFile_accepted props (s : State) (file : RawFile) :
  raw_size file ≤ maxSize props * 1024 * 1024 →
  let s' := addFile props s file in
  let f := length (fileHeap s) in
  fileList s' = fileList s ++ [f]
  ∧ (∃ fe, fileHeap s' = fileHeap s ++ [fe] ∧ file_raw fe = file
           ∧ file_status fe = waiting ∧ file_progress fe = JNum 0
           ∧ file_chunks fe = [])
  ∧ chunkHeap s' = chunkHeap s ∧ activeRequests s' = activeRequests s
  ∧ xhrs s' = xhrs s ∧ attempts s' = attempts s ∧ trace s' = trace s.
Proof.
  intros H. unfold addFile. rewrite decide_False by lia. simpl.
  split_and!; try done. eexists. split_and!; done.
Qed.

Lemma addFiles_spec props (files : list RawFile) (s : State) :
  let limit := maxSize props * 1024 * 1024 in
  let s' := foldl (addFile props) s files in
  let accepted := filter (λ file, raw_size file ≤ limit) files in
  let rejected := filter (λ file, limit < raw_size file) files in
  fileList s' = fileList s ++ seq (length (fileHeap s)) (length accepted)
  ∧ (∃ entries, fileHeap s' = fileHeap s ++ entries
       ∧ file_raw <$> entries = accepted
       ∧ Forall (λ fe, file_status fe = waiting ∧ file_progress fe = JNum 0)
           entries)
  ∧ trace s'
    = trace s ++ map (λ file, Message (raw_name file) (maxSize props)) rejected
  ∧ chunkHeap s' = chunkHeap s ∧ activeRequests s' = activeRequests s
  ∧ xhrs s' = xhrs s ∧ attempts s' = attempts s.
Proof.
  revert s. induction files as [|file files IH]; intros s; simpl.
  - rewrite !app_nil_r. split_and!; try done. exists []. by rewrite app_nil_r.
  - destruct (IH (addFile props s file))
      as (Hl & (entries & Hh & Hr & Hw) & Ht & Hc & Ha & Hx & Hat).
    destruct (decide (maxSize props * 1024 * 1024 < raw_size file)) as [Hbig|Hok].
    + rewrite addFile_rejected in * by done. simpl in *.
      rewrite filter_cons_False by lia. rewrite filter_cons_True by done.
      split_and!; try done.
      * by exists entries.
      * by rewrite Ht, <-app_assoc.
    + destruct (addFile_accepted props s file ltac:(lia))
        as (Hl1 & (fe & Hh1 & Hr1 & Hw1 & Hp1 & _) & Hc1 & Ha1 & Hx1 & Hat1 & Ht1).
      rewrite filter_cons_True by lia. rewrite filter_cons_False by done.
      rewrite Hl, Hh, Ht, Hc, Ha, Hx, Hat, Hl1, Hh1, Ht1, Hc1, Ha1, Hx1, Hat1.
      split_and!; try done.
      * rewrite <-app_assoc, length_app. simpl. do 3 f_equal. lia.
      * exists (fe :: entries). split_and!.
        -- by rewrite <-app_assoc.
        -- by rewrite fmap_cons, Hr, Hr1.
        -- by constructor.
Qed.

(** C9 (amended).  A file larger than [maxSize] MB adds nothing to the
    queue and the heap and starts no attempt: its iteration of the loop
    only shows the message, so the handler behaves on it as on an empty
    batch after the message; in particular the file-change event is still
    emitted, and with [autoUpload] the entries already queued that are
    waiting or in error are started.  A file within the limit is appended
    as an entry with status waiting, progress 0 and no chunks, without a
    message.  For a batch the queue gains the accepted files in order and
    the trace the messages of the rejected ones in order, before
    file-change is emitted. *)
Theorem C9_admission props (s : State) (files : list RawFile)
    (file : RawFile) :
  let limit := maxSize props * 1024 * 1024 in
  (limit < raw_size file →
     addFile props s file
     = observe (Message (raw_name file) (maxSize props)) s
     ∧ handle props (Drop [file]) s
       = handle props (Drop [])
           (observe (Message (raw_name file) (maxSize props)) s)
     ∧ (autoUpload props = false ∨ fileList s = [] →
        handle props (Drop [file]) s
        = emit (file_change (fileList s))
            (observe (Message (raw_name file) (maxSize props)) s)))
  ∧ (raw_size file ≤ limit →
     let s' := addFile props s file in
     let f := length (fileHeap s) in
     fileList s' = fileList s ++ [f]
     ∧ fileStatus s' f = Some waiting
     ∧ fileProgress s' f = Some (JNum 0)
     ∧ file_raw <$> fileHeap s' !! f = Some file
     ∧ trace s' = trace s ∧ attempts s' = attempts s)
  ∧ (let s' := foldl (addFile props) s files in
     fileList s'
     = fileList s ++ seq (length (fileHeap s))
                       (length (filter (λ file, raw_size file ≤ limit) files))
     ∧ file_raw <$> drop (length (fileHeap s)) (fileHeap s')
       = filter (λ file, raw_size file ≤ limit) files
     ∧ trace s'
       = trace s ++ map (λ file, Message (raw_name file) (maxSize props))
                      (filter (λ file, limit < raw_size file) files)
     ∧ attempts s' = attempts s ∧ xhrs s' = xhrs s).
Proof.
  intros limit. split_and!.
  - intros Hbig. split_and!.
    + by apply addFile_rejected.
    + simpl. unfold handleDrop, validateAndAddFiles. simpl.
      by rewrite addFile_rejected.
    + intros Hoff. simpl. unfold handleDrop, validateAndAddFiles. simpl.
      rewrite addFile_rejected by done. simpl.
      destruct Hoff as [-> | ->]; [done |].
      rewrite bool_decide_eq_false_2 by naive_solver.
      by rewrite andb_false_r.
  - intros Hok s' f.
    destruct (addFile_accepted props s file Hok)
      as (Hl & (fe & Hh & Hr & Hw & Hp & _) & _ & _ & _ & Hat & Ht).
    fold s' in Hl, Hh, Hat, Ht. unfold fileStatus, fileProgress.
    rewrite Hh, list_lookup_middle by done. simpl.
    split_and!; first [done | congruence].
  - intros s'.
    destruct (addFiles_spec props files s)
      as (Hl & (entries & Hh & Hr & _) & Ht & _ & _ & Hx & Hat).
    fold s' in Hl, Hh, Ht, Hx, Hat.
    split_and!; try done. by rewrite Hh, drop_app_length.
Qed.

(** C9 as stated fails: with a limit of 5 MB and an empty queue, dropping a
    file of 6 MB adds nothing to the queue, but the message is not the only
    effect: file-change is emitted as well. *)
Example C9_message_is_not_the_only_effect :
  let s := handle smallLimitProps (Drop [sampleFile "big.bin" (6 * MB)]) init in
  fileList s = []
  ∧ trace s = [Message "big.bin" 5; Emit (file_change [])]
  ∧ trace s ≠ [Message "big.bin" 5].
Proof. vm_compute. split_and!; done. Qed.

(** ** Progress *)

Lemma foldl_add_foldr (a : Z) (l : list Z) :
  foldl Z.add a l = a + foldr Z.add 0 l.
Proof.
  revert a. induction l as [|x l IH]; intros a; simpl; [lia |].
  rewrite IH. lia.
Qed.

Lemma foldl_progress_map (g : nat → Z) (a : Z) (l : list nat) :
  foldl (λ sum c, sum + g c) a l = foldl Z.add a (map g l).
Proof. revert a. induction l as [|x l IH]; intros a; simpl; [done | apply IH]. Qed.

Lemma updateFileProgress_spec (f : nat) (s : State) :
  let s' := updateFileProgress f s in
  let progress := aggregateProgress (chunkProgresses s f) in
  fileHeap s' = alter (with_progress progress) f (fileHeap s)
  ∧ chunkHeap s' = chunkHeap s
  ∧ chunkProgresses s' f = chunkProgresses s f
  ∧ trace s' = trace s ++ [Emit (upload_progress f progress)]
  ∧ fileList s' = fileList s ∧ attempts s' = attempts s
  ∧ xhrs s' = xhrs s ∧ activeRequests s' = activeRequests s.
Proof.
  unfold updateFileProgress, aggregateProgress, chunkProgresses. simpl.
  rewrite foldl_progress_map, length_map.
  split_and!; try done.
  unfold fileChunks, chunkProgress. simpl. rewrite list_lookup_alter_eq.
  by destruct (fileHeap s !! f).
Qed.

Lemma aggregateProgress_rounds (ps : list Z) :
  ps ≠ [] →
  ∃ p, aggregateProgress ps = JNum p
       ∧ (arithmetic_mean ps - (1 # 2) < inject_Z p)%Q
       ∧ (inject_Z p <= arithmetic_mean ps + (1 # 2))%Q.
Proof.
  intros Hne. unfold aggregateProgress, Math_round_div, arithmetic_mean.
  rewrite foldl_add_foldr, Z.add_0_l.
  set (S := foldr Z.add 0 ps). set (n := Z.of_nat (length ps)).
  assert (Hn : 0 < n) by (subst n; destruct ps; [done | simpl; lia]).
  rewrite decide_False by lia. eexists. split; [done |].
  pose proof (Z.div_mod (2 * S + n) (2 * n) ltac:(lia)) as Hdm.
  pose proof (Z.mod_pos_bound (2 * S + n) (2 * n) ltac:(lia)) as Hm.
  set (r := (2 * S + n) / (2 * n)) in *. clearbody S n r.
  destruct n as [|q|q]; try lia.
  unfold Qlt, Qle, Qdiv, Qmult, Qplus, Qminus, Qopp, Qinv, inject_Z; simpl.
  split; nia.
Qed.

Lemma Forall2_le_sum (ps qs : list Z) :
  Forall2 Z.le ps qs → foldr Z.add 0 ps ≤ foldr Z.add 0 qs.
Proof. induction 1; simpl; lia. Qed.

Lemma aggregateProgress_mono (ps qs : list Z) :
  ps ≠ [] → Forall2 Z.le ps qs →
  js_ge (aggregateProgress qs) (aggregateProgress ps) = true.
Proof.
  intros Hne Hle. unfold aggregateProgress, Math_round_div.
  rewrite !foldl_add_foldr, !Z.add_0_l, <-(Forall2_length _ _ _ Hle).
  assert (Hn : 0 < Z.of_nat (length ps)) by (destruct ps; [done | simpl; lia]).
  rewrite !decide_False by lia. simpl. apply bool_decide_eq_true.
  apply Z.div_le_mono; [lia |]. pose proof (Forall2_le_sum _ _ Hle). lia.
Qed.

(** C7 (amended).  On a progress tick with computable length of a request
    in flight, for a file with at least one chunk, the file progress is
    recomputed as the unweighted mean of all chunk progress values (no
    weighting by chunk length) rounded to the nearest integer, halves
    upwards, and exactly that value is emitted as upload-progress.  A tick
    without computable length changes nothing. *)
Theorem C7_progress_is_rounded_mean props (s : State) (x : nat) (xr : Xhr)
    (fe : FileEntry) (percent : Z) :
  xhrs s !! x = Some xr → xhr_state xr = Sent →
  fileHeap s !! xhr_file xr = Some fe → file_chunks fe ≠ [] →
  let f := xhr_file xr in
  let s' := handle props (XhrProgress x true percent) s in
  let ps := chunkProgresses s' f in
  (∃ p, fileProgress s' f = Some (JNum p)
        ∧ (arithmetic_mean ps - (1 # 2) < inject_Z p)%Q
        ∧ (inject_Z p <= arithmetic_mean ps + (1 # 2))%Q
        ∧ trace s' = trace s ++ [Emit (upload_progress f (JNum p))])
  ∧ handle props (XhrProgress x false percent) s = s.
Proof.
  intros Hx Hsent Hfe Hne f s' ps. fold f in Hfe. split.
  - set (s1 := updChunk (xhr_chunk xr) (chunk_with_progress percent) s).
    assert (Hs' : s' = updateFileProgress f s1).
    { subst s'. simpl. rewrite Hx. simpl. rewrite Hsent, decide_True by done.
      unfold xhr_onprogress. by rewrite Hx. }
    subst ps. rewrite Hs'.
    destruct (updateFileProgress_spec f s1) as (Hh & _ & Hps & Htr & _).
    assert (Hps1 : chunkProgresses s1 f ≠ []).
    { unfold chunkProgresses, fileChunks. simpl. rewrite Hfe.
      simpl. by destruct (file_chunks fe). }
    destruct (aggregateProgress_rounds _ Hps1) as (p & Hp & Hlo & Hhi).
    exists p. rewrite Hps. split_and!; [| done | done |].
    + unfold fileProgress. rewrite Hh, list_lookup_alter_eq.
      change (fileHeap s1) with (fileHeap s). rewrite Hfe.
      simpl. by rewrite Hp.
    + by rewrite Htr, Hp.
  - simpl. rewrite Hx. simpl. rewrite Hsent, decide_True by done.
    unfold xhr_onprogress. by rewrite Hx.
Qed.

(** C7 as stated fails: a file of two chunks, a tick on the second chunk at
    1 percent; the chunk values are 0 and 1, their mean is 1/2, the file
    progress is 1. *)
Example C7_progress_is_not_the_mean :
  let s := run defaultProps
             [Drop [sampleFile "a.bin" (8 * MB)]; CreateSettled 0 (createOk "u1");
              XhrProgress 1 true 1] init in
  chunkProgresses s 0 = [0; 1]
  ∧ fileProgress s 0 = Some (JNum 1)
  ∧ ¬ (inject_Z 1 == arithmetic_mean (chunkProgresses s 0))%Q.
Proof. vm_compute. split_and!; [done | done |]. intros H. discriminate H. Qed.

(** ** Who writes the file progress *)

Lemma kp_refl (s : State) : keepsProgress s s.
Proof. by intros f p. Qed.

Lemma kp_trans (s1 s2 s3 : State) :
  keepsProgress s1 s2 → keepsProgress s2 s3 → keepsProgress s1 s3.
Proof. intros H1 H2 f p Hf. by apply H2, H1. Qed.

Lemma kp_then (op : State → State) (s x : State) :
  (∀ y, keepsProgress y (op y)) → keepsProgress s x → keepsProgress s (op x).
Proof. intros Hop Hx. eapply kp_trans; [exact Hx | apply Hop]. Qed.

Lemma kp_frame (s s' : State) : fileHeap s' = fileHeap s → keepsProgress s s'.
Proof. intros Hh f p. unfold fileProgress. by rewrite Hh. Qed.

Lemma fileProgress_updFile_ne (f f' : nat) g (s : State) :
  f ≠ f' → fileProgress (updFile f g s) f' = fileProgress s f'.
Proof. intros Hne. unfold fileProgress. simpl. by rewrite list_lookup_alter_ne. Qed.

Lemma kp_updFile (f : nat) (g : FileEntry → FileEntry) (s : State) :
  (∀ fe, file_progress (g fe) = file_progress fe) →
  keepsProgress s (updFile f g s).
Proof.
  intros Hg f' p. destruct (decide (f = f')) as [-> | Hne].
  - unfold fileProgress. simpl. rewrite list_lookup_alter_eq.
    destruct (fileHeap s !! f'); simpl; [|done]. by rewrite Hg.
  - by rewrite fileProgress_updFile_ne.
Qed.

Lemma kp_push_file fe s : keepsProgress s (set_fileHeap (λ h, h ++ [fe]) s).
Proof.
  intros f p. unfold fileProgress. simpl. intros H.
  rewrite lookup_app_l; [done |].
  destruct (fileHeap s !! f) eqn:E; [by eapply lookup_lt_Some | done].
Qed.

Lemma kp_addFile props s file : keepsProgress s (addFile props s file).
Proof.
  unfold addFile. case_decide; [by apply kp_frame |].
  apply kp_then; [intros; by apply kp_frame | apply kp_push_file].
Qed.

Lemma kp_foldl {A} (op : State → A → State) (l : list A) (s : State) :
  (∀ s x, keepsProgress s (op s x)) → keepsProgress s (foldl op s l).
Proof.
  intros Hop. revert s. induction l as [|x l IH]; intros s; simpl.
  - apply kp_refl.
  - eapply kp_trans; [apply Hop | apply IH].
Qed.

Lemma kp_uploadFile props f s : keepsProgress s (uploadFile props f s).
Proof.
  intros f' p Hp. unfold fileProgress in *.
  destruct (fileHeap s !! f) as [fe|] eqn:Hfe.
  - destruct (uploadFile_spec props f s fe Hfe) as (_ & Hf & Ho & _).
    destruct (decide (f' = f)) as [-> | Hne].
    + rewrite Hf. rewrite Hfe in Hp. exact Hp.
    + by rewrite Ho.
  - unfold uploadFile. by rewrite Hfe.
Qed.

Lemma kp_startUpload props s : keepsProgress s (startUpload props s).
Proof.
  unfold startUpload. apply kp_foldl. intros s' f.
  repeat case_match; first [apply kp_refl | apply kp_uploadFile].
Qed.

Lemma kp_validateAndAddFiles props files s :
  keepsProgress s (validateAndAddFiles props files s).
Proof.
  unfold validateAndAddFiles.
  assert (Hq : keepsProgress s
                 (emit (file_change (fileList (foldl (addFile props) s files)))
                    (foldl (addFile props) s files))).
  { eapply kp_trans; [| by apply kp_frame].
    apply kp_foldl. intros. apply kp_addFile. }
  case_match; [|done]. eapply kp_trans; [exact Hq | apply kp_startUpload].
Qed.

Lemma kp_uploadChunks_catch t f err s :
  keepsProgress s (uploadChunks_catch t f err s).
Proof.
  unfold uploadChunks_catch.
  eapply kp_trans; [|by apply kp_frame].
  eapply kp_trans; [|by apply kp_frame]. by apply kp_updFile.
Qed.

Lemma kp_uploadChunks_resume props t o s :
  keepsProgress s (uploadChunks_resume props t o s).
Proof.
  unfold uploadChunks_resume. repeat case_match; try apply kp_refl.
  - apply kp_uploadChunks_catch.
  - eapply kp_trans; [|apply kp_frame, dispatchLoop_fileHeap].
    by apply kp_updFile.
Qed.

Lemma kp_slotTimer props t s : keepsProgress s (slotTimer props t s).
Proof.
  unfold slotTimer. repeat case_match; try apply kp_refl.
  apply kp_frame. rewrite dispatchLoop_fileHeap.
  by destruct (dispatch_effect t (attempt_file a) n s) as [-> _].
Qed.

Lemma kp_joinTimer props t s : keepsProgress s (joinTimer props t s).
Proof.
  unfold joinTimer, mergeChunks. repeat case_match; try apply kp_refl;
    try (by apply kp_frame).
  eapply kp_trans; [|apply kp_uploadChunks_catch].
  eapply kp_trans; [|by apply kp_frame]. by apply kp_updFile.
Qed.

Lemma kp_removeFile index s :
  (∀ f, fileList s !! index = Some f → fileStatus s f ≠ Some uploading) →
  keepsProgress s (removeFile index s).
Proof.
  intros Hst. unfold removeFile.
  destruct (fileList s !! index) as [f|]; [|apply kp_refl].
  rewrite decide_False by by apply Hst. by apply kp_frame.
Qed.

(** The three request handlers end with the progress of the request's file
    recomputed from its chunk values and leave other files alone. *)
Lemma settle_after_update (x : nat) (xr : Xhr) (s1 : State) (f : nat) (p : jsnum) :
  let s' := xhr_settle x xr (updateFileProgress (xhr_file xr) s1) in
  fileProgress s1 f = Some p →
  fileProgress s' f = Some p
  ∨ fileProgress s' f = Some (aggregateProgress (chunkProgresses s' f)).
Proof.
  intros s' Hp.
  destruct (xhr_settle_heaps x xr (updateFileProgress (xhr_file xr) s1))
    as [Hh Hc]. fold s' in Hh, Hc.
  destruct (updateFileProgress_spec (xhr_file xr) s1)
    as (Hh1 & Hc1 & Hps & _).
  destruct (decide (xhr_file xr = f)) as [<- | Hne].
  - right. unfold fileProgress in *. unfold chunkProgresses, fileChunks, chunkProgress in *.
    rewrite Hh, Hc. rewrite Hps, Hh1, list_lookup_alter_eq.
    destruct (fileHeap s1 !! xhr_file xr); simplify_eq/=. done.
  - left. unfold fileProgress in *. rewrite Hh, Hh1.
    by rewrite list_lookup_alter_ne.
Qed.

Lemma retryUpload_progress props (f : nat) (s : State) (fe : FileEntry) :
  fileHeap s !! f = Some fe →
  fileProgress (retryUpload props f s) f = Some (JNum 0).
Proof.
  intros Hfe. unfold retryUpload. apply kp_uploadFile.
  unfold fileProgress. simpl. by rewrite !list_lookup_alter_eq, Hfe.
Qed.

Lemma retryUpload_progress_ne props (f f' : nat) (s : State) (p : jsnum) :
  f ≠ f' → fileProgress s f' = Some p →
  fileProgress (retryUpload props f s) f' = Some p.
Proof.
  intros Hne Hp. unfold retryUpload. apply kp_uploadFile.
  rewrite fileProgress_updFile_ne by done.
  unfold fileProgress in *. simpl. by rewrite list_lookup_alter_ne.
Qed.

Lemma cancelUpload_progress_ne (f f' : nat) (s : State) (p : jsnum) :
  f ≠ f' → fileProgress s f' = Some p →
  fileProgress (cancelUpload f s) f' = Some p.
Proof.
  intros Hne Hp. unfold cancelUpload. repeat case_match; try done.
  - rewrite fileProgress_updFile_ne by done. unfold fileProgress in *. simpl.
    by destruct (abortAll_frame l s) as (_ & -> & _).
  - by rewrite fileProgress_updFile_ne.
Qed.

(** X22.  The function that [updateFileProgress] computes on the vector
    of chunk progress values is monotone on vectors of at least one chunk,
    and the file progress it stores is its value on the chunk values of the
    list the entry has then.  Cancel of a listed entry that is uploading
    and retry of a listed entry in error set its progress to 0, and a
    successful complete call sets it to 100.  An event changes the progress
    of an entry in no other way than these: a handler recomputes it from
    the current chunk values, a settled complete call sets it to 100,
    cancel or retry of that entry set it to 0. *)
Theorem X22_progress_is_recomputed_or_reset props :
  (∀ ps qs, ps ≠ [] → Forall2 Z.le ps qs →
            js_ge (aggregateProgress qs) (aggregateProgress ps) = true)
  ∧ (∀ s f fe, fileHeap s !! f = Some fe →
       fileProgress (updateFileProgress f s) f
       = Some (aggregateProgress (chunkProgresses s f)))
  ∧ (∀ s f, fileStatus s f = Some uploading →
       fileProgress (handle props (ClickCancel f) s) f
       = if decide (f ∈ fileList s) then Some (JNum 0) else fileProgress s f)
  ∧ (∀ s f, f ∈ fileList s → fileStatus s f = Some error →
       fileProgress (handle props (ClickRetry f) s) f = Some (JNum 0))
  ∧ (∀ s t a o r fe,
       attempts s !! t = Some a → attempt_phase a = MergePending →
       fileHeap s !! attempt_file a = Some fe →
       mergeChunks_result o = inr r →
       fileProgress (handle props (MergeSettled t o) s) (attempt_file a)
       = Some (JNum 100))
  ∧ (∀ e s f p,
       fileProgress s f = Some p →
       let s' := handle props e s in
       fileProgress s' f = Some p
       ∨ fileProgress s' f = Some (aggregateProgress (chunkProgresses s' f))
       ∨ (fileProgress s' f = Some (JNum 100) ∧ ∃ t o, e = MergeSettled t o)
       ∨ (fileProgress s' f = Some (JNum 0)
          ∧ (e = ClickCancel f ∨ e = ClickRetry f))).
Proof.
  split_and!.
  - apply aggregateProgress_mono.
  - intros s f fe Hfe.
    destruct (updateFileProgress_spec f s) as (Hh & _).
    unfold fileProgress. by rewrite Hh, list_lookup_alter_eq, Hfe.
  - intros s f Hst. simpl. case_decide as Hin.
    + destruct Hin as [Hin _]. rewrite decide_True by done.
      by apply cancelUpload_progress.
    + rewrite decide_False; [done |]. intros ?. by apply Hin.
  - intros s f Hin Hst. simpl. rewrite decide_True by done.
    unfold fileStatus in Hst.
    destruct (fileHeap s !! f) as [fe|] eqn:Hfe; [|done].
    by eapply retryUpload_progress.
  - intros s t a o r fe Ha Hph Hfe Hr. simpl. unfold mergeChunks_resume.
    rewrite Ha, Hph, Hr. unfold fileProgress.
    case_match; simpl; by rewrite list_lookup_alter_eq, Hfe.
  - intros e s f p Hp s'. subst s'.
    destruct e; simpl.
    + left. unfold handleFileChange. destruct files; [done |].
      by apply kp_validateAndAddFiles.
    + left. by apply kp_validateAndAddFiles.
    + case_decide as Hg; [|by left]. destruct Hg as [Hin Hst].
      destruct (decide (file = f)) as [-> | Hne].
      * do 3 right. split; [|by left].
        by apply cancelUpload_progress.
      * left. by apply cancelUpload_progress_ne.
    + case_decide as Hg; [|by left]. destruct Hg as [Hin Hst].
      destruct (decide (file = f)) as [-> | Hne].
      * do 3 right. split; [|by right].
        unfold fileStatus in Hst.
        destruct (fileHeap s !! f) as [fe|] eqn:Hfe; [|done].
        by eapply retryUpload_progress.
      * left. by apply retryUpload_progress_ne.
    + left. destruct (fileList s !! index) as [f0|] eqn:Hidx; [|done].
      case_decide as Hg; [done |]. apply kp_removeFile; [|done].
      intros f1 Hf1. naive_solver.
    + left. by apply kp_startUpload.
    + by left.
    + left. by apply kp_uploadChunks_resume.
    + left. by apply kp_slotTimer.
    + case_decide; [|by left]. unfold xhr_onprogress.
      destruct (xhrs s !! xhr) as [xr|]; [|by left].
      destruct lengthComputable; [|by left].
      destruct (updateFileProgress_spec (xhr_file xr)
                  (updChunk (xhr_chunk xr) (chunk_with_progress percent) s))
        as (Hh & Hc & Hps & _).
      destruct (decide (xhr_file xr = f)) as [<- | Hne].
      * right; left. unfold fileProgress in *. rewrite Hps, Hh.
        rewrite list_lookup_alter_eq. simpl.
        by destruct (fileHeap s !! xhr_file xr).
      * left. unfold fileProgress in *. rewrite Hh.
        by rewrite list_lookup_alter_ne.
    + case_decide; [|by left]. unfold xhr_onload.
      destruct (xhrs s !! xhr) as [xr|]; [|by left].
      destruct (xhr_status_ok status).
      * destruct (settle_after_update xhr xr
                    (updChunk (xhr_chunk xr)
                       (λ c, chunk_with_progress 100
                               (chunk_with_status success c)) s) f p Hp);
          [by left | by right; left].
      * destruct (settle_after_update xhr xr
                    (updChunk (xhr_chunk xr) (chunk_with_status error) s)
                    f p Hp);
          [by left | by right; left].
    + case_decide; [|by left]. unfold xhr_onerror.
      destruct (xhrs s !! xhr) as [xr|]; [|by left].
      destruct (settle_after_update xhr xr
                  (updChunk (xhr_chunk xr) (chunk_with_status error) s)
                  f p Hp);
        [by left | by right; left].
    + left. by apply kp_joinTimer.
    + unfold mergeChunks_resume.
      destruct (attempts s !! attempt) as [a|]; [|by left].
      destruct (attempt_phase a); try by left.
      destruct (mergeChunks_result o) as [err|r].
      * left. apply kp_uploadChunks_catch.
        unfold fileProgress in *. simpl.
        destruct (decide (attempt_file a = f)) as [<- | Hne].
        -- rewrite list_lookup_alter_eq.
           by destruct (fileHeap s !! attempt_file a).
        -- by rewrite list_lookup_alter_ne.
      * destruct (decide (attempt_file a = f)) as [<- | Hne].
        -- right; right; left. split; [|eauto].
           unfold fileProgress in *. case_match; simpl;
             rewrite list_lookup_alter_eq;
             by destruct (fileHeap s !! attempt_file a).
        -- left. unfold fileProgress in *. case_match; simpl;
             by rewrite list_lookup_alter_ne.
Qed.

(** C8 does not hold of the code.  A file of three chunks reaches progress
    20, then one chunk fails and the join check puts the entry in error.
    Dropping a second file starts the upload of every entry that is waiting
    or in error, so the first entry is uploading again, with fresh chunks
    but with its old progress 20: [startUpload] restarts it through
    [uploadFile], which does not touch the progress, where [retryUpload]
    sets it to 0 before it calls [uploadFile].  The next event is a
    progress tick that raises a chunk from 0 to 10: the file progress falls
    to 3, although the entry was neither cancelled nor retried. *)
Example C8_progress_falls_after_restart :
  let s :=
    run defaultProps
      [Drop [sampleFile "a.bin" (12 * MB)]; CreateSettled 0 (createOk "u1");
       XhrProgress 0 true 60; XhrLoad 1 500; JoinTimer 0;
       Drop [sampleFile "b.bin" MB]; CreateSettled 1 (createOk "u2")] init in
  let s' := handle defaultProps (XhrProgress 3 true 10) s in
  fileStatus s 0 = Some uploading
  ∧ fileProgress s 0 = Some (JNum 20)
  ∧ chunkProgresses s 0 = [0; 0; 0]
  ∧ chunkProgresses s' 0 = [10; 0; 0]
  ∧ fileProgress s' 0 = Some (JNum 3)
  ∧ js_ge (JNum 3) (JNum 20) = false.
Proof. vm_compute. split_and!; done. Qed.

(** ** Every handler is made of these pieces *)

Lemma uploadFile_fileList props (f : loc) (s : State) :
  fileList (uploadFile props f s) = fileList s.
Proof.
  unfold uploadFile. case_match; [| done].
  unfold uploadChunks, createUploadTask. by case_match.
Qed.

Section Pieces.

Variable props : Props.
Variable e : Event.
Variable P : State → Prop.
Hypothesis HP : Preserved props e P.

Lemma pieces_addFiles (files : list RawFile) (s : State) :
  P s → P (foldl (addFile props) s files).
Proof.
  revert s. induction files as [|file files IH]; intros s Hs; simpl; [done |].
  apply IH. by apply (pres_addFile HP).
Qed.

Lemma pieces_startUpload (s : State) : P s → P (startUpload props s).
Proof.
  unfold startUpload.
  assert (Hgen : ∀ l s, l ⊆ fileList s → P s →
            P (foldl (λ s f, match fileStatus s f with
                             | Some waiting | Some error =>
                                 uploadFile props f s
                             | _ => s
                             end) s l)).
  { induction l as [|f l IH]; intros s' Hl Hs'; simpl; [done |].
    assert (Hf : f ∈ fileList s') by (apply Hl; left).
    assert (Hl' : l ⊆ fileList s') by (intros x Hx; apply Hl; by right).
    destruct (fileStatus s' f) as [[]|] eqn:Hst; try by apply IH.
    - apply IH; [by rewrite uploadFile_fileList |].
      apply (pres_uploadFile HP); auto.
    - apply IH; [by rewrite uploadFile_fileList |].
      apply (pres_uploadFile HP); auto. }
  by apply Hgen.
Qed.

Lemma pieces_validateAndAddFiles (files : list RawFile) (s : State) :
  P s → P (validateAndAddFiles props files s).
Proof.
  intros Hs. unfold validateAndAddFiles.
  pose proof (pieces_addFiles files s Hs) as H1.
  pose proof (pres_file_change HP _ H1) as H2.
  case_match; [by apply pieces_startUpload | done].
Qed.

Lemma pieces_catch (t f : nat) (ph : Phase) (err : UploadError) (s : State) :
  attemptView s t = Some (f, ph) → ph ≠ Finished →
  P s → P (uploadChunks_catch t f err s).
Proof.
  intros Hv Hph Hs. unfold uploadChunks_catch.
  apply (pres_finish HP t f ph); [done | done |].
  apply (pres_upload_error HP t f ph); [done | done |].
  by apply (pres_status_error HP t f ph).
Qed.

Lemma loopSource_dispatch (t f c : nat) (ph : Phase) (pending : list loc)
    (s : State) :
  loopSource s f ph pending → loopSource (dispatch t f c s) f ph pending.
Proof.
  destruct (dispatch_effect t f c s) as (Hf & _).
  unfold loopSource, fileChunks. by rewrite Hf.
Qed.

Lemma loopSource_sub (f : nat) (ph : Phase) (l l' : list loc) (s : State) :
  l' ⊆ l → loopSource s f ph l → loopSource s f ph l'.
Proof.
  intros Hsub [[-> Hl]|(p & -> & Hl)]; [left | right].
  - split; [done |]. by etrans.
  - exists p. split; [done |]. by etrans.
Qed.

Lemma pieces_dispatchLoop (t f : nat) (ph : Phase) (pending : list loc)
    (s : State) :
  attemptView s t = Some (f, ph) →
  ph = CreatePending ∨ (∃ p, ph = SlotWait p) →
  loopSource s f ph pending →
  P s → P (dispatchLoop props t f pending s).
Proof.
  intros Hv Hph. revert s Hv.
  induction pending as [|c rest IH]; intros s Hv Hsrc Hs; simpl.
  - by apply (pres_join HP t f ph).
  - case_decide.
    + by apply (pres_slot_wait HP t f ph).
    + destruct (dispatch_effect t f c s) as (_ & Hv' & _).
      apply IH.
      * by rewrite Hv'.
      * apply loopSource_dispatch.
        apply (loopSource_sub f ph (c :: rest)); [| done].
        intros x Hx. by right.
      * apply (pres_dispatch HP t f ph); [done | lia | | done].
        apply (loopSource_sub f ph (c :: rest)); [| done].
        intros x Hx. apply list_elem_of_singleton in Hx as ->. by left.
Qed.

Lemma attemptView_lookup_inv (s : State) (t : nat) (a : Attempt) :
  attempts s !! t = Some a →
  attemptView s t = Some (attempt_file a, attempt_phase a).
Proof. unfold attemptView. by intros ->. Qed.

Lemma running_lookup (s : State) (t : nat) (a : Attempt) :
  attempts s !! t = Some a → running s t = runningUploads a.
Proof. unfold running. by intros ->. Qed.

Lemma pieces_uploadChunks_resume (t : nat) (o : FetchOutcome CreateResponse)
    (s : State) :
  P s → P (uploadChunks_resume props t o s).
Proof.
  intros Hs. unfold uploadChunks_resume.
  destruct (attempts s !! t) as [a|] eqn:Ha; [| done].
  apply attemptView_lookup_inv in Ha as Hv.
  destruct (attempt_phase a) eqn:Hph; try done.
  destruct (createUploadTask_result o) as [err|r].
  - by apply (pieces_catch t _ CreatePending).
  - apply (pieces_dispatchLoop t _ CreatePending); [done | by left | | ].
    + left. split; [done |]. done.
    + by apply (pres_uploadId HP t).
Qed.

Lemma pieces_slotTimer (t : nat) (s : State) : P s → P (slotTimer props t s).
Proof.
  intros Hs. unfold slotTimer.
  destruct (attempts s !! t) as [a|] eqn:Ha; [| done].
  apply attemptView_lookup_inv in Ha as Hv.
  apply running_lookup in Ha as Hr.
  destruct (attempt_phase a) as [|[|c rest]| | |] eqn:Hph; try done.
  case_decide; [| done].
  destruct (dispatch_effect t (attempt_file a) c s) as (_ & Hv' & _).
  apply (pieces_dispatchLoop t _ (SlotWait (c :: rest))).
  - by rewrite Hv'.
  - right. eauto.
  - apply loopSource_dispatch. right. eexists. split; [done |].
    intros x Hx. by right.
  - apply (pres_dispatch HP t _ (SlotWait (c :: rest))); [done | lia | | done].
    right. eexists. split; [done |].
    intros x Hx. apply list_elem_of_singleton in Hx as ->. by left.
Qed.

Lemma pieces_xhr_onprogress (x : nat) (percent : Z) (s : State) :
  e = XhrProgress x true percent →
  xhr_state <$> xhrs s !! x = Some Sent →
  P s → P (xhr_onprogress x true percent s).
Proof.
  intros He Hx Hs. unfold xhr_onprogress.
  destruct (xhrs s !! x) as [xr|] eqn:Hxr; [| done].
  simpl in Hx. injection Hx as Hst.
  apply (pres_updateFileProgress HP x xr); [done | done |].
  by apply (pres_tick HP x xr).
Qed.

Lemma pieces_xhr_onload (x : nat) (status : Z) (s : State) :
  xhr_state <$> xhrs s !! x = Some Sent →
  P s → P (xhr_onload x status s).
Proof.
  intros Hx Hs. unfold xhr_onload.
  destruct (xhrs s !! x) as [xr|] eqn:Hxr; [| done].
  simpl in Hx. injection Hx as Hst.
  case_match.
  - apply (pres_xhr_settle HP x xr); [done | done |].
    apply (pres_updateFileProgress HP x xr); [done | done |].
    by apply (pres_chunk_success HP x xr).
  - apply (pres_xhr_settle HP x xr); [done | done |].
    apply (pres_updateFileProgress HP x xr); [done | done |].
    by apply (pres_chunk_error HP x xr).
Qed.

Lemma pieces_xhr_onerror (x : nat) (s : State) :
  xhr_state <$> xhrs s !! x = Some Sent →
  P s → P (xhr_onerror x s).
Proof.
  intros Hx Hs. unfold xhr_onerror.
  destruct (xhrs s !! x) as [xr|] eqn:Hxr; [| done].
  simpl in Hx. injection Hx as Hst.
  apply (pres_xhr_settle HP x xr); [done | done |].
  apply (pres_updateFileProgress HP x xr); [done | done |].
  by apply (pres_chunk_error HP x xr).
Qed.

Lemma pieces_joinTimer (t : nat) (s : State) :
  e = JoinTimer t → P s → P (joinTimer props t s).
Proof.
  intros He Hs. unfold joinTimer.
  destruct (attempts s !! t) as [a|] eqn:Ha; [| done].
  apply attemptView_lookup_inv in Ha as Hv.
  destruct (attempt_phase a) eqn:Hph; try done.
  destruct (allUploaded s (attempt_file a)) eqn:Hall.
  - by apply (pres_mergeChunks HP).
  - case_match; [| done].
    apply (pieces_catch t _ JoinPolling); [done | done |].
    apply (pres_upload_error HP t _ JoinPolling); [done | done |].
    by apply (pres_status_error HP t _ JoinPolling).
Qed.

Lemma pieces_mergeChunks_resume (t : nat) (o : FetchOutcome MergeResult)
    (s : State) :
  e = MergeSettled t o → P s → P (mergeChunks_resume t o s).
Proof.
  intros He Hs. unfold mergeChunks_resume.
  destruct (attempts s !! t) as [a|] eqn:Ha; [| done].
  apply attemptView_lookup_inv in Ha as Hv.
  destruct (attempt_phase a) eqn:Hph; try done.
  destruct (mergeChunks_result o) as [err|r] eqn:Hres.
  - apply (pieces_catch t _ MergePending); [done | done |].
    apply (pres_upload_error HP t _ MergePending); [done | done |].
    by apply (pres_status_error HP t _ MergePending).
  - set (s1 := emit (upload_success (attempt_file a) (url r))
                 (updFile (attempt_file a)
                    (λ fe, with_progress (JNum 100)
                             (with_url (url r) (with_status success fe))) s)).
    assert (H1 : P s1).
    { apply (pres_upload_success HP t (attempt_file a) o r);
        [done | done | done |].
      by apply (pres_merged HP t (attempt_file a) o r). }
    assert (Hv1 : attemptView s1 t = Some (attempt_file a, MergePending))
      by done.
    cbv zeta. fold s1. destruct (allComplete s1) eqn:Hall.
    + apply (pres_finish HP t (attempt_file a) MergePending); [done | done |].
      by apply (pres_upload_complete HP t (attempt_file a) o r s1).
    + by apply (pres_finish HP t (attempt_file a) MergePending).
Qed.

(** The handler of [e] keeps what its pieces keep. *)
Lemma pieces_handle (s : State) : P s → P (handle props e s).
Proof.
  intros Hs. assert (He : ∃ e', e' = e) by eauto.
  destruct He as [e' He]. rewrite <-He. symmetry in He.
  destruct e'; simpl.
  - unfold handleFileChange. destruct files; [done |].
    by apply pieces_validateAndAddFiles.
  - by apply pieces_validateAndAddFiles.
  - case_decide as Hc; [| done]. destruct Hc.
    by apply (pres_cancelUpload HP).
  - case_decide as Hc; [| done]. destruct Hc.
    by apply (pres_retryUpload HP).
  - destruct (fileList s !! index) as [f|] eqn:Hf; [| done].
    case_decide as Hc; [done |].
    unfold removeFile. rewrite Hf. rewrite decide_False by tauto.
    apply (pres_splice HP index f); [done | tauto | tauto | done].
  - by apply pieces_startUpload.
  - by apply (pres_clearFiles HP).
  - by apply pieces_uploadChunks_resume.
  - by apply pieces_slotTimer.
  - case_decide; [| done]. destruct lengthComputable.
    + by apply pieces_xhr_onprogress.
    + unfold xhr_onprogress. by case_match.
  - case_decide; [| done]. by apply pieces_xhr_onload.
  - case_decide; [| done]. by apply pieces_xhr_onerror.
  - by apply pieces_joinTimer.
  - by apply pieces_mergeChunks_resume.
Qed.

End Pieces.

(** What every piece keeps, and what holds at the start, holds in every
    reachable state. *)
Lemma pieces_reachable props (P : State → Prop) (s : State) :
  P init → (∀ e, Preserved props e P) → reachable props s → P s.
Proof.
  intros H0 HP [events ->]. unfold run.
  induction events as [|e events IH] using rev_ind; [done |].
  rewrite foldl_app. simpl. by apply (pieces_handle props e P).
Qed.

Lemma pieces_run props (P : State → Prop) (events : list Event) (s : State) :
  P s → Forall (λ e, Preserved props e P) events →
  P (run props events s).
Proof.
  intros Hs HP. revert s Hs. unfold run.
  induction HP as [|e events He _ IH]; intros s Hs; simpl; [done |].
  apply IH. by apply (pieces_handle props e P).
Qed.

(** ** The slots of an attempt *)

Lemma filter_alter_le {A} (Q : A → Prop) `{!∀ x, Decision (Q x)}
    (g : A → A) (i : nat) (l : list A) :
  (∀ y, Q (g y) → Q y) →
  (length (filter Q (alter g i l)) ≤ length (filter Q l))%nat.
Proof.
  intros Hg. revert i. induction l as [|y l IH]; intros [|i]; simpl; [done..| |].
  - rewrite !filter_cons. destruct (decide (Q (g y))) as [Hq|Hq].
    + rewrite decide_True by auto. simpl. lia.
    + case_decide; simpl; lia.
  - rewrite !filter_cons. specialize (IH i).
    change (alter g i l) with (list_alter g i l) in IH.
    case_decide; simpl; lia.
Qed.

Lemma filter_alter_drop {A} (Q : A → Prop) `{!∀ x, Decision (Q x)}
    (g : A → A) (i : nat) (l : list A) (y : A) :
  l !! i = Some y → Q y → ¬ Q (g y) →
  (length (filter Q (alter g i l)) + 1 = length (filter Q l))%nat.
Proof.
  revert i. induction l as [|z l IH]; intros [|i] Hi Hy Hgy; simpl in *;
    try done.
  - injection Hi as ->. rewrite !filter_cons.
    rewrite decide_False, decide_True by done. simpl. lia.
  - rewrite !filter_cons. specialize (IH i Hi Hy Hgy).
    change (alter g i l) with (list_alter g i l) in IH.
    case_decide; simpl; lia.
Qed.

Lemma running_alter (t t' : nat) (g : Attempt → Attempt) (s : State) :
  (∀ a, runningUploads (g a) = runningUploads a) →
  running (updAttempt t g s) t' = running s t'.
Proof.
  intros Hg. unfold running, updAttempt. simpl.
  destruct (decide (t = t')) as [->|Hne].
  - rewrite list_lookup_alter_eq. destruct (attempts s !! t'); simpl; auto.
  - by rewrite list_lookup_alter_ne.
Qed.

Lemma running_bump (t t' : nat) (g : Z → Z) (s : State) :
  running (updAttempt t (with_running g) s) t'
  = if decide (t' = t ∧ is_Some (attempts s !! t))
    then g (running s t) else running s t'.
Proof.
  unfold running, updAttempt. simpl.
  destruct (decide (t = t')) as [->|Hne].
  - rewrite list_lookup_alter_eq.
    destruct (attempts s !! t') eqn:Ha; simpl.
    + rewrite decide_True; [done |]. split; [done | eauto].
    + rewrite decide_False; [done |]. intros [_ [? ?]]. done.
  - rewrite list_lookup_alter_ne by done.
    rewrite decide_False; [done |]. intros [-> _]. done.
Qed.

Lemma running_push (s s' : State) (a : Attempt) :
  attempts s' = attempts s ++ [a] → runningUploads a = 0 →
  ∀ t, running s' t = running s t.
Proof.
  intros Ha Hr t. unfold running. rewrite Ha.
  destruct (decide (t < length (attempts s))%nat).
  - by rewrite lookup_app_l.
  - rewrite lookup_app_r by lia.
    rewrite (lookup_ge_None_2 (attempts s)) by lia.
    by destruct (t - length (attempts s))%nat; simpl.
Qed.

Lemma slotsBounded_frame props (s s' : State) :
  xhrs s' = xhrs s → (∀ t, running s' t = running s t) →
  slotsBounded props s → slotsBounded props s'.
Proof.
  intros Hx Hr Hs t. unfold inFlight. rewrite Hx, Hr. apply Hs.
Qed.

Lemma uploadFile_slots props (f : loc) (s : State) :
  xhrs (uploadFile props f s) = xhrs s
  ∧ ∀ t, running (uploadFile props f s) t = running s t.
Proof.
  unfold uploadFile. case_match; [| done].
  unfold uploadChunks, createUploadTask. simpl.
  case_match; simpl; (split; [done |]); by apply running_push with (a := mkAttempt f 0 CreatePending).
Qed.

Lemma slotsBounded_abortAll props (reqs : list nat) (s : State) :
  slotsBounded props s → slotsBounded props (abortAll reqs s).
Proof.
  revert s. induction reqs as [|x reqs IH]; intros s Hs; simpl; [done |].
  apply IH. intros t. destruct (Hs t) as [H1 H2].
  split; [| done].
  change (running (abort x s) t) with (running s t).
  etrans; [| exact H1]. apply inj_le. unfold inFlight, abort. simpl.
  apply filter_alter_le. intros y. case_decide; [| done].
  simpl. by intros [_ ?].
Qed.

Lemma slotsBounded_cancelUpload props (f : loc) (s : State) :
  slotsBounded props s → slotsBounded props (cancelUpload f s).
Proof.
  intros Hs. unfold cancelUpload. case_match; [| done].
  case_decide; [| done]. case_match.
  - apply (slotsBounded_frame props (abortAll l s)); [done | done |].
    by apply slotsBounded_abortAll.
  - by apply (slotsBounded_frame props s).
Qed.

Lemma inFlight_push (s s' : State) (xr : Xhr) (t : nat) :
  xhrs s' = xhrs s ++ [xr] →
  length (inFlight s' t)
  = (length (inFlight s t)
     + if decide (xhr_attempt xr = t ∧ xhr_state xr = Sent) then 1 else 0)%nat.
Proof.
  intros Hx. unfold inFlight. rewrite Hx, filter_app, length_app.
  rewrite filter_cons, filter_nil. by case_decide.
Qed.

Lemma slotsBounded_uploadChunk props (t f c : nat) (s : State) :
  is_Some (attempts s !! t) →
  (∀ t', Z.of_nat (length (inFlight s t'))
         ≤ running s t' - (if decide (t' = t) then 1 else 0)
         ∧ running s t' ≤ Z.max 0 (simultaneousUploads props)) →
  slotsBounded props (uploadChunk t f c s).
Proof.
  intros Hsome Hs. unfold uploadChunk.
  set (s1 := updChunk c (chunk_with_status uploading) s).
  assert (Hs1 : ∀ t', Z.of_nat (length (inFlight s1 t'))
                      ≤ running s1 t' - (if decide (t' = t) then 1 else 0)
                      ∧ running s1 t' ≤ Z.max 0 (simultaneousUploads props))
    by exact Hs.
  assert (Hweak : slotsBounded props s1).
  { intros t'. destruct (Hs1 t') as [H1 H2]. case_decide; lia. }
  destruct (fileHeap s1 !! f) as [fe|]; [| done].
  destruct (chunkHeap s1 !! c) as [ch|]; [| done].
  destruct (activeRequests s1 !! prop_key (file_identifier fe)).
  - intros t'. destruct (Hs1 t') as [H1 H2].
    rewrite (inFlight_push s1 _ (mkXhr f c t Sent)) by done. simpl.
    change (running _ t') with (running s1 t').
    destruct (decide (t' = t)) as [->|Hne].
    + rewrite decide_True by done. lia.
    + rewrite decide_False by (intros [? _]; done). lia.
  - intros t'. destruct (Hs1 t') as [H1 H2].
    rewrite running_bump. change (inFlight _ t') with (inFlight s1 t').
    destruct (decide (t' = t)) as [->|Hne].
    + rewrite decide_True by done. lia.
    + rewrite decide_False by (intros [? _]; done). lia.
Qed.

Lemma slotsBounded_dispatch props (t f c : nat) (ph : Phase) (s : State) :
  attemptView s t = Some (f, ph) →
  running s t < simultaneousUploads props →
  slotsBounded props s → slotsBounded props (dispatch t f c s).
Proof.
  intros Hv Hlt Hs.
  assert (Hsome : is_Some (attempts s !! t)).
  { unfold attemptView in Hv. destruct (attempts s !! t); [eauto | done]. }
  unfold dispatch.
  assert (Hgo : slotsBounded props
            (uploadChunk t f c (updAttempt t (with_running (λ n, n + 1)) s))).
  { apply slotsBounded_uploadChunk.
    - unfold updAttempt. simpl. rewrite list_lookup_alter_eq.
      destruct Hsome as [a ->]. simpl. eauto.
    - intros t'. destruct (Hs t') as [H1 H2]. rewrite running_bump.
      change (inFlight _ t') with (inFlight s t').
      destruct (decide (t' = t)) as [->|Hne].
      + rewrite decide_True by done. lia.
      + rewrite decide_False by (intros [? _]; done). lia. }
  destruct (chunkStatus s c) as [[]|]; done.
Qed.

Lemma slotsBounded_xhr_settle props (x : nat) (xr : Xhr) (s : State) :
  xhrs s !! x = Some xr → xhr_state xr = Sent →
  slotsBounded props s → slotsBounded props (xhr_settle x xr s).
Proof.
  intros Hx Hst Hs. unfold xhr_settle.
  set (s1 := set_xhrs (alter (with_xhr_state Settled) x) s).
  assert (Hle : ∀ t, (length (inFlight s1 t) ≤ length (inFlight s t))%nat).
  { intros t. apply filter_alter_le. simpl. by intros y [_ ?]. }
  assert (Hdrop : (length (inFlight s1 (xhr_attempt xr)) + 1
                   = length (inFlight s (xhr_attempt xr)))%nat).
  { apply (filter_alter_drop _ _ _ _ xr); [done | done |]. simpl.
    by intros [_ ?]. }
  unfold deregister.
  destruct (fileHeap s1 !! xhr_file xr) as [fe|];
    [destruct (activeRequests s1 !! prop_key (file_identifier fe)) |].
  - intros t. rewrite running_bump.
    change (inFlight _ t) with (inFlight s1 t).
    change (running _ t) with (running s t).
    change (running (set_activeRequests _ s1) (xhr_attempt xr))
      with (running s (xhr_attempt xr)).
    destruct (Hs t) as [H1 H2]. specialize (Hle t).
    case_decide as Hd; [| lia]. destruct Hd as [-> _]. lia.
  - intros t. destruct (Hs t) as [H1 H2]. specialize (Hle t).
    change (running s1 t) with (running s t). lia.
  - intros t. destruct (Hs t) as [H1 H2]. specialize (Hle t).
    change (running s1 t) with (running s t). lia.
Qed.

Lemma updateFileProgress_slots (f : loc) (s : State) :
  xhrs (updateFileProgress f s) = xhrs s
  ∧ ∀ t, running (updateFileProgress f s) t = running s t.
Proof. done. Qed.

Lemma slotsBounded_pieces props (e : Event) :
  Preserved props e (slotsBounded props).
Proof.
  constructor.
  - intros s file. apply slotsBounded_frame; unfold addFile; by case_decide.
  - intros s. by apply slotsBounded_frame.
  - intros f s _ _. apply slotsBounded_frame; apply uploadFile_slots.
  - intros f s _ _. unfold retryUpload.
    intros Hs. eapply slotsBounded_frame; [apply uploadFile_slots | apply uploadFile_slots |].
    by apply (slotsBounded_frame props s).
  - intros f s _ _. apply slotsBounded_cancelUpload.
  - intros index f s _ _ _. by apply slotsBounded_frame.
  - intros s. by apply slotsBounded_frame.
  - intros t f u s _. by apply slotsBounded_frame.
  - intros t f ph c s Hv Hr _. by apply (slotsBounded_dispatch props t f c ph).
  - intros t f ph pending s _ _.
    apply slotsBounded_frame; [done |]. intros t'. by apply running_alter.
  - intros t f ph s _ _.
    apply slotsBounded_frame; [done |]. intros t'. by apply running_alter.
  - intros x xr percent s _ _ _. by apply slotsBounded_frame.
  - intros x xr s _ _. by apply slotsBounded_frame.
  - intros x xr s _ _. by apply slotsBounded_frame.
  - intros x xr s _ _. by apply slotsBounded_frame.
  - intros x xr s. apply slotsBounded_xhr_settle.
  - intros t f s _ _ _. unfold mergeChunks.
    apply slotsBounded_frame; [by case_match |].
    intros t'. case_match; by rewrite running_alter.
  - intros t f ph s _ _. by apply slotsBounded_frame.
  - intros t f ph err s _ _. by apply slotsBounded_frame.
  - intros t f ph s _ _.
    apply slotsBounded_frame; [done |]. intros t'. by apply running_alter.
  - intros t f o result s _ _ _. by apply slotsBounded_frame.
  - intros t f o result s _ _ _. by apply slotsBounded_frame.
  - intros t f o result s _ _ _ _. by apply slotsBounded_frame.
Qed.

(** X1.  In every state of a run the number of requests of an attempt
    that are in flight is at most its counter [runningUploads], and the
    counter is at most [simultaneousUploads] (at most 0 when the prop is
    negative): an attempt never has more chunk requests in flight than
    the limit allows. *)
Theorem X1_slots_never_exceeded props (events : list Event) (t : nat) :
  let s := run props events init in
  Z.of_nat (length (inFlight s t)) ≤ running s t
  ∧ running s t ≤ Z.max 0 (simultaneousUploads props).
Proof.
  apply (pieces_reachable props (slotsBounded props)).
  - intros t'. unfold inFlight, running. simpl. lia.
  - apply slotsBounded_pieces.
  - by exists events.
Qed.

(** ** Pieces of a conjunction *)

Ltac by_pieces H :=
  lazymatch goal with
  | |- _ (addFile _ _ _) => eapply (pres_addFile H)
  | |- _ (emit (file_change _) _) => eapply (pres_file_change H)
  | |- _ (uploadFile _ _ _) => eapply (pres_uploadFile H)
  | |- _ (retryUpload _ _ _) => eapply (pres_retryUpload H)
  | |- _ (cancelUpload _ _) => eapply (pres_cancelUpload H)
  | |- _ (set_fileList (delete _) _) => eapply (pres_splice H)
  | |- _ (clearFiles _) => eapply (pres_clearFiles H)
  | |- _ (updFile _ (with_uploadId _) _) => eapply (pres_uploadId H)
  | |- _ (dispatch _ _ _ _) => eapply (pres_dispatch H)
  | |- _ (updAttempt _ (with_phase (SlotWait _)) _) =>
      eapply (pres_slot_wait H)
  | |- _ (checkAllChunksUploaded _ _) => eapply (pres_join H)
  | |- _ (updChunk _ (chunk_with_progress _) _) => eapply (pres_tick H)
  | |- _ (updChunk _ (chunk_with_status _) _) =>
      eapply (pres_chunk_error H)
  | |- _ (updChunk _ _ _) => eapply (pres_chunk_success H)
  | |- _ (updateFileProgress _ _) => eapply (pres_updateFileProgress H)
  | |- _ (xhr_settle _ _ _) => eapply (pres_xhr_settle H)
  | |- _ (mergeChunks _ _ _ _) => eapply (pres_mergeChunks H)
  | |- _ (updFile _ (with_status _) _) => eapply (pres_status_error H)
  | |- _ (emit (upload_error _ _) _) => eapply (pres_upload_error H)
  | |- _ (updAttempt _ (with_phase Finished) _) => eapply (pres_finish H)
  | |- _ (updFile _ _ _) => eapply (pres_merged H)
  | |- _ (emit (upload_success _ _) _) => eapply (pres_upload_success H)
  | |- _ (emit (upload_complete _) _) => eapply (pres_upload_complete H)
  end;
  eauto.

(** ** Identifiers *)

Lemma identified_frame (s s' : State) :
  fileHeap s' = fileHeap s →
  (∀ t, fst <$> attemptView s' t = fst <$> attemptView s t) →
  identified s → identified s'.
Proof.
  intros Hf Hv [H1 H2]. split.
  - intros f fe. rewrite Hf. apply H1.
  - intros t f ph Hv'. specialize (Hv t). rewrite Hv' in Hv. simpl in Hv.
    destruct (attemptView s t) as [[f0 ph0]|] eqn:Hv0; [| done].
    simpl in Hv. injection Hv as <-. rewrite Hf. by apply (H2 t f ph0).
Qed.

Lemma attemptFile_with_phase (t t' : nat) (ph : Phase) (s : State) :
  fst <$> attemptView (updAttempt t (with_phase ph) s) t'
  = fst <$> attemptView s t'.
Proof.
  rewrite attemptView_with_phase. case_decide; [| done].
  by destruct (attemptView s t') as [[]|].
Qed.

Lemma identified_updFile (f : loc) (g : FileEntry → FileEntry) (s : State) :
  (∀ fe, file_identifier fe = None ∨ identifierSet fe →
         file_identifier (g fe) = None ∨ identifierSet (g fe)) →
  (∀ fe, identifierSet fe → identifierSet (g fe)) →
  identified s → identified (updFile f g s).
Proof.
  intros Hg1 Hg2 [H1 H2]. split.
  - intros f' fe'. unfold updFile. simpl.
    destruct (decide (f = f')) as [->|Hne].
    + rewrite list_lookup_alter_eq.
      destruct (fileHeap s !! f') as [fe|] eqn:Hfe; [| done].
      simpl. intros [= <-]. apply Hg1. by apply (H1 f').
    + rewrite list_lookup_alter_ne by done. apply H1.
  - intros t f' ph Hv. destruct (H2 t f' ph Hv) as (fe & Hfe & Hid).
    unfold updFile. simpl. destruct (decide (f = f')) as [->|Hne].
    + exists (g fe). rewrite list_lookup_alter_eq, Hfe. split; [done |].
      by apply Hg2.
    + exists fe. by rewrite list_lookup_alter_ne.
Qed.

Lemma identified_quiet_heap (s s' : State) :
  fileHeap s' = fileHeap s → quiet s s' → identified s → identified s'.
Proof.
  intros Hf (_ & Hv & _). apply identified_frame; [done |].
  intros t. by rewrite Hv.
Qed.

Lemma identified_addFile props (s : State) (file : RawFile) :
  identified s → identified (addFile props s file).
Proof.
  intros [H1 H2]. unfold addFile. case_decide; [done |]. split; simpl.
  - intros f fe Hfe. apply lookup_app_Some in Hfe as [Hfe|[_ Hfe]].
    + by apply (H1 f).
    + destruct (f - length (fileHeap s))%nat; [| done].
      simpl in Hfe. injection Hfe as <-. by left.
  - intros t f ph Hv. destruct (H2 t f ph Hv) as (fe & Hfe & Hid).
    exists fe. split; [| done]. by apply lookup_app_l_Some.
Qed.

Lemma attemptView_push (s s' : State) (a : Attempt) (t f : nat) (ph : Phase) :
  attempts s' = attempts s ++ [a] →
  attemptView s' t = Some (f, ph) →
  attemptView s t = Some (f, ph)
  ∨ (t = length (attempts s) ∧ f = attempt_file a ∧ ph = attempt_phase a).
Proof.
  unfold attemptView. intros ->.
  destruct ((attempts s ++ [a]) !! t) as [a'|] eqn:Ha; [| done].
  simpl. intros [= <- <-].
  apply lookup_app_Some in Ha as [Ha|[Hle Ha]].
  - left. by rewrite Ha.
  - right. destruct (t - length (attempts s))%nat eqn:Hd; [| done].
    simpl in Ha. injection Ha as <-. split; [lia | done].
Qed.

Lemma identified_uploadFile props (f : loc) (s : State) :
  identified s → identified (uploadFile props f s).
Proof.
  intros [H1 H2].
  destruct (fileHeap s !! f) as [fe|] eqn:Hfe;
    [| unfold uploadFile; by rewrite Hfe].
  destruct (uploadFile_spec props f s fe Hfe)
    as (_ & Hf & Hother & _ & _ & _ & Ha & _).
  split.
  - intros f' fe'. destruct (decide (f' = f)) as [->|Hne].
    + rewrite Hf. intros [= <-]. by right.
    + rewrite Hother by done. apply H1.
  - intros t f' ph Hv.
    assert (Hnew : ∃ fe', fileHeap (uploadFile props f s) !! f = Some fe'
                          ∧ identifierSet fe').
    { eexists. split; [exact Hf | done]. }
    apply (attemptView_push s _ _ t f' ph Ha) in Hv
      as [Hv|(_ & -> & _)]; [| exact Hnew].
    destruct (decide (f' = f)) as [->|Hne]; [exact Hnew |].
    rewrite Hother by done. by apply (H2 t f' ph).
Qed.

Lemma identified_retryUpload props (f : loc) (s : State) :
  identified s → identified (retryUpload props f s).
Proof.
  intros Hs. unfold retryUpload. apply identified_uploadFile.
  apply identified_updFile; [done | done |].
  apply (identified_frame (updFile f (with_progress (JNum 0)) s));
    [done | done |].
  by apply identified_updFile.
Qed.

Lemma cancelUpload_fileHeap (f : loc) (s : State) :
  fileHeap (cancelUpload f s)
  = match fileHeap s !! f with
    | Some fe =>
        if decide (file_status fe = uploading)
        then alter (λ fe, with_progress (JNum 0) (with_status error fe)) f
               (fileHeap s)
        else fileHeap s
    | None => fileHeap s
    end.
Proof.
  unfold cancelUpload. destruct (fileHeap s !! f) as [fe|]; [| done].
  case_decide; [| done]. simpl.
  destruct (activeRequests s !! prop_key (file_identifier fe)) as [reqs|];
    [| done].
  simpl. by destruct (abortAll_frame reqs s) as (_ & -> & _).
Qed.

Lemma identified_cancelUpload (f : loc) (s : State) :
  identified s → identified (cancelUpload f s).
Proof.
  intros Hs.
  assert (Hq : ∀ t, fst <$> attemptView (cancelUpload f s) t
               = fst <$> attemptView s t).
  { intros t. destruct (quiet_cancelUpload f s) as (_ & Hv & _).
    by rewrite Hv. }
  pose proof (cancelUpload_fileHeap f s) as Hf.
  destruct (fileHeap s !! f) as [fe|] eqn:Hfe;
    [| by apply (identified_frame s)].
  case_decide; [| by apply (identified_frame s)].
  apply (identified_frame
           (updFile f (λ fe, with_progress (JNum 0) (with_status error fe)) s));
    [done | done |].
  by apply identified_updFile.
Qed.

Lemma identified_pieces props (e : Event) : Preserved props e identified.
Proof.
  constructor.
  - intros s file. apply identified_addFile.
  - intros s. by apply identified_frame.
  - intros f s _ _. apply identified_uploadFile.
  - intros f s _ _. apply identified_retryUpload.
  - intros f s _ _. apply identified_cancelUpload.
  - intros index f s _ _ _. by apply identified_frame.
  - intros s. by apply identified_frame.
  - intros t f u s _. by apply identified_updFile.
  - intros t f ph c s _ _ _.
    destruct (dispatch_effect t f c s) as (Hf & Hv & _).
    apply identified_frame; [done |]. intros t'. by rewrite Hv.
  - intros t f ph pending s _ _.
    apply identified_frame; [done |]. intros t'.
    apply attemptFile_with_phase.
  - intros t f ph s _ _.
    apply identified_frame; [done |]. intros t'.
    apply attemptFile_with_phase.
  - intros x xr percent s _ _ _. by apply identified_frame.
  - intros x xr s _ _. by apply identified_frame.
  - intros x xr s _ _. by apply identified_frame.
  - intros x xr s _ _ Hs. unfold updateFileProgress.
    apply (identified_frame (updFile (xhr_file xr)
             (with_progress
                (Math_round_div
                   (foldl (λ sum c, sum + chunkProgress s c) 0
                      (fileChunks s (xhr_file xr)))
                   (Z.of_nat (length (fileChunks s (xhr_file xr)))))) s));
      [done | done |].
    by apply identified_updFile.
  - intros x xr s _ _.
    apply identified_quiet_heap;
      [apply xhr_settle_heaps | apply quiet_xhr_settle].
  - intros t f s _ _ _. unfold mergeChunks.
    apply identified_frame; [by case_match |].
    intros t'. case_match; by rewrite attemptFile_with_phase.
  - intros t f ph s _ _. by apply identified_updFile.
  - intros t f ph err s _ _. by apply identified_frame.
  - intros t f ph s _ _.
    apply identified_frame; [done |]. intros t'.
    apply attemptFile_with_phase.
  - intros t f o result s _ _ _. by apply identified_updFile.
  - intros t f o result s _ _ _. by apply identified_frame.
  - intros t f o result s _ _ _ _. by apply identified_frame.
Qed.

(** ** The registry *)

Lemma remove_first_elem_of (x y : nat) (l : list nat) :
  y ∈ remove_first x l → y ∈ l.
Proof.
  induction l as [|z l IH]; simpl; [done |].
  case_decide; [by right |].
  intros [->|Hy]%elem_of_cons; [by left | right; auto].
Qed.

Lemma remove_first_NoDup (x : nat) (l : list nat) :
  NoDup l → NoDup (remove_first x l) ∧ x ∉ remove_first x l.
Proof.
  induction 1 as [|z l Hz Hl IH]; simpl.
  - split; [constructor | by intros ?%elem_of_nil].
  - case_decide as Hx.
    + subst. done.
    + destruct IH as [IH1 IH2]. split.
      * constructor; [| done]. intros Hin. apply Hz.
        by apply (remove_first_elem_of x).
      * intros [->|Hin]%elem_of_cons; done.
Qed.

Lemma abort_lookup (x y : nat) (s : State) :
  xhrs (abort x s) !! y
  = (λ xr, if decide (x = y ∧ xhr_state xr = Sent)
           then with_xhr_state Aborted xr else xr) <$> xhrs s !! y.
Proof.
  unfold abort. simpl. destruct (decide (x = y)) as [->|Hne].
  - rewrite list_lookup_alter_eq. destruct (xhrs s !! y) as [xr|]; [| done].
    simpl. f_equal. case_decide.
    + by rewrite decide_True.
    + rewrite decide_False; [done |]. by intros [_ ?].
  - rewrite list_lookup_alter_ne by done.
    destruct (xhrs s !! y) as [xr|]; [| done]. simpl.
    rewrite decide_False; [done |]. by intros [? _].
Qed.

Lemma abortAll_lookup_notin (reqs : list nat) (y : nat) (s : State) :
  y ∉ reqs → xhrs (abortAll reqs s) !! y = xhrs s !! y.
Proof.
  revert s. induction reqs as [|x reqs IH]; intros s Hy; [done |].
  unfold abortAll in *. simpl. rewrite IH.
  - rewrite abort_lookup. destruct (xhrs s !! y) as [xr|]; [| done].
    simpl. rewrite decide_False; [done |].
    intros [-> _]. apply Hy. by left.
  - intros Hin. apply Hy. by right.
Qed.

Lemma registryLive_frame (s s' : State) :
  activeRequests s' = activeRequests s → xhrs s' = xhrs s →
  (∀ f fe, fileHeap s !! f = Some fe →
     ∃ fe', fileHeap s' !! f = Some fe'
            ∧ file_identifier fe' = file_identifier fe) →
  registryLive s → registryLive s'.
Proof.
  intros Ha Hx Hf Hs key reqs. rewrite Ha. intros Hk.
  destruct (Hs key reqs Hk) as [Hnd Hel]. split; [done |].
  intros x Hin. destruct (Hel x Hin) as (xr & fe & Hxr & Hst & Hfe & Hid).
  destruct (Hf _ _ Hfe) as (fe' & Hfe' & Hid').
  exists xr, fe'. rewrite Hx. split_and!; [done | done | done |].
  by rewrite Hid'.
Qed.

Lemma registryLive_heap (s s' : State) :
  activeRequests s' = activeRequests s → xhrs s' = xhrs s →
  fileHeap s' = fileHeap s →
  registryLive s → registryLive s'.
Proof.
  intros Ha Hx Hf. apply registryLive_frame; [done | done |].
  intros f fe Hfe. exists fe. by rewrite Hf.
Qed.

Lemma registryLive_updFile (f : loc) (g : FileEntry → FileEntry) (s : State) :
  (∀ fe, file_identifier (g fe) = file_identifier fe) →
  registryLive s → registryLive (updFile f g s).
Proof.
  intros Hg. apply registryLive_frame; [done | done |].
  intros f' fe Hfe. unfold updFile. simpl.
  destruct (decide (f = f')) as [->|Hne].
  - exists (g fe). by rewrite list_lookup_alter_eq, Hfe.
  - exists fe. by rewrite list_lookup_alter_ne.
Qed.

Lemma registryLive_addFile props (s : State) (file : RawFile) :
  registryLive s → registryLive (addFile props s file).
Proof.
  unfold addFile. case_decide; [by apply registryLive_heap |].
  apply registryLive_frame; [done | done |].
  intros f fe Hfe. exists fe. split; [| done]. simpl.
  by apply lookup_app_l_Some.
Qed.

Lemma registryLive_uploadFile props (f : loc) (s : State) :
  identified s → registryLive s → registryLive (uploadFile props f s).
Proof.
  intros [HW _] Hs.
  destruct (fileHeap s !! f) as [fe|] eqn:Hfe;
    [| unfold uploadFile; by rewrite Hfe].
  destruct (uploadFile_spec props f s fe Hfe)
    as (_ & Hf & Hother & _ & Ha & Hx & _).
  intros key reqs. rewrite Ha. intros Hk.
  apply lookup_insert_Some in Hk as [[<- <-]|[Hne Hk]].
  { split; [constructor | by intros x ?%elem_of_nil]. }
  destruct (Hs key reqs Hk) as [Hnd Hel]. split; [done |].
  intros x Hin. destruct (Hel x Hin) as (xr & fe' & Hxr & Hst & Hfe' & Hid).
  rewrite Hx. destruct (decide (xhr_file xr = f)) as [Heq|Hnf].
  - rewrite Heq, Hfe in Hfe'. injection Hfe' as <-.
    destruct (HW f fe Hfe) as [Hnone|Hset]; [congruence |].
    unfold identifierSet in Hset. congruence.
  - exists xr, fe'. split_and!; [done | done | | done].
    by rewrite Hother.
Qed.

Lemma registryLive_retryUpload props (f : loc) (s : State) :
  identified s → registryLive s → registryLive (retryUpload props f s).
Proof.
  intros HW Hs. unfold retryUpload. apply registryLive_uploadFile.
  - apply identified_updFile; [done | done |].
    apply (identified_frame (updFile f (with_progress (JNum 0)) s));
      [done | done |].
    by apply identified_updFile.
  - apply registryLive_updFile; [done |].
    apply (registryLive_heap (updFile f (with_progress (JNum 0)) s));
      [done | done | done |].
    by apply registryLive_updFile.
Qed.

Lemma registryLive_cancelUpload (f : loc) (s : State) :
  registryLive s → registryLive (cancelUpload f s).
Proof.
  intros Hs. unfold cancelUpload.
  destruct (fileHeap s !! f) as [fe|] eqn:Hfe; [| done].
  case_decide; [| done].
  apply registryLive_updFile; [done |].
  destruct (activeRequests s !! prop_key (file_identifier fe))
    as [reqs0|] eqn:Hk0; [| done].
  destruct (abortAll_frame reqs0 s) as (_ & Hfh & _ & Har & _).
  intros key reqs. simpl. rewrite Har. intros Hk.
  apply lookup_insert_Some in Hk as [[<- <-]|[Hne Hk]].
  { split; [constructor | by intros x ?%elem_of_nil]. }
  destruct (Hs key reqs Hk) as [Hnd Hel]. split; [done |].
  intros x Hin. destruct (Hel x Hin) as (xr & fe' & Hxr & Hst & Hfe' & Hid).
  exists xr, fe'. rewrite Hfh. split_and!; [| done | done | done].
  rewrite abortAll_lookup_notin; [done |].
  intros Hin0. destruct (Hs _ _ Hk0) as [_ Hel0].
  destruct (Hel0 x Hin0) as (xr0 & fe0 & Hxr0 & _ & Hfe0 & Hid0).
  rewrite Hxr in Hxr0. injection Hxr0 as <-.
  rewrite Hfe' in Hfe0. injection Hfe0 as <-.
  rewrite Hid in Hid0. injection Hid0 as ->. done.
Qed.

Lemma registryLive_uploadChunk (t f c : nat) (s : State) :
  (∃ fe, fileHeap s !! f = Some fe ∧ is_Some (file_identifier fe)) →
  registryLive s → registryLive (uploadChunk t f c s).
Proof.
  intros (fe & Hfe & [id Hid]) Hs. unfold uploadChunk.
  set (s1 := updChunk c (chunk_with_status uploading) s).
  assert (Hs1 : registryLive s1) by exact Hs.
  change (fileHeap s1 !! f) with (fileHeap s !! f). rewrite Hfe.
  destruct (chunkHeap s1 !! c) as [ch|]; [| done].
  rewrite Hid. simpl.
  destruct (activeRequests s !! id) as [reqs0|] eqn:Hk0.
  - intros key reqs. simpl. intros Hk.
    assert (Hold : ∀ x xr, xhrs s !! x = Some xr →
              (xhrs s ++ [mkXhr f c t Sent]) !! x = Some xr).
    { intros x xr Hx. by apply lookup_app_l_Some. }
    apply lookup_insert_Some in Hk as [[<- <-]|[Hne Hk]].
    + destruct (Hs1 id reqs0 Hk0) as [Hnd Hel]. split.
      * apply NoDup_app. split_and!; [done | | apply NoDup_singleton].
        intros x Hin ->%list_elem_of_singleton.
        destruct (Hel _ Hin) as (xr & _ & Hxr & _).
        apply lookup_lt_Some in Hxr. change (xhrs s1) with (xhrs s) in Hxr.
        lia.
      * intros x [Hin|Hin]%elem_of_app;
          [| apply list_elem_of_singleton in Hin as ->].
        -- destruct (Hel x Hin) as (xr & fe' & Hxr & Hst & Hfe' & Hid').
           exists xr, fe'. split_and!; [by apply Hold | done | done | done].
        -- exists (mkXhr f c t Sent), fe. split_and!; [| done | done | done].
           rewrite lookup_app_r by done.
           by rewrite Nat.sub_diag.
    + destruct (Hs1 key reqs Hk) as [Hnd Hel]. split; [done |].
      intros x Hin.
      destruct (Hel x Hin) as (xr & fe' & Hxr & Hst & Hfe' & Hid').
      exists xr, fe'. split_and!; [by apply Hold | done | done | done].
  - by apply (registryLive_heap s1).
Qed.

Lemma registryLive_dispatch (t f c : nat) (ph : Phase) (s : State) :
  attemptView s t = Some (f, ph) →
  identified s → registryLive s → registryLive (dispatch t f c s).
Proof.
  intros Hv [_ HW] Hs. unfold dispatch.
  destruct (HW t f ph Hv) as (fe & Hfe & Hid).
  assert (Hgo : registryLive
            (uploadChunk t f c (updAttempt t (with_running (λ n, n + 1)) s))).
  { apply registryLive_uploadChunk; [| by apply (registryLive_heap s)].
    exists fe. split; [done |]. unfold identifierSet in Hid. eauto. }
  destruct (chunkStatus s c) as [[]|]; done.
Qed.

Lemma registryLive_xhr_settle (x : nat) (xr : Xhr) (s : State) :
  xhrs s !! x = Some xr → xhr_state xr = Sent →
  registryLive s → registryLive (xhr_settle x xr s).
Proof.
  intros Hx Hst Hs. unfold xhr_settle.
  set (s1 := set_xhrs (alter (with_xhr_state Settled) x) s).
  assert (Hne : ∀ y xr', y ≠ x → xhrs s !! y = Some xr' →
            xhrs s1 !! y = Some xr').
  { intros y xr' Hy Hxr'. simpl. by rewrite list_lookup_alter_ne. }
  (* a list that does not mention the request is as good as before *)
  assert (Hkeep : ∀ key reqs,
            activeRequests s !! key = Some reqs → x ∉ reqs →
            NoDup reqs
            ∧ ∀ y, y ∈ reqs →
                ∃ xr' fe, xhrs s1 !! y = Some xr' ∧ xhr_state xr' = Sent
                  ∧ fileHeap s !! xhr_file xr' = Some fe
                  ∧ file_identifier fe = Some key).
  { intros key reqs Hk Hnotin. destruct (Hs key reqs Hk) as [Hnd Hel].
    split; [done |]. intros y Hin.
    destruct (Hel y Hin) as (xr' & fe & Hxr' & Hst' & Hfe & Hid).
    exists xr', fe. split_and!; [| done | done | done].
    apply Hne; [| done]. intros ->. done. }
  (* the request is listed under the identifier of its entry only *)
  assert (Hwhere : ∀ key reqs,
            activeRequests s !! key = Some reqs → x ∈ reqs →
            ∃ fe, fileHeap s !! xhr_file xr = Some fe
                  ∧ file_identifier fe = Some key).
  { intros key reqs Hk Hin. destruct (Hs key reqs Hk) as [_ Hel].
    destruct (Hel x Hin) as (xr' & fe & Hxr' & _ & Hfe & Hid).
    rewrite Hx in Hxr'. injection Hxr' as <-. eauto. }
  unfold deregister. change (fileHeap s1) with (fileHeap s).
  change (activeRequests s1) with (activeRequests s).
  destruct (fileHeap s !! xhr_file xr) as [fe|] eqn:Hfe.
  - destruct (activeRequests s !! prop_key (file_identifier fe))
      as [reqs0|] eqn:Hk0.
    + apply (registryLive_heap
               (set_activeRequests
                  <[prop_key (file_identifier fe) := remove_first x reqs0]>
                  s1)); [done | done | done |].
      intros key reqs. simpl. intros Hk.
      apply lookup_insert_Some in Hk as [[<- <-]|[Hnk Hk]].
      * destruct (Hs _ _ Hk0) as [Hnd Hel].
        destruct (remove_first_NoDup x reqs0 Hnd) as [Hnd' Hnotin].
        split; [done |]. intros y Hin.
        destruct (Hel y) as (xr' & fe' & Hxr' & Hst' & Hfe' & Hid');
          [by apply (remove_first_elem_of x) |].
        exists xr', fe'. split_and!; [| done | done | done].
        apply Hne; [| done]. intros ->. done.
      * apply Hkeep; [done |]. intros Hin.
        destruct (Hwhere key reqs Hk Hin) as (fe' & Hfe' & Hid').
        injection Hfe' as <-. rewrite Hid' in Hnk. done.
    + intros key reqs Hk. change (activeRequests s1) with (activeRequests s) in Hk.
      apply Hkeep; [done |]. intros Hin.
      destruct (Hwhere key reqs Hk Hin) as (fe' & Hfe' & Hid').
      injection Hfe' as <-. rewrite Hid' in Hk0. unfold prop_key in Hk0.
      simpl in Hk0. congruence.
  - intros key reqs Hk. change (activeRequests s1) with (activeRequests s) in Hk.
    apply Hkeep; [done |]. intros Hin.
    by destruct (Hwhere key reqs Hk Hin) as (fe' & Hfe' & _).
Qed.

Lemma registry_pieces props (e : Event) :
  Preserved props e (λ s, identified s ∧ registryLive s).
Proof.
  pose proof (identified_pieces props e) as HW.
  constructor.
  - intros s file [??]. split; [by_pieces HW |].
    by apply registryLive_addFile.
  - intros s [??]. split; [by_pieces HW |]. by apply (registryLive_heap s).
  - intros f s ?? [??]. split; [by_pieces HW |].
    by apply registryLive_uploadFile.
  - intros f s ?? [??]. split; [by_pieces HW |].
    by apply registryLive_retryUpload.
  - intros f s ?? [??]. split; [by_pieces HW |].
    by apply registryLive_cancelUpload.
  - intros index f s ??? [??]. split; [by_pieces HW |].
    by apply (registryLive_heap s).
  - intros s [??]. split; [by_pieces HW |]. by apply (registryLive_heap s).
  - intros t f u s ? [??]. split; [by_pieces HW |].
    by apply registryLive_updFile.
  - intros t f ph c s ??? [??]. split; [by_pieces HW |].
    by apply (registryLive_dispatch t f c ph).
  - intros t f ph pending s ?? [??]. split; [by_pieces HW |].
    by apply (registryLive_heap s).
  - intros t f ph s ?? [??]. split; [by_pieces HW |].
    by apply (registryLive_heap s).
  - intros x xr percent s ??? [??]. split; [by_pieces HW |].
    by apply (registryLive_heap s).
  - intros x xr s ?? [??]. split; [by_pieces HW |].
    by apply (registryLive_heap s).
  - intros x xr s ?? [??]. split; [by_pieces HW |].
    by apply (registryLive_heap s).
  - intros x xr s ?? [??]. split; [by_pieces HW |].
    unfold updateFileProgress.
    apply (registryLive_heap (updFile (xhr_file xr)
             (with_progress
                (Math_round_div
                   (foldl (λ sum c, sum + chunkProgress s c) 0
                      (fileChunks s (xhr_file xr)))
                   (Z.of_nat (length (fileChunks s (xhr_file xr)))))) s));
      [done | done | done |].
    by apply registryLive_updFile.
  - intros x xr s ?? [??]. split; [by_pieces HW |].
    by apply registryLive_xhr_settle.
  - intros t f s ??? [??]. split; [by_pieces HW |].
    unfold mergeChunks.
    apply (registryLive_heap s); [by case_match.. | done].
  - intros t f ph s ?? [??]. split; [by_pieces HW |].
    by apply registryLive_updFile.
  - intros t f ph err s ?? [??]. split; [by_pieces HW |].
    by apply (registryLive_heap s).
  - intros t f ph s ?? [??]. split; [by_pieces HW |].
    by apply (registryLive_heap s).
  - intros t f o result s ??? [??]. split; [by_pieces HW |].
    by apply registryLive_updFile.
  - intros t f o result s ??? [??]. split; [by_pieces HW |].
    by apply (registryLive_heap s).
  - intros t f o result s ???? [??]. split; [by_pieces HW |].
    by apply (registryLive_heap s).
Qed.

Lemma identified_init : identified init.
Proof.
  split.
  - by intros f fe.
  - by intros t f ph.
Qed.

(** X2.  In every state of a run the registry lists no request twice,
    and every request it lists is in flight: a request leaves the registry
    when it loads or fails, and a cancel empties the list it aborts. *)
Theorem X2_registry_holds_requests_in_flight props (events : list Event)
    (key : string) (reqs : list nat) (x : nat) :
  activeRequests (run props events init) !! key = Some reqs →
  x ∈ reqs →
  NoDup reqs
  ∧ xhr_state <$> xhrs (run props events init) !! x = Some Sent.
Proof.
  intros Hk Hin.
  assert (Hinv : identified (run props events init)
                 ∧ registryLive (run props events init)).
  { apply (pieces_reachable props
             (λ s, identified s ∧ registryLive s)).
    - split; [apply identified_init |]. intros k r. simpl.
      by rewrite lookup_empty.
    - apply registry_pieces.
    - by exists events. }
  destruct Hinv as [_ HR]. destruct (HR key reqs Hk) as [Hnd Hel].
  split; [done |]. destruct (Hel x Hin) as (xr & fe & -> & <- & _). done.
Qed.

(** ** Plans *)

Lemma sameEntry_refl (fe : FileEntry) : sameEntry fe fe.
Proof. by repeat split. Qed.

Lemma sameShape_heaps (s s' : State) :
  fileHeap s' = fileHeap s → chunkHeap s' = chunkHeap s → sameShape s s'.
Proof.
  intros Hf Hc. split.
  - intros f. rewrite Hf. destruct (fileHeap s !! f); [| done].
    apply sameEntry_refl.
  - intros c ch Hch. exists ch. by rewrite Hc.
Qed.

Lemma sameShape_trans (s1 s2 s3 : State) :
  sameShape s1 s2 → sameShape s2 s3 → sameShape s1 s3.
Proof.
  intros [Hf Hc] [Hf' Hc']. split.
  - intros f. specialize (Hf f). specialize (Hf' f).
    destruct (fileHeap s1 !! f) as [fe1|], (fileHeap s2 !! f) as [fe2|],
      (fileHeap s3 !! f) as [fe3|]; try done.
    + destruct Hf as (? & ? & ? & ? & ?), Hf' as (? & ? & ? & ? & ?).
      repeat split; congruence.
    + destruct Hf as [? ?], Hf' as (? & ? & ? & ? & ?).
      split; congruence.
  - intros c ch Hch. destruct (Hc c ch Hch) as (ch' & Hch' & ? & ? & ?).
    destruct (Hc' c ch' Hch') as (ch'' & Hch'' & ? & ? & ?).
    exists ch''. split_and!; congruence.
Qed.

Lemma sameShape_updFile (f : loc) (g : FileEntry → FileEntry) (s : State) :
  (∀ fe, sameEntry fe (g fe)) → sameShape s (updFile f g s).
Proof.
  intros Hg. split.
  - intros f'. unfold updFile. simpl. destruct (decide (f = f')) as [->|Hne].
    + rewrite list_lookup_alter_eq.
      destruct (fileHeap s !! f'); simpl; [apply Hg | done].
    + rewrite list_lookup_alter_ne by done.
      destruct (fileHeap s !! f'); [apply sameEntry_refl | done].
  - intros c ch Hch. by exists ch.
Qed.

Lemma sameShape_updChunk (c : loc) (g : Chunk → Chunk) (s : State) :
  (∀ ch, chunk_index (g ch) = chunk_index ch
         ∧ chunk_start (g ch) = chunk_start ch
         ∧ chunk_end (g ch) = chunk_end ch) →
  sameShape s (updChunk c g s).
Proof.
  intros Hg. split.
  - intros f. simpl. destruct (fileHeap s !! f); [apply sameEntry_refl | done].
  - intros c' ch Hch. unfold updChunk. simpl.
    destruct (decide (c = c')) as [->|Hne].
    + exists (g ch). rewrite list_lookup_alter_eq, Hch. split; [done |].
      apply Hg.
    + exists ch. by rewrite list_lookup_alter_ne.
Qed.

Lemma sameShape_more_chunks (more : list Chunk) (s : State) :
  sameShape s (set_chunkHeap (λ h, h ++ more) s).
Proof.
  split.
  - intros f. simpl. destruct (fileHeap s !! f); [apply sameEntry_refl | done].
  - intros c ch Hch. exists ch. split; [| done]. simpl.
    by apply lookup_app_l_Some.
Qed.

Lemma sameShape_keepsFiles (s s' : State) :
  sameShape s s' → keepsFiles s s'.
Proof.
  intros [Hf _] f fe Hfe. specialize (Hf f). rewrite Hfe in Hf.
  destruct (fileHeap s' !! f) as [fe'|]; [| done].
  destruct Hf as (? & ? & ? & _). by exists fe'.
Qed.

Lemma plannedChunk_frame props (s s' : State) (fe fe' : FileEntry)
    (i : nat) (c : loc) :
  keepsChunks s s' → file_size fe' = file_size fe →
  plannedChunk props s fe i c → plannedChunk props s' fe' i c.
Proof.
  intros Hc Hsz (ch & Hch & Hi & Hst & Hen).
  destruct (Hc c ch Hch) as (ch' & Hch' & Hi' & Hst' & Hen').
  exists ch'. rewrite Hsz. split_and!; congruence.
Qed.

Lemma chunksPlanned_frame props (s s' : State) :
  sameShape s s' → chunksPlanned props s → chunksPlanned props s'.
Proof.
  intros Hsh Hs f fe' Hfe'. pose proof Hsh as [Hf Hc]. specialize (Hf f).
  rewrite Hfe' in Hf. destruct (fileHeap s !! f) as [fe|] eqn:Hfe.
  - destruct Hf as (Hn & Hsz & Hty & Hcs & Hid).
    destruct (Hs f fe Hfe) as (H1 & H2 & H3).
    unfold entryPlanned, planSize. rewrite Hcs, Hid, Hsz.
    split_and!; [done | done |].
    intros i c Hi. by apply (plannedChunk_frame props s s' fe), H3.
  - destruct Hf as [Hid Hcs]. unfold entryPlanned. rewrite Hcs.
    split_and!; [done | congruence |]. by intros i c.
Qed.

Lemma pendingPlanned_frame props (s s' : State) :
  keepsFiles s s' → keepsChunks s s' →
  (∀ t f p, attemptView s' t = Some (f, SlotWait p) →
            attemptView s t = Some (f, SlotWait p)) →
  pendingPlanned props s → pendingPlanned props s'.
Proof.
  intros Hf Hc Hv Hs t f pending Hv'.
  destruct (Hs t f pending (Hv _ _ _ Hv')) as (fe & Hfe & Hp).
  destruct (Hf f fe Hfe) as (fe' & Hfe' & Hn & Hsz & _).
  exists fe'. split; [done |]. intros c Hin.
  destruct (Hp c Hin) as (i & Hi & Hpl). exists i. unfold planSize.
  rewrite Hsz. split; [done |].
  by apply (plannedChunk_frame props s s' fe).
Qed.

Lemma callFits_frame props (fe fe' : FileEntry) (c : Call) :
  file_name fe' = file_name fe → file_size fe' = file_size fe →
  file_type fe' = file_type fe →
  callFits props fe c → callFits props fe' c.
Proof.
  intros Hn Hsz Hty. unfold callFits, planSize.
  destruct c; by rewrite Hn, Hsz, ?Hty.
Qed.

Lemma callsFit_extend props (s s' : State) :
  keepsFiles s s' →
  (∀ t f ph, attemptView s t = Some (f, ph) →
             ∃ ph', attemptView s' t = Some (f, ph')) →
  (∀ t c, Net t c ∈ trace s' →
     Net t c ∈ trace s
     ∨ ∃ f ph fe, attemptView s' t = Some (f, ph)
         ∧ fileHeap s' !! f = Some fe ∧ callFits props fe c) →
  callsFit props s → callsFit props s'.
Proof.
  intros Hf Hv Ht Hs t c Hin.
  destruct (Ht t c Hin) as [Hold|Hnew]; [| done].
  destruct (Hs t c Hold) as (f & ph & fe & Hvt & Hfe & Hfit).
  destruct (Hv t f ph Hvt) as [ph' Hvt'].
  destruct (Hf f fe Hfe) as (fe' & Hfe' & Hn & Hsz & Hty).
  exists f, ph', fe'. split_and!; [done | done |].
  by apply (callFits_frame props fe).
Qed.

Lemma callsFit_frame props (s s' : State) :
  keepsFiles s s' →
  (∀ t f ph, attemptView s t = Some (f, ph) →
             ∃ ph', attemptView s' t = Some (f, ph')) →
  (∀ t c, Net t c ∈ trace s' → Net t c ∈ trace s) →
  callsFit props s → callsFit props s'.
Proof.
  intros Hf Hv Ht. apply callsFit_extend; [done | done |].
  intros t c Hin. left. by apply Ht.
Qed.

Lemma entryPlanned_frame props (s s' : State) (fe : FileEntry) :
  keepsChunks s s' → entryPlanned props s fe → entryPlanned props s' fe.
Proof.
  intros Hc (H1 & H2 & H3). split_and!; [done | done |].
  intros i c Hi. by apply (plannedChunk_frame props s s' fe), H3.
Qed.

Lemma quiet_calls (s s' : State) (t : nat) (c : Call) :
  quiet s s' → Net t c ∈ trace s' → Net t c ∈ trace s.
Proof.
  intros (_ & _ & added & Ht & Hc). rewrite Ht.
  intros [Hin|Hin]%elem_of_app; [done |].
  apply elem_of_callsOf in Hin. rewrite Hc in Hin.
  by apply elem_of_nil in Hin.
Qed.

(** Quiet code that leaves the plans alone keeps all three parts. *)
Lemma planned_frame props (s s' : State) :
  sameShape s s' → quiet s s' → planned props s → planned props s'.
Proof.
  intros Hsh Hq (H1 & H2 & H3). pose proof Hq as (_ & Hv & _).
  pose proof (sameShape_keepsFiles _ _ Hsh) as Hkf. pose proof Hsh as [_ Hkc].
  split_and!.
  - by apply (chunksPlanned_frame props s).
  - apply (pendingPlanned_frame props s); [done | done | | done].
    intros t f p. by rewrite Hv.
  - apply (callsFit_frame props s); [done | | | done].
    + intros t f ph. rewrite Hv. eauto.
    + intros t c. by apply quiet_calls.
Qed.

(** A change of suspension point that is not a wait for a slot. *)
Lemma planned_phase props (t : nat) (ph : Phase) (s : State) :
  (∀ p, ph ≠ SlotWait p) →
  planned props s → planned props (updAttempt t (with_phase ph) s).
Proof.
  intros Hph (H1 & H2 & H3).
  assert (Hsh : sameShape s (updAttempt t (with_phase ph) s))
    by by apply sameShape_heaps.
  pose proof (sameShape_keepsFiles _ _ Hsh) as Hkf. pose proof Hsh as [_ Hkc].
  split_and!.
  - by apply (chunksPlanned_frame props s).
  - apply (pendingPlanned_frame props s); [done | done | | done].
    intros t' f p. rewrite attemptView_with_phase. case_decide; [| done].
    destruct (attemptView s t') as [[f0 ph0]|]; [| done].
    simpl. intros [= <- ->]. by destruct (Hph p).
  - apply (callsFit_frame props s); [done | | done | done].
    intros t' f ph0 Hv. rewrite attemptView_with_phase, Hv.
    case_decide; simpl; eauto.
Qed.

Lemma sameShape_addFile props (s : State) (file : RawFile) :
  sameShape s (addFile props s file).
Proof.
  unfold addFile. case_decide; [by apply sameShape_heaps |].
  split; [| intros c ch Hch; by exists ch].
  intros f. simpl. destruct (fileHeap s !! f) as [fe|] eqn:Hfe.
  - rewrite (lookup_app_l_Some _ _ _ _ Hfe). apply sameEntry_refl.
  - apply lookup_ge_None in Hfe. rewrite lookup_app_r by done.
    by destruct (f - length (fileHeap s))%nat as [|[|n]].
Qed.

Lemma sameShape_cancelUpload (f : loc) (s : State) :
  sameShape s (cancelUpload f s).
Proof.
  pose proof (cancelUpload_fileHeap f s) as Hf.
  pose proof (cancelUpload_chunkHeap f s) as Hc.
  destruct (fileHeap s !! f) as [fe|] eqn:Hfe;
    [| by apply sameShape_heaps].
  case_decide; [| by apply sameShape_heaps].
  apply (sameShape_trans _
           (updFile f (λ fe, with_progress (JNum 0) (with_status error fe))
              s)).
  - apply sameShape_updFile. intros fe'. by repeat split.
  - by apply sameShape_heaps.
Qed.

Lemma sameShape_updateFileProgress (f : loc) (s : State) :
  sameShape s (updateFileProgress f s).
Proof.
  unfold updateFileProgress.
  apply (sameShape_trans _
           (updFile f
              (with_progress
                 (Math_round_div
                    (foldl (λ sum c, sum + chunkProgress s c) 0
                       (fileChunks s f))
                    (Z.of_nat (length (fileChunks s f))))) s)).
  - apply sameShape_updFile. intros fe'. by repeat split.
  - by apply sameShape_heaps.
Qed.

(** The chunks a dispatch loop takes belong to the plan of its entry. *)
Lemma loopSource_planned props (t f : nat) (ph : Phase) (pending : list loc)
    (s : State) :
  identified s → planned props s →
  attemptView s t = Some (f, ph) → loopSource s f ph pending →
  ∃ fe, fileHeap s !! f = Some fe
    ∧ ∀ c, c ∈ pending →
        ∃ i, (i < planSize props fe)%nat ∧ plannedChunk props s fe i c.
Proof.
  intros [_ HW] (H1 & H2 & _) Hv [[-> Hsub]|(p & -> & Hsub)].
  - destruct (HW t f _ Hv) as (fe & Hfe & Hid). exists fe. split; [done |].
    intros c Hin. apply Hsub in Hin. unfold fileChunks in Hin.
    rewrite Hfe in Hin. simpl in Hin.
    apply list_elem_of_lookup in Hin as [i Hi].
    destruct (H1 f fe Hfe) as (_ & Hlen & Hpl).
    exists i. split; [| by apply Hpl].
    rewrite <-Hlen; [by apply lookup_lt_Some in Hi |].
    unfold identifierSet in Hid. congruence.
  - destruct (H2 t f p Hv) as (fe & Hfe & Hp). exists fe. split; [done |].
    intros c Hin. by apply Hp, Hsub.
Qed.

Lemma keepsChunks_refl (s s' : State) :
  chunkHeap s' = chunkHeap s → keepsChunks s s'.
Proof. intros Hc c ch Hch. exists ch. by rewrite Hc. Qed.

Lemma keepsFiles_refl (s s' : State) :
  fileHeap s' = fileHeap s → keepsFiles s s'.
Proof. intros Hf f fe Hfe. exists fe. by rewrite Hf. Qed.

Lemma keepsFiles_trans (s1 s2 s3 : State) :
  keepsFiles s1 s2 → keepsFiles s2 s3 → keepsFiles s1 s3.
Proof.
  intros H12 H23 f fe Hfe.
  destruct (H12 f fe Hfe) as (fe2 & Hfe2 & ? & ? & ?).
  destruct (H23 f fe2 Hfe2) as (fe3 & Hfe3 & ? & ? & ?).
  exists fe3. split_and!; congruence.
Qed.

Lemma keepsChunks_trans (s1 s2 s3 : State) :
  keepsChunks s1 s2 → keepsChunks s2 s3 → keepsChunks s1 s3.
Proof.
  intros H12 H23 c ch Hch.
  destruct (H12 c ch Hch) as (ch2 & Hch2 & ? & ? & ?).
  destruct (H23 c ch2 Hch2) as (ch3 & Hch3 & ? & ? & ?).
  exists ch3. split_and!; congruence.
Qed.

(** [uploadFile] installs the plan of its entry, whatever the chunk list
    of the entry was before. *)
Lemma planned_uploadFile props (f : loc) (s : State) :
  (∀ f' fe', f' ≠ f → fileHeap s !! f' = Some fe' →
     entryPlanned props s fe') →
  pendingPlanned props s → callsFit props s →
  planned props (uploadFile props f s).
Proof.
  intros H1 H2 H3.
  destruct (fileHeap s !! f) as [fe|] eqn:Hfe; last first.
  { unfold uploadFile. rewrite Hfe. split_and!; [| done | done].
    intros f' fe' Hfe'. apply (H1 f'); [| done]. intros ->. congruence. }
  destruct (uploadFile_spec props f s fe Hfe)
    as (_ & Hf & Hother & Hc & _ & _ & Ha & Ht).
  set (s' := uploadFile props f s) in *.
  set (plan := planChunks (file_size fe) (chunkBytes props)) in *.
  assert (Hkc : keepsChunks s s').
  { intros c ch Hch. exists ch. rewrite Hc. split; [| done].
    by apply lookup_app_l_Some. }
  assert (Hkf : keepsFiles s s').
  { intros f' fe' Hfe'. destruct (decide (f' = f)) as [->|Hne].
    - rewrite Hfe in Hfe'. injection Hfe' as <-. eexists. by split.
    - exists fe'. by rewrite Hother. }
  assert (Hview : ∀ t f' ph, attemptView s t = Some (f', ph) →
            attemptView s' t = Some (f', ph)).
  { intros t f' ph. unfold attemptView. rewrite Ha.
    destruct (attempts s !! t) as [a|] eqn:Hat; [| done].
    by rewrite (lookup_app_l_Some _ _ _ _ Hat). }
  split_and!.
  - intros f' fe'. destruct (decide (f' = f)) as [->|Hne].
    + rewrite Hf. intros [= <-]. split_and!; [done | |]; simpl.
      * intros _. by rewrite length_seq.
      * intros i c Hi. apply lookup_seq in Hi as [-> Hi].
        exists (planChunk (file_size fe) (chunkBytes props) i).
        split; [| done]. rewrite Hc, lookup_app_r by lia.
        rewrite <-(planChunks_lookup _ _ i Hi). f_equal. lia.
    + rewrite Hother by done. intros Hfe'.
      apply (entryPlanned_frame props s); [done |]. by apply (H1 f').
  - apply (pendingPlanned_frame props s); [done | done | | done].
    intros t f' p Hv.
    by apply (attemptView_push s s' _ t f' _ Ha) in Hv as [Hv|(_ & _ & ?)].
  - apply (callsFit_extend props s); [done | | | done].
    + intros t f' ph Hv. exists ph. by apply Hview.
    + intros t c. rewrite Ht.
      intros [Hin|Hin]%elem_of_app; [by left | right].
      apply list_elem_of_singleton in Hin. injection Hin as -> ->.
      exists f, CreatePending. eexists. split_and!; [| exact Hf |].
      * unfold attemptView. rewrite Ha, lookup_app_r by done.
        by rewrite Nat.sub_diag.
      * simpl. unfold planSize. simpl. by split_and!.
Qed.

Lemma planned_retryUpload props (f : loc) (s : State) :
  planned props s → planned props (retryUpload props f s).
Proof.
  intros (H1 & H2 & H3). unfold retryUpload.
  set (s1 := updFile f (with_progress (JNum 0)) s).
  set (copies := omap _ _).
  set (s3 := updFile f (with_chunks _) (set_chunkHeap _ s1)).
  assert (Hkc : keepsChunks s s3).
  { intros c ch Hch. exists ch. split; [| done]. simpl.
    by apply lookup_app_l_Some. }
  assert (Hkf : keepsFiles s s3).
  { intros f' fe' Hfe'. simpl. destruct (decide (f = f')) as [->|Hne].
    - rewrite !list_lookup_alter_eq, Hfe'. simpl. eexists. by split.
    - rewrite !list_lookup_alter_ne by done. by exists fe'. }
  apply planned_uploadFile.
  - intros f' fe' Hne. simpl. rewrite !list_lookup_alter_ne by done.
    intros Hfe'. apply (entryPlanned_frame props s); [done |].
    by apply (H1 f').
  - by apply (pendingPlanned_frame props s).
  - apply (callsFit_frame props s); [done | | done | done].
    intros t f' ph Hv. by exists ph.
Qed.

Lemma planned_uploadChunk props (t f c : nat) (ph : Phase) (s : State) :
  attemptView s t = Some (f, ph) →
  (∃ fe, fileHeap s !! f = Some fe
     ∧ ∃ i, (i < planSize props fe)%nat ∧ plannedChunk props s fe i c) →
  planned props s → planned props (uploadChunk t f c s).
Proof.
  intros Hv (fe & Hfe & i & Hi & Hpl) Hs. unfold uploadChunk.
  set (s1 := updChunk c (chunk_with_status uploading) s).
  assert (Hsh1 : sameShape s s1) by by apply sameShape_updChunk.
  assert (Hs1 : planned props s1).
  { apply (planned_frame props s); [done | apply quiet_updChunk | done]. }
  assert (Hpl1 : plannedChunk props s1 fe i c).
  { apply (plannedChunk_frame props s s1 fe); [apply Hsh1 | done | done]. }
  change (fileHeap s1 !! f) with (fileHeap s !! f). rewrite Hfe.
  destruct Hpl1 as (ch & Hch & Hidx & Hst & Hen). rewrite Hch.
  destruct (activeRequests s1 !! prop_key (file_identifier fe)).
  - destruct Hs1 as (H1 & H2 & H3). split_and!.
    + apply (chunksPlanned_frame props s1); [by apply sameShape_heaps | done].
    + apply (pendingPlanned_frame props s1);
        [by apply keepsFiles_refl | by apply keepsChunks_refl | done | done].
    + apply (callsFit_extend props s1); [by apply keepsFiles_refl | | | done].
      * intros t' f' ph'. eauto.
      * intros t' c'. simpl.
        intros [Hin|Hin]%elem_of_app; [by left | right].
        apply list_elem_of_singleton in Hin. injection Hin as -> ->.
        exists f, ph, fe. split_and!; [done | done |].
        simpl. rewrite Hidx. by split_and!.
  - apply (planned_frame props s1);
      [by apply sameShape_heaps | apply quiet_running | done].
Qed.

Lemma planned_dispatch props (t f c : nat) (ph : Phase) (s : State) :
  attemptView s t = Some (f, ph) → loopSource s f ph [c] →
  identified s → planned props s → planned props (dispatch t f c s).
Proof.
  intros Hv Hsrc HW Hs. unfold dispatch.
  destruct (loopSource_planned props t f ph [c] s HW Hs Hv Hsrc)
    as (fe & Hfe & Hp).
  assert (Hgo : planned props
            (uploadChunk t f c (updAttempt t (with_running (λ n, n + 1)) s))).
  { set (s0 := updAttempt t (with_running (λ n, n + 1)) s).
    assert (Hq : quiet s s0) by apply quiet_running.
    apply (planned_uploadChunk props t f c ph).
    - destruct Hq as (_ & Hv0 & _). by rewrite Hv0.
    - exists fe. split; [done |].
      destruct (Hp c) as (i & Hi & Hpl); [by left |].
      exists i. split; [done |].
      apply (plannedChunk_frame props s _ fe);
        [by apply keepsChunks_refl | done..].
    - apply (planned_frame props s); [by apply sameShape_heaps | done..]. }
  destruct (chunkStatus s c) as [[]|]; done.
Qed.

Lemma planned_slot_wait props (t f : nat) (ph : Phase) (pending : list loc)
    (s : State) :
  attemptView s t = Some (f, ph) → loopSource s f ph pending →
  identified s → planned props s →
  planned props (updAttempt t (with_phase (SlotWait pending)) s).
Proof.
  intros Hv Hsrc HW Hs.
  destruct (loopSource_planned props t f ph pending s HW Hs Hv Hsrc)
    as (fe & Hfe & Hp).
  destruct Hs as (H1 & H2 & H3). split_and!.
  - apply (chunksPlanned_frame props s); [by apply sameShape_heaps | done].
  - intros t' f' p. rewrite attemptView_with_phase.
    case_decide as Ht; [subst t' | apply H2].
    rewrite Hv. simpl. intros [= <- <-]. exists fe. split; [done |].
    intros c Hin. destruct (Hp c Hin) as (i & Hi & Hpl). exists i.
    split; [done |].
    apply (plannedChunk_frame props s _ fe);
      [by apply keepsChunks_refl | done..].
  - apply (callsFit_frame props s); [by apply keepsFiles_refl | | done | done].
    intros t' f' ph' Hv'. rewrite attemptView_with_phase, Hv'.
    case_decide; simpl; eauto.
Qed.

Lemma planned_mergeChunks props (t f : nat) (s : State) :
  attemptView s t = Some (f, JoinPolling) →
  identified s → planned props s → planned props (mergeChunks props t f s).
Proof.
  intros Hv [_ HW] Hs. unfold mergeChunks.
  destruct (HW t f _ Hv) as (fe & Hfe & Hid). rewrite Hfe.
  set (s1 := observe _ s).
  assert (Hs1 : planned props s1).
  { destruct Hs as (H1 & H2 & H3). split_and!.
    - apply (chunksPlanned_frame props s); [by apply sameShape_heaps | done].
    - apply (pendingPlanned_frame props s);
        [by apply keepsFiles_refl | by apply keepsChunks_refl | done | done].
    - apply (callsFit_extend props s); [by apply keepsFiles_refl | | | done].
      + intros t' f' ph'. eauto.
      + intros t' c'. simpl.
        intros [Hin|Hin]%elem_of_app; [by left | right].
        apply list_elem_of_singleton in Hin. injection Hin as -> ->.
        exists f, JoinPolling, fe. split_and!; [done | done |].
        simpl. split_and!; [done | | done].
        destruct (H1 f fe Hfe) as (_ & Hlen & _). apply Hlen.
        unfold identifierSet in Hid. congruence. }
  by apply planned_phase.
Qed.

Lemma planned_pieces props (e : Event) :
  Preserved props e (λ s, identified s ∧ planned props s).
Proof.
  pose proof (identified_pieces props e) as HW.
  constructor.
  - intros s file [??]. split; [by_pieces HW |].
    apply (planned_frame props s);
      [apply sameShape_addFile | apply quiet_addFile | done].
  - intros s [??]. split; [by_pieces HW |].
    apply (planned_frame props s);
      [by apply sameShape_heaps | apply quiet_emit | done].
  - intros f s ?? [? (H1 & H2 & H3)]. split; [by_pieces HW |].
    apply planned_uploadFile; [| done | done].
    intros f' fe' _. apply H1.
  - intros f s ?? [??]. split; [by_pieces HW |].
    by apply planned_retryUpload.
  - intros f s ?? [??]. split; [by_pieces HW |].
    apply (planned_frame props s);
      [apply sameShape_cancelUpload | apply quiet_cancelUpload | done].
  - intros index f s ??? [??]. split; [by_pieces HW |].
    apply (planned_frame props s);
      [by apply sameShape_heaps | apply quiet_set_fileList | done].
  - intros s [??]. split; [by_pieces HW |].
    apply (planned_frame props s);
      [by apply sameShape_heaps | apply quiet_set_fileList | done].
  - intros t f u s ? [??]. split; [by_pieces HW |].
    apply (planned_frame props s);
      [by apply sameShape_updFile | apply quiet_updFile | done].
  - intros t f ph c s ??? [??]. split; [by_pieces HW |].
    by apply (planned_dispatch props t f c ph).
  - intros t f ph pending s ?? [??]. split; [by_pieces HW |].
    by apply (planned_slot_wait props t f ph).
  - intros t f ph s ?? [??]. split; [by_pieces HW |].
    by apply planned_phase.
  - intros x xr percent s ??? [??]. split; [by_pieces HW |].
    apply (planned_frame props s);
      [by apply sameShape_updChunk | apply quiet_updChunk | done].
  - intros x xr s ?? [??]. split; [by_pieces HW |].
    apply (planned_frame props s);
      [by apply sameShape_updChunk | apply quiet_updChunk | done].
  - intros x xr s ?? [??]. split; [by_pieces HW |].
    apply (planned_frame props s);
      [by apply sameShape_updChunk | apply quiet_updChunk | done].
  - intros x xr s ?? [??]. split; [by_pieces HW |].
    apply (planned_frame props s);
      [apply sameShape_updateFileProgress | apply quiet_updateFileProgress
      | done].
  - intros x xr s ?? [??]. split; [by_pieces HW |].
    apply (planned_frame props s);
      [apply sameShape_heaps; apply xhr_settle_heaps | apply quiet_xhr_settle
      | done].
  - intros t f s ??? [??]. split; [by_pieces HW |].
    by apply planned_mergeChunks.
  - intros t f ph s ?? [??]. split; [by_pieces HW |].
    apply (planned_frame props s);
      [by apply sameShape_updFile | apply quiet_updFile | done].
  - intros t f ph err s ?? [??]. split; [by_pieces HW |].
    apply (planned_frame props s);
      [by apply sameShape_heaps | apply quiet_emit | done].
  - intros t f ph s ?? [??]. split; [by_pieces HW |].
    by apply planned_phase.
  - intros t f o result s ??? [??]. split; [by_pieces HW |].
    apply (planned_frame props s);
      [by apply sameShape_updFile | apply quiet_updFile | done].
  - intros t f o result s ??? [??]. split; [by_pieces HW |].
    apply (planned_frame props s);
      [by apply sameShape_heaps | apply quiet_emit | done].
  - intros t f o result s ???? [??]. split; [by_pieces HW |].
    apply (planned_frame props s);
      [by apply sameShape_heaps | apply quiet_emit | done].
Qed.

Lemma planned_reachable props (s : State) :
  reachable props s → identified s ∧ planned props s.
Proof.
  apply (pieces_reachable props (λ s, identified s ∧ planned props s)).
  - split; [apply identified_init |]. split_and!.
    + by intros f fe.
    + by intros t f p.
    + intros t c Hin. by apply elem_of_nil in Hin.
  - apply planned_pieces.
Qed.

(** X3.  In every state of a run an entry without identifier (it was
    never started) has no chunks; an entry with an identifier has
    [ceil(size / chunkSize)] chunks; and chunk number [i] of any entry
    carries index [i] and the range [[i*c, min((i+1)*c, size))].  Handlers
    change the progress and the status of a chunk, never its place in the
    plan. *)
Theorem X3_chunk_lists_stay_planned props (events : list Event) (f : loc)
    (fe : FileEntry) :
  let s := run props events init in
  fileHeap s !! f = Some fe →
  (file_identifier fe = None → file_chunks fe = [])
  ∧ (file_identifier fe ≠ None →
     length (file_chunks fe)
     = Z.to_nat (Math_ceil_div (file_size fe) (chunkBytes props)))
  ∧ ∀ i c, file_chunks fe !! i = Some c →
      ∃ ch, chunkHeap s !! c = Some ch ∧ chunk_index ch = i
        ∧ chunk_start ch = Z.of_nat i * chunkBytes props
        ∧ chunk_end ch
          = Z.min ((Z.of_nat i + 1) * chunkBytes props) (file_size fe).
Proof.
  intros s Hfe.
  destruct (planned_reachable props s) as [_ (H1 & _)]; [by exists events |].
  destruct (H1 f fe Hfe) as (Ha & Hb & Hc). split_and!; [done | | done].
  intros Hid. rewrite <-planChunks_length. by apply Hb.
Qed.

(** X4.  Every call in the trace of a run belongs to an attempt and
    agrees with the entry of that attempt: the create call carries its
    name, size and type, the chunk size in bytes, the number of chunks of
    the plan and the extra data; a chunk call its name, an index below the
    number of chunks and the byte range of that index; the complete call
    its name, the number of chunks and the extra data. *)
Theorem X4_calls_fit_their_entry props (events : list Event) (t : nat)
    (c : Call) :
  let s := run props events init in
  Net t c ∈ trace s →
  ∃ f ph fe, attemptView s t = Some (f, ph) ∧ fileHeap s !! f = Some fe
    ∧ callFits props fe c.
Proof.
  intros s Hin.
  destruct (planned_reachable props s) as [_ (_ & _ & H3)];
    [by exists events |].
  by apply H3.
Qed.

Lemma planSize_bound props (fe : FileEntry) (i : nat) :
  (i < planSize props fe)%nat →
  Z.of_nat i * chunkBytes props < file_size fe.
Proof.
  unfold planSize. rewrite planChunks_length. intros Hi.
  assert (Hcb : 0 < chunkBytes props) by (unfold chunkBytes; lia).
  pose proof (Math_ceil_div_bounds (file_size fe) (chunkBytes props) Hcb)
    as [Hlo _].
  nia.
Qed.

(** X5.  Every chunk call of a run carries a slice that is not empty,
    lies within the file of its attempt and is at most one chunk size
    long. *)
Theorem X5_chunk_slices_are_within_the_file props (events : list Event)
    (t : nat) (u : option string) (i : nat) (slice_start slice_end : Z)
    (filename : string) :
  let s := run props events init in
  Net t (ChunkCall u i slice_start slice_end filename) ∈ trace s →
  ∃ f ph fe, attemptView s t = Some (f, ph) ∧ fileHeap s !! f = Some fe
    ∧ 0 ≤ slice_start ∧ slice_start < slice_end
    ∧ slice_end ≤ file_size fe
    ∧ slice_end - slice_start ≤ chunkBytes props.
Proof.
  intros s Hin.
  destruct (planned_reachable props s) as [_ (_ & _ & H3)];
    [by exists events |].
  destruct (H3 _ _ Hin) as (f & ph & fe & Hv & Hfe & Hfit).
  exists f, ph, fe. split_and!; [done | done | ..];
    destruct Hfit as (_ & Hi & -> & ->);
    pose proof (planSize_bound props fe i Hi);
    assert (0 < chunkBytes props) by (unfold chunkBytes; lia); lia.
Qed.

(** ** The sequence of calls of an attempt *)

Lemma sequenced_quiet (s s' : State) :
  quiet s s' → sequenced s → sequenced s'.
Proof.
  intros (_ & Hv & added & Ht & Hc) Hs t. specialize (Hs t).
  by rewrite Hv, Ht, callsOf_app, Hc, app_nil_r.
Qed.

Lemma calls_sequence_phase (ph ph' : Phase) (cs : list Call) :
  (ph = CreatePending ∨ (∃ p, ph = SlotWait p) ∨ ph = JoinPolling
   ∨ ph' = MergePending ∨ ph' = Finished) →
  calls_sequence ph cs → calls_sequence ph' cs.
Proof.
  intros Hph (c & rest & tail & -> & Hc & Hrest & Htail).
  exists c, rest, tail. split_and!; [done | done | done |].
  destruct ph, ph'; simpl in *; auto;
    exfalso; by destruct Hph as [?|[[? ?]|[?|[?|?]]]].
Qed.

Lemma sequenced_phase (t f : nat) (ph ph' : Phase) (s : State) :
  attemptView s t = Some (f, ph) →
  (ph = CreatePending ∨ (∃ p, ph = SlotWait p) ∨ ph = JoinPolling
   ∨ ph' = MergePending ∨ ph' = Finished) →
  sequenced s → sequenced (updAttempt t (with_phase ph') s).
Proof.
  intros Hv Hph Hs t'. specialize (Hs t').
  rewrite attemptView_with_phase. case_decide as Ht; [subst t' | done].
  rewrite Hv in Hs. rewrite Hv. simpl.
  by apply (calls_sequence_phase ph).
Qed.

Lemma sequenced_uploadFile props (f : loc) (s : State) :
  sequenced s → sequenced (uploadFile props f s).
Proof.
  intros Hs.
  destruct (fileHeap s !! f) as [fe|] eqn:Hfe;
    [| unfold uploadFile; by rewrite Hfe].
  destruct (uploadFile_spec props f s fe Hfe)
    as (_ & _ & _ & _ & _ & _ & Ha & Ht).
  intros t. specialize (Hs t). rewrite Ht, callsOf_app. simpl.
  unfold attemptView in *. rewrite Ha.
  destruct (decide (length (attempts s) = t)) as [<-|Hne].
  - rewrite lookup_app_r, Nat.sub_diag by done. simpl.
    rewrite (lookup_ge_None_2 (attempts s)) in Hs by done. simpl in Hs.
    rewrite Hs. simpl. eexists _, [], []. by split_and!.
  - rewrite app_nil_r.
    destruct (attempts s !! t) as [a|] eqn:Hat.
    + by rewrite (lookup_app_l_Some _ _ _ _ Hat).
    + apply lookup_ge_None in Hat. rewrite lookup_app_r by done.
      destruct (t - length (attempts s))%nat as [|n] eqn:Hd; [lia | done].
Qed.

Lemma sequenced_dispatch (t f c : nat) (ph : Phase) (s : State) :
  attemptView s t = Some (f, ph) →
  ph = CreatePending ∨ (∃ p, ph = SlotWait p) →
  sequenced s → sequenced (dispatch t f c s).
Proof.
  intros Hv Hph Hs t'. specialize (Hs t').
  destruct (dispatch_effect t f c s) as (_ & Hv' & added & Ht & Hc & Hk).
  rewrite Hv', Ht, callsOf_app.
  destruct (decide (t' = t)) as [->|Hne]; [| by rewrite Hc, app_nil_r].
  rewrite Hv in Hs. rewrite Hv.
  destruct Hs as (c0 & rest & tail & -> & Hc0 & Hrest & Htail).
  assert (tail = []) as -> by (by destruct Hph as [->|[p ->]]).
  exists c0, (rest ++ callsOf t added), []. rewrite !app_nil_r.
  split_and!; [done | done | by apply Forall_app |].
  by destruct Hph as [->|[p ->]].
Qed.

Lemma sequenced_mergeChunks props (t f : nat) (s : State) :
  attemptView s t = Some (f, JoinPolling) →
  sequenced s → sequenced (mergeChunks props t f s).
Proof.
  intros Hv Hs. unfold mergeChunks.
  destruct (fileHeap s !! f) as [fe|]; last first.
  { apply (sequenced_phase t f JoinPolling); auto. }
  intros t'. specialize (Hs t'). rewrite attemptView_with_phase.
  change (attemptView (observe _ s) t') with (attemptView s t').
  simpl. rewrite callsOf_app. simpl.
  destruct (decide (t = t')) as [<-|Hne].
  - rewrite Hv in Hs. rewrite Hv. simpl.
    destruct Hs as (c0 & rest & tail & -> & Hc0 & Hrest & ->).
    eexists c0, rest, [_]. rewrite app_nil_r.
    split_and!; [done | done | done |]. right. eauto.
  - by rewrite app_nil_r.
Qed.

Lemma sequenced_pieces props (e : Event) : Preserved props e sequenced.
Proof.
  constructor.
  - intros s file. apply sequenced_quiet, quiet_addFile.
  - intros s. apply sequenced_quiet, quiet_emit.
  - intros f s _ _. apply sequenced_uploadFile.
  - intros f s _ _ Hs. unfold retryUpload. apply sequenced_uploadFile.
    revert Hs. apply sequenced_quiet.
    apply quiet_then; [apply quiet_updFile |].
    apply quiet_then; [apply quiet_set_chunkHeap | apply quiet_updFile].
  - intros f s _ _. apply sequenced_quiet, quiet_cancelUpload.
  - intros index f s _ _ _. apply sequenced_quiet, quiet_set_fileList.
  - intros s. apply sequenced_quiet, quiet_set_fileList.
  - intros t f u s _. apply sequenced_quiet, quiet_updFile.
  - intros t f ph c s Hv _ [[-> _]|(p & -> & _)];
      apply (sequenced_dispatch t f c _ s Hv); eauto.
  - intros t f ph pending s Hv [[-> _]|(p & -> & _)];
      apply (sequenced_phase t f _ _ s Hv); eauto.
  - intros t f ph s Hv [->|[p ->]];
      apply (sequenced_phase t f _ _ s Hv); eauto.
  - intros x xr percent s _ _ _. apply sequenced_quiet, quiet_updChunk.
  - intros x xr s _ _. apply sequenced_quiet, quiet_updChunk.
  - intros x xr s _ _. apply sequenced_quiet, quiet_updChunk.
  - intros x xr s _ _. apply sequenced_quiet, quiet_updateFileProgress.
  - intros x xr s _ _. apply sequenced_quiet, quiet_xhr_settle.
  - intros t f s _ Hv _. by apply sequenced_mergeChunks.
  - intros t f ph s _ _. apply sequenced_quiet, quiet_updFile.
  - intros t f ph err s _ _. apply sequenced_quiet, quiet_emit.
  - intros t f ph s Hv _. apply (sequenced_phase t f ph); auto 10.
  - intros t f o result s _ _ _. apply sequenced_quiet, quiet_updFile.
  - intros t f o result s _ _ _. apply sequenced_quiet, quiet_emit.
  - intros t f o result s _ _ _ _. apply sequenced_quiet, quiet_emit.
Qed.

(** X6.  The calls of an attempt are, in order: one create call, then
    chunk calls only, then at most one complete call, which is the last
    call of the attempt. *)
Theorem X6_one_create_then_chunks_then_one_complete props
    (events : list Event) (t : nat) :
  let cs := callsOf t (trace (run props events init)) in
  cs = []
  ∨ ∃ c rest tail, cs = c :: rest ++ tail ∧ is_create_call c = true
      ∧ Forall (λ c, is_chunk_call c = true) rest
      ∧ (tail = [] ∨ ∃ c', tail = [c'] ∧ is_complete_call c' = true).
Proof.
  intros cs.
  assert (Hs : sequenced (run props events init)).
  { apply (pieces_reachable props sequenced).
    - by intros t'.
    - apply sequenced_pieces.
    - by exists events. }
  specialize (Hs t). fold cs in Hs.
  destruct (attemptView (run props events init) t) as [[f ph]|]; [| by left].
  right. destruct Hs as (c & rest & tail & Hcs & Hc & Hrest & Htail).
  exists c, rest, tail. split_and!; [done | done | done |].
  destruct ph; auto.
Qed.

(** ** Who reports a finished upload *)

Lemma rns_same (s s' : State) : trace s' = trace s → reportsNoSuccess s s'.
Proof. intros Ht. exists []. by rewrite app_nil_r. Qed.

Lemma rns_one (s s' : State) (o : Obs) :
  trace s' = trace s ++ [o] → is_success_event o = false →
  reportsNoSuccess s s'.
Proof. intros Ht Ho. exists [o]. split; [done |]. by constructor. Qed.

Lemma rns_trans (s1 s2 s3 : State) :
  reportsNoSuccess s1 s2 → reportsNoSuccess s2 s3 → reportsNoSuccess s1 s3.
Proof.
  intros (a & Ha & Hqa) (b & Hb & Hqb). exists (a ++ b). split.
  - by rewrite Hb, Ha, <-app_assoc.
  - by apply Forall_app.
Qed.

Lemma rns_uploadFile props (f : loc) (s : State) :
  reportsNoSuccess s (uploadFile props f s).
Proof.
  destruct (fileHeap s !! f) as [fe|] eqn:Hfe;
    [| unfold uploadFile; rewrite Hfe; by apply rns_same].
  destruct (uploadFile_spec props f s fe Hfe)
    as (_ & _ & _ & _ & _ & _ & _ & Ht).
  by eapply rns_one.
Qed.

Lemma rns_cancelUpload (f : loc) (s : State) :
  reportsNoSuccess s (cancelUpload f s).
Proof.
  apply rns_same. unfold cancelUpload. repeat case_match; try done.
  simpl. by destruct (abortAll_frame l s) as (_ & _ & _ & _ & _ & ->).
Qed.

Lemma rns_dispatch (t f c : nat) (s : State) :
  reportsNoSuccess s (dispatch t f c s).
Proof.
  unfold dispatch, uploadChunk.
  repeat case_match; try (by apply rns_same); by eapply rns_one.
Qed.

Lemma rns_xhr_settle (x : nat) (xr : Xhr) (s : State) :
  reportsNoSuccess s (xhr_settle x xr s).
Proof.
  apply rns_same. unfold xhr_settle, deregister.
  repeat case_match; by simplify_eq.
Qed.

Lemma rns_pieces props (e : Event) (s0 : State) :
  is_merge_success e = false →
  Preserved props e (reportsNoSuccess s0).
Proof.
  intros He.
  assert (Hgo : ∀ s s', reportsNoSuccess s s' →
            reportsNoSuccess s0 s → reportsNoSuccess s0 s').
  { intros s s' H1 H2. by apply (rns_trans s0 s). }
  constructor.
  - intros s file. apply Hgo. unfold addFile.
    case_decide; [by eapply rns_one | by apply rns_same].
  - intros s. apply Hgo. by eapply rns_one.
  - intros f s _ _. apply Hgo, rns_uploadFile.
  - intros f s _ _. apply Hgo. unfold retryUpload.
    eapply rns_trans; [| apply rns_uploadFile]. by apply rns_same.
  - intros f s _ _. apply Hgo, rns_cancelUpload.
  - intros index f s _ _ _. apply Hgo. by apply rns_same.
  - intros s. apply Hgo. by apply rns_same.
  - intros t f u s _. apply Hgo. by apply rns_same.
  - intros t f ph c s _ _ _. apply Hgo, rns_dispatch.
  - intros t f ph pending s _ _. apply Hgo. by apply rns_same.
  - intros t f ph s _ _. apply Hgo. by apply rns_same.
  - intros x xr percent s _ _ _. apply Hgo. by apply rns_same.
  - intros x xr s _ _. apply Hgo. by apply rns_same.
  - intros x xr s _ _. apply Hgo. by apply rns_same.
  - intros x xr s _ _. apply Hgo. by eapply rns_one.
  - intros x xr s _ _. apply Hgo, rns_xhr_settle.
  - intros t f s _ _ _. apply Hgo. unfold mergeChunks.
    case_match; [by eapply rns_one | by apply rns_same].
  - intros t f ph s _ _. apply Hgo. by apply rns_same.
  - intros t f ph err s _ _. apply Hgo. by eapply rns_one.
  - intros t f ph s _ _. apply Hgo. by apply rns_same.
  - intros t f o result s -> Hres. simpl in He. by rewrite Hres in He.
  - intros t f o result s -> Hres. simpl in He. by rewrite Hres in He.
  - intros t f o result s -> Hres. simpl in He. by rewrite Hres in He.
Qed.

(** Only the success of a complete call reports a finished upload. *)
Lemma no_success_without_merge props (e : Event) (s : State) :
  is_merge_success e = false →
  reportsNoSuccess s (handle props e s).
Proof.
  intros He. apply (pieces_handle props e (reportsNoSuccess s)).
  - by apply rns_pieces.
  - by apply rns_same.
Qed.

Lemma allComplete_elem (s : State) (f : loc) :
  allComplete s = true → f ∈ fileList s →
  fileStatus s f = Some success ∨ fileStatus s f = Some error.
Proof.
  unfold allComplete. rewrite forallb_forall. intros Hall Hin.
  apply list_elem_of_In, Hall in Hin. apply orb_true_iff in Hin.
  destruct Hin as [H|H]; apply bool_decide_eq_true in H; auto.
Qed.

(** X7.  A handler emits upload-success only when its event is the
    success of the complete call of an attempt that was waiting for it;
    the event carries the url of the answer and the entry is then in state
    success with progress 100.  It emits upload-complete only after that
    upload-success, with the list as it is then, and every entry of that
    list is in state success or error. *)
Theorem X7_success_is_reported_by_a_merge_only props (events : list Event)
    (e : Event) (added : list Obs) :
  let s := run props events init in
  let s' := handle props e s in
  trace s' = trace s ++ added →
  (∀ f u, Emit (upload_success f u) ∈ added →
     ∃ t o r, e = MergeSettled t o ∧ mergeChunks_result o = inr r
       ∧ u = url r ∧ attemptView s t = Some (f, MergePending)
       ∧ fileStatus s' f = Some success
       ∧ fileProgress s' f = Some (JNum 100))
  ∧ (∀ l, Emit (upload_complete l) ∈ added →
       (∃ f u, Emit (upload_success f u) ∈ added) ∧ l = fileList s'
       ∧ ∀ f, f ∈ l →
           fileStatus s' f = Some success ∨ fileStatus s' f = Some error).
Proof.
  intros s s' Ht.
  destruct (is_merge_success e) eqn:He; last first.
  { destruct (no_success_without_merge props e s He) as (added' & Ht' & Hq).
    fold s' in Ht'. rewrite Ht in Ht'. apply app_inv_head in Ht' as <-.
    rewrite Forall_forall in Hq.
    split; [intros f u Hin | intros l Hin]; by apply Hq in Hin. }
  destruct e as [| | | | | | | | | | | | |t o]; try done.
  simpl in He. destruct (mergeChunks_result o) as [|r] eqn:Hres; [done |].
  assert (Hnone : s' = s → added = []).
  { intros Heq. rewrite Heq in Ht. rewrite <-(app_nil_r (trace s)) in Ht at 1.
    by apply app_inv_head in Ht. }
  subst s'. simpl in *. unfold mergeChunks_resume in *.
  destruct (attempts s !! t) as [a|] eqn:Ha;
    [| rewrite Hnone by done; split; [intros ?? | intros ?];
       by intros ?%elem_of_nil].
  destruct (attempt_phase a) eqn:Hph;
    try (rewrite Hnone by done; split; [intros ?? | intros ?];
         by intros ?%elem_of_nil).
  rewrite Hres in *.
  set (f0 := attempt_file a) in *.
  set (s1 := emit (upload_success f0 (url r))
               (updFile f0 (λ fe, with_progress (JNum 100)
                                    (with_url (url r)
                                       (with_status success fe))) s)) in *.
  assert (Hv : attemptView s t = Some (f0, MergePending)).
  { unfold attemptView. by rewrite Ha, <-Hph. }
  assert (Hf0 : is_Some (fileHeap s !! f0)).
  { apply lookup_lt_is_Some.
    pose proof (inv_reachable props s (ex_intro _ events eq_refl) t) as Hi.
    rewrite Hv in Hi. apply Hi. }
  destruct Hf0 as [fe Hfe].
  assert (Hst : fileStatus s1 f0 = Some success
                ∧ fileProgress s1 f0 = Some (JNum 100)).
  { unfold fileStatus, fileProgress. simpl.
    by rewrite list_lookup_alter_eq, Hfe. }
  assert (Hadded : added = Emit (upload_success f0 (url r))
                           :: if allComplete s1
                              then [Emit (upload_complete (fileList s1))]
                              else []).
  { apply (app_inv_head (trace s)). rewrite <-Ht.
    destruct (allComplete s1); simpl; by rewrite <-?app_assoc. }
  assert (Hkeep : ∀ f, fileStatus
            (updAttempt t (with_phase Finished)
               (if allComplete s1
                then emit (upload_complete (fileList s1)) s1 else s1)) f
            = fileStatus s1 f).
  { intros f. by destruct (allComplete s1). }
  split.
  - intros f u Hin. rewrite Hadded in Hin.
    assert (Heq : Emit (upload_success f u)
                  = Emit (upload_success f0 (url r))).
    { apply elem_of_cons in Hin as [Heq|Hin]; [done |].
      destruct (allComplete s1);
        [apply list_elem_of_singleton in Hin | apply elem_of_nil in Hin];
        done. }
    injection Heq as -> ->. exists t, o, r.
    split_and!; [done | done | done | done | |].
    + rewrite Hkeep. apply Hst.
    + destruct (allComplete s1); apply Hst.
  - intros l Hin. rewrite Hadded in Hin.
    apply elem_of_cons in Hin as [Heq|Hin]; [done |].
    destruct (allComplete s1) eqn:Hall; [| by apply elem_of_nil in Hin].
    apply list_elem_of_singleton in Hin. injection Hin as ->.
    split_and!.
    + exists f0, (url r). rewrite Hadded. by left.
    + done.
    + intros f Hin. rewrite Hkeep. by apply allComplete_elem.
Qed.

(** ** Starting every entry *)

Lemma uploadFile_status props (f f' : loc) (s : State) :
  fileStatus (uploadFile props f s) f'
  = if decide (f' = f) then (λ _, uploading) <$> fileStatus s f'
    else fileStatus s f'.
Proof.
  unfold fileStatus.
  destruct (fileHeap s !! f) as [fe|] eqn:Hfe.
  - destruct (uploadFile_spec props f s fe Hfe) as (_ & Hf & Hother & _).
    case_decide as Heq; [subst f'; by rewrite Hf, Hfe | by rewrite Hother].
  - unfold uploadFile. rewrite Hfe. case_decide; [subst; by rewrite Hfe | done].
Qed.

Lemma startUpload_fold props (l : list loc) (s : State) (f : loc)
    (st : Status) :
  fileStatus s f = Some st →
  fileStatus
    (foldl (λ s f, match fileStatus s f with
                   | Some waiting | Some error => uploadFile props f s
                   | _ => s
                   end) s l) f
  = Some (if decide (f ∈ l) then started st else st).
Proof.
  revert s st. induction l as [|f0 l IH]; intros s st Hst; cbn [foldl].
  - rewrite decide_False; [done | by intros ?%elem_of_nil].
  - set (s1 := match fileStatus s f0 with
               | Some waiting | Some error => uploadFile props f0 s
               | _ => s
               end).
    assert (Hs1 : fileStatus s1 f
                  = Some (if decide (f = f0) then started st else st)).
    { subst s1. destruct (decide (f = f0)) as [<-|Hne].
      - rewrite Hst.
        destruct st; simpl; try done;
          by rewrite uploadFile_status, decide_True, Hst.
      - destruct (fileStatus s f0) as [[]|]; try done;
          by rewrite uploadFile_status, decide_False. }
    rewrite (IH s1 _ Hs1).
    destruct (decide (f = f0)) as [<-|Hne].
    + rewrite (decide_True (P := f ∈ f :: l)) by (by left).
      case_decide; [by destruct st | done].
    + destruct (decide (f ∈ l)) as [Hin|Hnin].
      * by rewrite decide_True by (by right).
      * rewrite decide_False; [done |].
        by intros [?|?]%elem_of_cons.
Qed.

(** X8.  After [startUpload] no entry of the list is waiting or in
    error: the entries that were waiting or in error are uploading (failed
    and cancelled entries are started again), those that were uploading
    still are, and the successful ones stay as they are. *)
Theorem X8_startUpload_leaves_nothing_waiting props (s : State) (f : loc)
    (st : Status) :
  f ∈ fileList s → fileStatus s f = Some st →
  fileStatus (startUpload props s) f
  = Some (match st with success => success | _ => uploading end).
Proof.
  intros Hin Hst. unfold startUpload.
  rewrite (startUpload_fold props (fileList s) s f st Hst).
  by rewrite decide_True.
Qed.

(** ** The identifier of a file *)

Section Identifier.

#[local] Arguments String.append : simpl nomatch.

Lemma underscoreFree_pretty_N_go (x : N) (s : string) :
  underscoreFree s → underscoreFree (pretty_N_go x s).
Proof.
  revert s. induction (N.lt_wf_0 x) as [x _ IH]. intros s Hs.
  destruct (decide (x = 0)%N) as [->|Hx]; [done |].
  rewrite pretty_N_go_step by lia. apply IH.
  - apply N.div_lt; lia.
  - split; [| done]. unfold pretty_N_char. by repeat case_match.
Qed.

Lemma underscoreFree_pretty_Z (z : Z) : underscoreFree (pretty z).
Proof.
  assert (Hpos : ∀ p : positive, underscoreFree (pretty p)).
  { intros p. unfold pretty, pretty_positive, pretty, pretty_N.
    rewrite decide_False by done. by apply underscoreFree_pretty_N_go. }
  destruct z as [|p|p]; [done | apply Hpos |].
  change (pretty (Z.neg p)) with ("-" +:+ pretty p). split; [done |].
  apply Hpos.
Qed.

Lemma underscore_inside (a x : string) :
  ¬ underscoreFree (a +:+ "_" +:+ x).
Proof.
  induction a as [|c a IH]; simpl; [by intros [? _] |].
  intros [_ ?]. by apply IH.
Qed.

(** A string is cut at its last underscore in one way only. *)
Lemma last_underscore_unique (a b x y : string) :
  underscoreFree x → underscoreFree y →
  a +:+ "_" +:+ x = b +:+ "_" +:+ y → a = b ∧ x = y.
Proof.
  intros Hx Hy. revert b. induction a as [|c a IH]; intros [|c' b] Heq;
    simpl in Heq.
  - injection Heq as Heq. by subst.
  - injection Heq as _ Heq. subst x. by destruct (underscore_inside b y).
  - injection Heq as _ Heq. subst y. by destruct (underscore_inside a x).
  - injection Heq as Hc Heq. subst c'. by destruct (IH b Heq) as [-> ->].
Qed.

Lemma string_app_assoc (a b c : string) :
  (a +:+ b) +:+ c = a +:+ (b +:+ c).
Proof. induction a as [|x a IH]; simpl; [done | by rewrite IH]. Qed.

(** The identifier is cut at its last two underscores in one way only. *)
Lemma identifier_cut (file1 file2 : RawFile) :
  calculateFileIdentifier file1 = calculateFileIdentifier file2 →
  raw_name file1 = raw_name file2
  ∧ pretty (raw_size file1) = pretty (raw_size file2)
  ∧ pretty (raw_lastModified file1) = pretty (raw_lastModified file2).
Proof.
  unfold calculateFileIdentifier. intros Heq.
  rewrite <-!(string_app_assoc (raw_name _) "_"
                (pretty (raw_size _) +:+ "_" +:+ _)) in Heq.
  rewrite <-!(string_app_assoc _ (pretty (raw_size _))) in Heq.
  apply last_underscore_unique in Heq as [Heq Hlm];
    [| apply underscoreFree_pretty_Z..].
  rewrite !string_app_assoc in Heq.
  by apply last_underscore_unique in Heq as [Hname Hsize];
    [| apply underscoreFree_pretty_Z..].
Qed.

(** X9.  Two files get the same identifier exactly when they agree on
    name, size and modification time, whatever underscores and digits the
    names contain. *)
Theorem X9_identifier_determines_name_size_and_time (file1 file2 : RawFile) :
  calculateFileIdentifier file1 = calculateFileIdentifier file2
  ↔ raw_name file1 = raw_name file2 ∧ raw_size file1 = raw_size file2
    ∧ raw_lastModified file1 = raw_lastModified file2.
Proof.
  split.
  - intros Heq. destruct (identifier_cut file1 file2 Heq) as (Hn & Hs & Hm).
    split; [exact Hn |]. split.
    + by apply (inj (pretty : Z → string)).
    + by apply (inj (pretty : Z → string)).
  - intros (Hn & Hs & Hm). unfold calculateFileIdentifier.
    by rewrite Hn, Hs, Hm.
Qed.

Lemma identifier_is_not_undefined (file : RawFile) :
  calculateFileIdentifier file ≠ "undefined".
Proof.
  unfold calculateFileIdentifier. intros Heq.
  apply (underscore_inside (raw_name file)
           (pretty (raw_size file) +:+ "_"
              +:+ pretty (raw_lastModified file))).
  rewrite Heq. by repeat split.
Qed.

(** X10.  In every state of a run, cancelling an entry leaves alone the
    requests of every entry whose file differs from the cancelled one in
    name, size or modification time. *)
Theorem X10_cancel_spares_the_requests_of_other_files props
    (events : list Event) (f : loc) (fe : FileEntry) (x : nat) (xr : Xhr)
    (fe' : FileEntry) :
  let s := run props events init in
  fileHeap s !! f = Some fe →
  xhrs s !! x = Some xr → fileHeap s !! xhr_file xr = Some fe' →
  ¬ (raw_name (file_raw fe') = raw_name (file_raw fe)
     ∧ raw_size (file_raw fe') = raw_size (file_raw fe)
     ∧ raw_lastModified (file_raw fe')
       = raw_lastModified (file_raw fe)) →
  xhrs (cancelUpload f s) !! x = Some xr.
Proof.
  intros s Hfe Hx Hfe' Hdiff.
  assert (Hinv : identified s ∧ registryLive s).
  { apply (pieces_reachable props (λ s, identified s ∧ registryLive s)).
    - split; [apply identified_init |]. intros k r. simpl.
      by rewrite lookup_empty.
    - apply registry_pieces.
    - by exists events. }
  destruct Hinv as [[HW _] HR].
  unfold cancelUpload. rewrite Hfe. case_decide; [| done].
  destruct (activeRequests s !! prop_key (file_identifier fe))
    as [reqs|] eqn:Hk; [| done].
  simpl. rewrite abortAll_lookup_notin; [done |].
  intros Hin. destruct (HR _ _ Hk) as [_ Hel].
  destruct (Hel x Hin) as (xr0 & fe0 & Hx0 & _ & Hfe0 & Hid0).
  rewrite Hx in Hx0. injection Hx0 as <-.
  rewrite Hfe' in Hfe0. injection Hfe0 as <-.
  destruct (HW _ _ Hfe') as [Hnone|Hset']; [congruence |].
  unfold identifierSet in Hset'. rewrite Hid0 in Hset'.
  injection Hset' as Hkey.
  destruct (HW _ _ Hfe) as [Hnone|Hset].
  - rewrite Hnone in Hkey. simpl in Hkey.
    by destruct (identifier_is_not_undefined (file_raw fe')).
  - unfold identifierSet in Hset. rewrite Hset in Hkey. simpl in Hkey.
    apply Hdiff. symmetry in Hkey.
    destruct (identifier_cut _ _ Hkey) as (Hn & Hs & Hm).
    split; [exact Hn |]. split.
    + by apply (inj (pretty : Z → string)).
    + by apply (inj (pretty : Z → string)).
Qed.

End Identifier.

(** ** Progress values are percentages *)

Lemma requestsChunked_frame props (s s' : State) :
  (∀ x xr', xhrs s' !! x = Some xr' →
     ∃ xr, xhrs s !! x = Some xr ∧ xhr_file xr = xhr_file xr') →
  (∀ f fe, fileHeap s !! f = Some fe →
     ∃ fe', fileHeap s' !! f = Some fe' ∧ file_size fe' = file_size fe
            ∧ (file_identifier fe ≠ None → file_identifier fe' ≠ None)) →
  requestsChunked props s → requestsChunked props s'.
Proof.
  intros Hx Hf Hs x xr' Hxr'.
  destruct (Hx x xr' Hxr') as (xr & Hxr & <-).
  destruct (Hs x xr Hxr) as (fe & Hfe & Hid & Hn).
  destruct (Hf _ _ Hfe) as (fe' & Hfe' & Hsz & Hid').
  exists fe'. unfold planSize. rewrite Hsz. auto.
Qed.

Lemma requestsChunked_same props (s s' : State) :
  xhrs s' = xhrs s → sameShape s s' →
  requestsChunked props s → requestsChunked props s'.
Proof.
  intros Hx [Hf _]. apply requestsChunked_frame.
  - intros x xr'. rewrite Hx. eauto.
  - intros f fe Hfe. specialize (Hf f). rewrite Hfe in Hf.
    destruct (fileHeap s' !! f) as [fe'|]; [| done].
    destruct Hf as (_ & Hsz & _ & _ & Hid). exists fe'.
    rewrite Hid. auto.
Qed.

Lemma abortAll_files (reqs : list nat) (s : State) (x : nat) (xr' : Xhr) :
  xhrs (abortAll reqs s) !! x = Some xr' →
  ∃ xr, xhrs s !! x = Some xr ∧ xhr_file xr = xhr_file xr'.
Proof.
  revert s. induction reqs as [|y reqs IH]; intros s; [eauto |].
  unfold abortAll in *. simpl. intros Hx.
  destruct (IH _ Hx) as (xr1 & Hx1 & Hf1). rewrite abort_lookup in Hx1.
  destruct (xhrs s !! x) as [xr|]; [| done]. simpl in Hx1.
  injection Hx1 as <-. exists xr. split; [done |]. rewrite <-Hf1.
  by case_decide.
Qed.

(** What [uploadFile] does to the heaps. *)
Lemma uploadFile_heaps props (f : loc) (s : State) :
  ∃ g more,
    fileHeap (uploadFile props f s) = alter g f (fileHeap s)
    ∧ chunkHeap (uploadFile props f s) = chunkHeap s ++ more
    ∧ (∀ fe, file_progress (g fe) = file_progress fe
             ∧ file_size (g fe) = file_size fe
             ∧ (file_identifier fe ≠ None → file_identifier (g fe) ≠ None))
    ∧ Forall (λ ch, chunk_progress ch = 0) more.
Proof.
  unfold uploadFile. destruct (fileHeap s !! f) as [fe|] eqn:Hfe.
  - eexists _, _. unfold uploadChunks, createUploadTask. simpl.
    rewrite list_lookup_alter_eq, Hfe. simpl.
    split_and!; [done | done | by intros fe' |].
    unfold planChunks. by apply Forall_fmap, Forall_true.
  - exists id, []. rewrite app_nil_r. split_and!; [| done | done | done].
    symmetry. apply list_eq. intros i.
    destruct (decide (f = i)) as [->|Hne].
    + rewrite list_lookup_alter_eq, Hfe. done.
    + by rewrite list_lookup_alter_ne.
Qed.

Lemma keepsStarted_alter (f : loc) (g : FileEntry → FileEntry)
    (h : list FileEntry) (f' : loc) (fe : FileEntry) :
  (∀ fe, file_size (g fe) = file_size fe
         ∧ (file_identifier fe ≠ None → file_identifier (g fe) ≠ None)) →
  h !! f' = Some fe →
  ∃ fe', alter g f h !! f' = Some fe' ∧ file_size fe' = file_size fe
         ∧ (file_identifier fe ≠ None → file_identifier fe' ≠ None).
Proof.
  intros Hg Hfe. destruct (decide (f = f')) as [->|Hne].
  - exists (g fe). rewrite list_lookup_alter_eq, Hfe. split; [done |].
    apply Hg.
  - exists fe. by rewrite list_lookup_alter_ne.
Qed.

Lemma requestsChunked_uploadFile props (f : loc) (s : State) :
  requestsChunked props s → requestsChunked props (uploadFile props f s).
Proof.
  destruct (uploadFile_heaps props f s) as (g & more & Hf & _ & Hg & _).
  apply requestsChunked_frame.
  - intros x xr'. unfold uploadFile, uploadChunks, createUploadTask.
    repeat case_match; simpl; eauto.
  - intros f' fe Hfe. rewrite Hf. apply keepsStarted_alter; [| done].
    intros fe0. destruct (Hg fe0) as (_ & ? & ?). done.
Qed.

Lemma requestsChunked_uploadChunk props (t f c : nat) (s : State) :
  (∃ fe, fileHeap s !! f = Some fe ∧ file_identifier fe ≠ None
         ∧ (0 < planSize props fe)%nat) →
  requestsChunked props s → requestsChunked props (uploadChunk t f c s).
Proof.
  intros Hnew Hs. unfold uploadChunk.
  repeat case_match; try exact Hs.
  intros x xr. simpl. intros Hx.
  apply lookup_app_Some in Hx as [Hx|[_ Hx]]; [exact (Hs x xr Hx) |].
  destruct (x - length (xhrs s))%nat; [| done].
  simpl in Hx. injection Hx as <-. exact Hnew.
Qed.

Lemma requestsChunked_dispatch props (t f c : nat) (ph : Phase) (s : State) :
  attemptView s t = Some (f, ph) → loopSource s f ph [c] →
  wellPlanned props s →
  requestsChunked props s → requestsChunked props (dispatch t f c s).
Proof.
  intros Hv Hsrc [HW Hpl] Hs. unfold dispatch.
  assert (Hgo : requestsChunked props
            (uploadChunk t f c (updAttempt t (with_running (λ n, n + 1)) s))).
  { apply requestsChunked_uploadChunk; [| exact Hs].
    destruct (loopSource_planned props t f ph [c] s HW Hpl Hv Hsrc)
      as (fe & Hfe & Hp).
    destruct (Hp c) as (i & Hi & _); [by left |].
    destruct HW as [_ HW]. destruct (HW t f ph Hv) as (fe0 & Hfe0 & Hid).
    rewrite Hfe in Hfe0. injection Hfe0 as <-.
    exists fe. split; [done |]. split; [| lia].
    unfold identifierSet in Hid. congruence. }
  destruct (chunkStatus s c) as [[]|]; done.
Qed.

Lemma requestsChunked_xhr_settle props (x : nat) (xr : Xhr) (s : State) :
  requestsChunked props s → requestsChunked props (xhr_settle x xr s).
Proof.
  apply requestsChunked_frame.
  - intros y xr'. unfold xhr_settle, deregister.
    assert (Hgo : alter (with_xhr_state Settled) x (xhrs s) !! y = Some xr' →
              ∃ xr0, xhrs s !! y = Some xr0 ∧ xhr_file xr0 = xhr_file xr').
    { destruct (decide (x = y)) as [->|Hne].
      - rewrite list_lookup_alter_eq.
        destruct (xhrs s !! y) as [xr0|]; [| done]. simpl.
        intros [= <-]. eauto.
      - rewrite list_lookup_alter_ne by done. eauto. }
    repeat case_match; simplify_eq; exact Hgo.
  - intros f fe Hfe. exists fe.
    destruct (xhr_settle_heaps x xr s) as [-> _]. done.
Qed.

Lemma requestsChunked_cancelUpload props (f : loc) (s : State) :
  requestsChunked props s → requestsChunked props (cancelUpload f s).
Proof.
  apply requestsChunked_frame.
  - intros x xr'. unfold cancelUpload. repeat case_match; eauto.
    simpl. apply abortAll_files.
  - intros f' fe Hfe. rewrite cancelUpload_fileHeap.
    repeat case_match; eauto. by apply keepsStarted_alter.
Qed.

Lemma progress_sum_bounds (g : nat → Z) (l : list nat) (a : Z) :
  (∀ c, 0 ≤ g c ∧ g c ≤ 100) →
  a ≤ foldl (λ sum c, sum + g c) a l
  ∧ foldl (λ sum c, sum + g c) a l ≤ a + 100 * Z.of_nat (length l).
Proof.
  intros Hg. revert a. induction l as [|c l IH]; intros a; simpl; [lia |].
  destruct (IH (a + g c)) as [H1 H2]. destruct (Hg c). lia.
Qed.

Lemma Math_round_div_percentage (total n : Z) :
  0 < n → 0 ≤ total → total ≤ 100 * n →
  percentage (Math_round_div total n).
Proof.
  intros Hn H0 H100. unfold Math_round_div.
  rewrite decide_False by lia. eexists. split; [done |]. split.
  - apply Z.div_pos; lia.
  - assert ((2 * total + n) / (2 * n) < 101); [| lia].
    apply Z.div_lt_upper_bound; lia.
Qed.

Lemma chunkProgress_percentage (s : State) (c : loc) :
  percentages s → 0 ≤ chunkProgress s c ∧ chunkProgress s c ≤ 100.
Proof.
  intros [Hc _]. unfold chunkProgress.
  destruct (chunkHeap s !! c) as [ch|] eqn:Hch; simpl; [| lia].
  rewrite Forall_lookup in Hc. by apply (Hc c).
Qed.

Lemma percentages_updFile (f : loc) (g : FileEntry → FileEntry) (s : State) :
  (∀ fe, percentage (file_progress fe) → percentage (file_progress (g fe))) →
  percentages s → percentages (updFile f g s).
Proof.
  intros Hg [Hc Hf]. split; [done |]. simpl.
  apply Forall_alter; [done |]. intros fe _. apply Hg.
Qed.

Lemma percentages_updChunk (c : loc) (g : Chunk → Chunk) (s : State) :
  (∀ ch, 0 ≤ chunk_progress ch ∧ chunk_progress ch ≤ 100 →
         0 ≤ chunk_progress (g ch) ∧ chunk_progress (g ch) ≤ 100) →
  percentages s → percentages (updChunk c g s).
Proof.
  intros Hg [Hc Hf]. split; [| done]. simpl.
  apply Forall_alter; [done |]. intros ch _. apply Hg.
Qed.

Lemma percentages_same (s s' : State) :
  chunkHeap s' = chunkHeap s → fileHeap s' = fileHeap s →
  percentages s → percentages s'.
Proof. intros Hc Hf [??]. split; by rewrite ?Hc, ?Hf. Qed.

Lemma percentage_zero : percentage (JNum 0).
Proof. exists 0. split; [done | lia]. Qed.

Lemma percentage_hundred : percentage (JNum 100).
Proof. exists 100. split; [done | lia]. Qed.

Lemma percentages_uploadFile props (f : loc) (s : State) :
  percentages s → percentages (uploadFile props f s).
Proof.
  intros [Hc Hf].
  destruct (uploadFile_heaps props f s) as (g & more & Hfh & Hch & Hg & Hm).
  unfold percentages. rewrite Hfh, Hch. split.
  - apply Forall_app. split; [done |].
    eapply Forall_impl; [exact Hm |]. simpl. intros ch ->. lia.
  - apply Forall_alter; [done |]. intros fe _.
    destruct (Hg fe) as (-> & _). done.
Qed.

Lemma percentages_retryUpload props (f : loc) (s : State) :
  percentages s → percentages (retryUpload props f s).
Proof.
  intros Hs. unfold retryUpload. apply percentages_uploadFile.
  apply percentages_updFile; [done |].
  set (s1 := updFile f (with_progress (JNum 0)) s).
  assert (Hs1 : percentages s1).
  { apply percentages_updFile; [| done]. intros fe _. apply percentage_zero. }
  destruct Hs1 as [Hc Hf]. split; [| done]. simpl.
  apply Forall_app. split; [done |].
  apply Forall_forall. intros ch Hin.
  apply list_elem_of_omap in Hin as (c & _ & Hch).
  destruct (chunkHeap s !! c) as [ch0|]; [| done].
  simpl in Hch. injection Hch as <-. simpl. lia.
Qed.

Lemma percentages_cancelUpload (f : loc) (s : State) :
  percentages s → percentages (cancelUpload f s).
Proof.
  intros [Hc Hf]. split.
  - by rewrite cancelUpload_chunkHeap.
  - rewrite cancelUpload_fileHeap. repeat case_match; try done.
    apply Forall_alter; [done |]. intros fe _ _. apply percentage_zero.
Qed.

Lemma percentages_dispatch (t f c : nat) (s : State) :
  percentages s → percentages (dispatch t f c s).
Proof.
  intros Hs. unfold dispatch, uploadChunk.
  assert (Hs1 : percentages
            (updChunk c (chunk_with_status uploading)
               (updAttempt t (with_running (λ n, n + 1)) s))).
  { apply percentages_updChunk; [done |].
    by apply (percentages_same s). }
  repeat case_match; first [exact Hs | exact Hs1].
Qed.

Lemma percentages_updateFileProgress props (x : nat) (xr : Xhr) (s : State) :
  xhrs s !! x = Some xr →
  wellPlanned props s → requestsChunked props s →
  percentages s → percentages (updateFileProgress (xhr_file xr) s).
Proof.
  intros Hx [_ (Hpl & _)] Hrc Hs. unfold updateFileProgress.
  apply (percentages_same
           (updFile (xhr_file xr)
              (with_progress
                 (Math_round_div
                    (foldl (λ sum c, sum + chunkProgress s c) 0
                       (fileChunks s (xhr_file xr)))
                    (Z.of_nat (length (fileChunks s (xhr_file xr)))))) s));
    [done | done |].
  apply percentages_updFile; [| done]. intros fe0 _. simpl.
  destruct (Hrc x xr Hx) as (fe & Hfe & Hid & Hn).
  destruct (Hpl _ _ Hfe) as (_ & Hlen & _). specialize (Hlen Hid).
  unfold fileChunks. rewrite Hfe. simpl.
  pose proof (progress_sum_bounds (chunkProgress s) (file_chunks fe) 0
                (λ c, chunkProgress_percentage s c Hs)) as [H0 H100].
  apply Math_round_div_percentage; lia.
Qed.

Lemma progress_pieces props (e : Event) :
  tickInRange e →
  Preserved props e (λ s, wellPlanned props s ∧ progressSound props s).
Proof.
  intros He.
  pose proof (planned_pieces props e : Preserved props e (wellPlanned props))
    as HW.
  constructor.
  - intros s file [? [Hrc Hpc]]. split; [by_pieces HW |]. split.
    + apply (requestsChunked_same props s);
        [unfold addFile; by case_decide | apply sameShape_addFile | done].
    + unfold addFile. case_decide; [done |].
      destruct Hpc as [Hc Hf]. split; [done |]. simpl.
      apply Forall_app. split; [done |]. constructor; [| done].
      apply percentage_zero.
  - intros s [? [Hrc Hpc]]. split; [by_pieces HW |]. split.
    + by apply (requestsChunked_same props s); [| apply sameShape_heaps |].
    + by apply (percentages_same s).
  - intros f s ?? [? [Hrc Hpc]]. split; [by_pieces HW |]. split.
    + by apply requestsChunked_uploadFile.
    + by apply percentages_uploadFile.
  - intros f s ?? [? [Hrc Hpc]]. split; [by_pieces HW |]. split.
    + unfold retryUpload. apply requestsChunked_uploadFile.
      revert Hrc. apply requestsChunked_frame; [eauto |].
      intros f' fe Hfe. simpl.
      destruct (decide (f = f')) as [->|Hne].
      * rewrite !list_lookup_alter_eq, Hfe. simpl. eauto.
      * rewrite !list_lookup_alter_ne by done. eauto.
    + by apply percentages_retryUpload.
  - intros f s ?? [? [Hrc Hpc]]. split; [by_pieces HW |]. split.
    + by apply requestsChunked_cancelUpload.
    + by apply percentages_cancelUpload.
  - intros index f s ??? [? [Hrc Hpc]]. split; [by_pieces HW |]. split.
    + by apply (requestsChunked_same props s); [| apply sameShape_heaps |].
    + by apply (percentages_same s).
  - intros s [? [Hrc Hpc]]. split; [by_pieces HW |]. split.
    + by apply (requestsChunked_same props s); [| apply sameShape_heaps |].
    + by apply (percentages_same s).
  - intros t f u s ? [? [Hrc Hpc]]. split; [by_pieces HW |]. split.
    + by apply (requestsChunked_same props s); [| apply sameShape_updFile |].
    + by apply percentages_updFile.
  - intros t f ph c s ??? [? [Hrc Hpc]]. split; [by_pieces HW |]. split.
    + by apply (requestsChunked_dispatch props t f c ph).
    + by apply percentages_dispatch.
  - intros t f ph pending s ?? [? [Hrc Hpc]]. split; [by_pieces HW |]. split.
    + by apply (requestsChunked_same props s); [| apply sameShape_heaps |].
    + by apply (percentages_same s).
  - intros t f ph s ?? [? [Hrc Hpc]]. split; [by_pieces HW |]. split.
    + by apply (requestsChunked_same props s); [| apply sameShape_heaps |].
    + by apply (percentages_same s).
  - intros x xr percent s -> ?? [? [Hrc Hpc]]. split; [by_pieces HW |]. split.
    + by apply (requestsChunked_same props s); [| apply sameShape_updChunk |].
    + apply percentages_updChunk; [| done]. intros ch _. exact He.
  - intros x xr s ?? [? [Hrc Hpc]]. split; [by_pieces HW |]. split.
    + by apply (requestsChunked_same props s); [| apply sameShape_updChunk |].
    + apply percentages_updChunk; [| done]. intros ch _. simpl. lia.
  - intros x xr s ?? [? [Hrc Hpc]]. split; [by_pieces HW |]. split.
    + by apply (requestsChunked_same props s); [| apply sameShape_updChunk |].
    + by apply percentages_updChunk.
  - intros x xr s ?? [? [Hrc Hpc]]. split; [by_pieces HW |]. split.
    + by apply (requestsChunked_same props s);
        [| apply sameShape_updateFileProgress |].
    + by apply (percentages_updateFileProgress props x).
  - intros x xr s ?? [? [Hrc Hpc]]. split; [by_pieces HW |]. split.
    + by apply requestsChunked_xhr_settle.
    + destruct (xhr_settle_heaps x xr s) as [Hf Hc].
      by apply (percentages_same s).
  - intros t f s ??? [? [Hrc Hpc]]. split; [by_pieces HW |].
    unfold mergeChunks. split.
    + apply (requestsChunked_same props s);
        [by case_match | apply sameShape_heaps; by case_match | done].
    + apply (percentages_same s); [by case_match.. | done].
  - intros t f ph s ?? [? [Hrc Hpc]]. split; [by_pieces HW |]. split.
    + by apply (requestsChunked_same props s); [| apply sameShape_updFile |].
    + by apply percentages_updFile.
  - intros t f ph err s ?? [? [Hrc Hpc]]. split; [by_pieces HW |]. split.
    + by apply (requestsChunked_same props s); [| apply sameShape_heaps |].
    + by apply (percentages_same s).
  - intros t f ph s ?? [? [Hrc Hpc]]. split; [by_pieces HW |]. split.
    + by apply (requestsChunked_same props s); [| apply sameShape_heaps |].
    + by apply (percentages_same s).
  - intros t f o result s ??? [? [Hrc Hpc]]. split; [by_pieces HW |]. split.
    + by apply (requestsChunked_same props s); [| apply sameShape_updFile |].
    + apply percentages_updFile; [| done]. intros fe _.
      apply percentage_hundred.
  - intros t f o result s ??? [? [Hrc Hpc]]. split; [by_pieces HW |]. split.
    + by apply (requestsChunked_same props s); [| apply sameShape_heaps |].
    + by apply (percentages_same s).
  - intros t f o result s ???? [? [Hrc Hpc]]. split; [by_pieces HW |]. split.
    + by apply (requestsChunked_same props s); [| apply sameShape_heaps |].
    + by apply (percentages_same s).
Qed.

(** X11.  If the percentage of every progress event the component
    handles lies between 0 and 100, the progress of every entry is, in
    every state of the run, a number between 0 and 100.  In particular it
    is never NaN: a request exists only for an entry with at least one
    chunk. *)
Theorem X11_progress_is_always_a_percentage props (events : list Event)
    (f : loc) (fe : FileEntry) :
  Forall tickInRange events →
  fileHeap (run props events init) !! f = Some fe →
  ∃ p, file_progress fe = JNum p ∧ 0 ≤ p ∧ p ≤ 100.
Proof.
  intros Hticks Hfe.
  assert (Hinv : wellPlanned props (run props events init)
                 ∧ progressSound props (run props events init)).
  { apply (pieces_run props
             (λ s, wellPlanned props s ∧ progressSound props s)).
    - split; [| split].
      + split; [apply identified_init |]. split_and!.
        * by intros f0 fe0.
        * by intros t f0 p.
        * intros t c Hin. by apply elem_of_nil in Hin.
      + by intros x xr.
      + split; constructor.
    - eapply Forall_impl; [exact Hticks |]. intros e.
      apply progress_pieces. }
  destruct Hinv as [_ [_ [_ Hf]]]. rewrite Forall_lookup in Hf.
  by apply (Hf f fe).
Qed.

(** ** The loading store *)

Lemma startsWith_spec (prefix s : string) :
  startsWith prefix s = true ↔ ∃ rest, s = prefix +:+ rest.
Proof.
  revert s. induction prefix as [|a prefix IH]; intros s; simpl.
  - split; [intros _; by exists s | done].
  - destruct s as [|b s]; simpl.
    + split; [done | by intros [rest ?]].
    + rewrite andb_true_iff, bool_decide_eq_true, IH. split.
      * intros [-> [rest ->]]. by exists rest.
      * intros [rest [= -> ->]]. split; [done | by exists rest].
Qed.

Lemma startsWith_app (prefix rest : string) :
  startsWith prefix (prefix +:+ rest) = true.
Proof. apply startsWith_spec. by exists rest. Qed.

Lemma existsb_elements (p : string → bool) (st : gset string) :
  existsb p (elements st) = true ↔ ∃ id, id ∈ st ∧ p id = true.
Proof.
  rewrite existsb_exists. split.
  - intros (id & Hin & Hp). exists id. split; [| done].
    by apply elem_of_elements, list_elem_of_In.
  - intros (id & Hin & Hp). exists id. split; [| done].
    by apply list_elem_of_In, elem_of_elements.
Qed.

Lemma isLoading_spec (st : gset string) :
  LoadingStore.isLoading st = true ↔ ∃ id, id ∈ st.
Proof.
  unfold LoadingStore.isLoading. rewrite bool_decide_eq_true. split.
  - apply size_pos_elem_of.
  - intros [id Hin]. assert (size st ≠ 0%nat); [| lia].
    apply size_non_empty_iff. intros Hemp.
    apply (not_elem_of_empty (C := gset string) id). by rewrite <-Hemp.
Qed.

(** X12.  The loading store does not count.  However often an
    identifier was started, finishing it once removes it, with the same
    result as finishing it on the store before the starts. *)
Theorem X12_store_does_not_count (n : nat) (id : string) (st : gset string) :
  LoadingStore.finishLoading id
    (Nat.iter (S n) (LoadingStore.startLoading id) st)
  = LoadingStore.finishLoading id st
  ∧ id ∉ LoadingStore.finishLoading id
           (Nat.iter (S n) (LoadingStore.startLoading id) st).
Proof.
  assert (Hiter : Nat.iter (S n) (LoadingStore.startLoading id) st
                  = {[id]} ∪ st).
  { induction n as [|n IH]; [done |].
    change (Nat.iter (S (S n)) (LoadingStore.startLoading id) st)
      with (LoadingStore.startLoading id
              (Nat.iter (S n) (LoadingStore.startLoading id) st)).
    rewrite IH. unfold LoadingStore.startLoading.
    by rewrite (assoc_L (∪)), (idemp_L (∪)). }
  rewrite Hiter. unfold LoadingStore.finishLoading. split.
  - apply set_eq. intros x.
    rewrite !elem_of_difference, elem_of_union, elem_of_singleton. tauto.
  - rewrite elem_of_difference, elem_of_singleton. tauto.
Qed.

(** X13.  [getModuleLoading(module)] is true exactly when some loading
    identifier consists of the module name, a colon and a rest; when it is
    true, [isLoading] is true as well. *)
Theorem X13_module_loading_reads_the_prefix (module : string)
    (st : gset string) :
  (LoadingStore.getModuleLoading module st = true
   ↔ ∃ id rest, id ∈ st ∧ id = module +:+ ":" +:+ rest)
  ∧ (LoadingStore.getModuleLoading module st = true →
     LoadingStore.isLoading st = true).
Proof.
  assert (Hiff : LoadingStore.getModuleLoading module st = true
                 ↔ ∃ id rest, id ∈ st ∧ id = module +:+ ":" +:+ rest).
  { unfold LoadingStore.getModuleLoading. rewrite existsb_elements. split.
    - intros (id & Hin & Hp). apply startsWith_spec in Hp as [rest ->].
      exists (module +:+ ":" +:+ rest), rest. split; [| done].
      by rewrite <-string_app_assoc.
    - intros (id & rest & Hin & ->). eexists. split; [exact Hin |].
      rewrite <-string_app_assoc. apply startsWith_app. }
  split; [exact Hiff |]. intros Hm. apply isLoading_spec.
  apply Hiff in Hm as (id & _ & Hin & _). by exists id.
Qed.

Lemma loadingText_upload (st : gset string) (id : string) :
  id ∈ st → startsWith "upload:" id = true →
  LoadingStore.loadingText st = "正在上传文件...".
Proof.
  intros Hin Hp. unfold LoadingStore.loadingText.
  case_decide as Hlen.
  - apply length_zero_iff_nil in Hlen. apply elem_of_elements in Hin.
    rewrite Hlen in Hin. by apply elem_of_nil in Hin.
  - assert (existsb (startsWith "upload:") (elements st) = true) as ->; [| done].
    apply existsb_elements. by exists id.
Qed.

(** X14.  While the key of a create call or of a merge call of the
    upload component is loading, the spinner shows the upload text and
    [getModuleLoading] of the module upload is true, whatever else is
    loading. *)
Theorem X14_upload_keys_select_the_upload_text (identifier : option string)
    (st : gset string) :
  LoadingStore.loadingText
    (LoadingStore.startLoading (LoadingStore.createKey identifier) st)
  = "正在上传文件..."
  ∧ LoadingStore.loadingText
      (LoadingStore.startLoading (LoadingStore.mergeKey identifier) st)
    = "正在上传文件..."
  ∧ LoadingStore.getModuleLoading "upload"
      (LoadingStore.startLoading (LoadingStore.createKey identifier) st)
    = true
  ∧ LoadingStore.getModuleLoading "upload"
      (LoadingStore.startLoading (LoadingStore.mergeKey identifier) st)
    = true.
Proof.
  assert (Hc : startsWith "upload:" (LoadingStore.createKey identifier)
               = true).
  { apply startsWith_spec. by exists ("create:" +:+ prop_key identifier). }
  assert (Hm : startsWith "upload:" (LoadingStore.mergeKey identifier)
               = true).
  { apply startsWith_spec. by exists ("merge:" +:+ prop_key identifier). }
  unfold LoadingStore.startLoading. split_and!.
  - apply (loadingText_upload _ (LoadingStore.createKey identifier));
      [| done]. apply elem_of_union_l. by apply elem_of_singleton.
  - apply (loadingText_upload _ (LoadingStore.mergeKey identifier));
      [| done]. apply elem_of_union_l. by apply elem_of_singleton.
  - apply existsb_elements. exists (LoadingStore.createKey identifier).
    split; [| done]. apply elem_of_union_l. by apply elem_of_singleton.
  - apply existsb_elements. exists (LoadingStore.mergeKey identifier).
    split; [| done]. apply elem_of_union_l. by apply elem_of_singleton.
Qed.

(** X15.  The key of the template download does not select the download
    text of the spinner: with that key loading, the text is the download
    text only if another loading identifier starts with download and a
    colon. *)
Theorem X15_template_download_does_not_select_the_download_text
    (st : gset string) :
  LoadingStore.loadingText
    (LoadingStore.startLoading LoadingStore.downloadTemplateKey st)
  = "正在准备下载..." →
  ∃ id, id ∈ st ∧ startsWith "download:" id = true.
Proof.
  unfold LoadingStore.loadingText.
  set (st' := LoadingStore.startLoading LoadingStore.downloadTemplateKey st).
  case_decide; [done |].
  destruct (existsb (startsWith "upload:") (elements st')); [done |].
  destruct (existsb (startsWith "download:") (elements st')) eqn:Hd;
    [| by destruct (existsb (startsWith "auth:") (elements st'))].
  intros _. apply existsb_elements in Hd as (id & Hin & Hp).
  exists id. split; [| done].
  unfold st', LoadingStore.startLoading in Hin.
  apply elem_of_union in Hin as [Hin|Hin]; [| done].
  apply elem_of_singleton in Hin. by subst.
Qed.

(** ** The routes a role may see *)

Section RoutesFacts.

Context {Role : Type} `{EqDecision Role}.

#[local] Abbreviation Route := (@Router.Route Role).

Lemma Route_nested_ind (P : Route → Prop) :
  (∀ path name roles children,
     (∀ l, children = Some l → Forall P l) →
     P (Router.mkRoute path name roles children)) →
  ∀ r, P r.
Proof.
  intros Hstep. fix IH 1. intros [path name roles [l|]]; apply Hstep.
  - intros l' [= <-]. induction l as [|r l IHl]; constructor.
    + apply IH.
    + exact IHl.
  - intros l' [=].
Qed.

Lemma filterRoute_unfold (role : Role) (path : string) (name : option string)
    (roles : option (list Role)) (children : option (list Route)) :
  Router.filterRoute role (Router.mkRoute path name roles children)
  = if Router.hasPermission (Router.mkRoute path name roles children) role
    then Some (Router.mkRoute path name roles
                 ((λ l, Router.filterAsyncRoutes l role) <$> children))
    else None.
Proof.
  simpl. case_match; [| done]. by destruct children.
Qed.

Lemma filterRoute_permitted (role : Role) (r r' : Route) :
  Router.filterRoute role r = Some r' →
  Router.everyRoute (Router.permitted role) r'.
Proof.
  revert r'. induction r as [path name roles children IH]
    using Route_nested_ind.
  intros r'. rewrite filterRoute_unfold. case_match eqn:Hp; [| done].
  intros [= <-]. constructor; [exact Hp |].
  intros l' Hl'. destruct children as [l|]; [| done].
  simpl in Hl'. injection Hl' as <-. specialize (IH l eq_refl).
  unfold Router.filterAsyncRoutes. apply Forall_forall. intros x Hx.
  apply list_elem_of_omap in Hx as (r0 & Hin & Hr0).
  rewrite Forall_forall in IH. by apply (IH r0 Hin).
Qed.

Lemma filterRoutes_id_step (role : Role) (l : list Route) :
  Forall (λ r, Router.everyRoute (Router.permitted role) r →
               Router.filterRoute role r = Some r) l →
  Forall (Router.everyRoute (Router.permitted role)) l →
  omap (Router.filterRoute role) l = l.
Proof.
  induction l as [|r l IHl]; [done |].
  intros [IHr IH]%Forall_cons [Hr Hl]%Forall_cons.
  cbn [omap list_omap]. by rewrite (IHr Hr), (IHl IH Hl).
Qed.

Lemma filterRoute_id (role : Role) (r : Route) :
  Router.everyRoute (Router.permitted role) r →
  Router.filterRoute role r = Some r.
Proof.
  induction r as [path name roles children IH] using Route_nested_ind.
  intros Hall. inversion Hall as [p n ro ch Hp Hch]; subst.
  rewrite filterRoute_unfold, Hp. do 2 f_equal.
  destruct children as [l|]; [| done]. simpl. f_equal.
  apply filterRoutes_id_step; [by apply IH | by apply Hch].
Qed.

Lemma filterAsyncRoutes_id (role : Role) (routes : list Route) :
  Forall (Router.everyRoute (Router.permitted role)) routes →
  Router.filterAsyncRoutes routes role = routes.
Proof.
  unfold Router.filterAsyncRoutes. induction 1 as [|r l Hr _ IH]; [done |].
  cbn [omap list_omap]. by rewrite (filterRoute_id role r Hr), IH.
Qed.

Lemma filterAsyncRoutes_permitted (role : Role) (routes : list Route) :
  Forall (Router.everyRoute (Router.permitted role))
    (Router.filterAsyncRoutes routes role).
Proof.
  unfold Router.filterAsyncRoutes. apply Forall_forall. intros r' Hin.
  apply list_elem_of_omap in Hin as (r & _ & Hr).
  by apply (filterRoute_permitted role r).
Qed.

(** X16.  Every route that [filterAsyncRoutes] returns, and every route
    below it at any depth, is one the role may see. *)
Theorem X16_filtered_routes_are_permitted_at_every_depth (role : Role)
    (routes : list Route) :
  Forall (Router.everyRoute (λ r, Router.hasPermission r role = true))
    (Router.filterAsyncRoutes routes role).
Proof.
  unfold Router.filterAsyncRoutes. rewrite Forall_forall. intros r' Hin.
  apply list_elem_of_omap in Hin as (r & Hr & Hsome).
  exact (filterRoute_permitted role r r' Hsome).
Qed.

(** X17.  Filtering a filtered list of routes for the same role changes
    nothing. *)
Theorem X17_filtering_twice_changes_nothing (role : Role)
    (routes : list Route) :
  Router.filterAsyncRoutes (Router.filterAsyncRoutes routes role) role
  = Router.filterAsyncRoutes routes role.
Proof.
  apply filterAsyncRoutes_id, filterAsyncRoutes_permitted.
Qed.

(** X18.  The routes [filterAsyncRoutes] returns are, by their paths,
    exactly the routes of its argument that the role may see, in their
    order. *)
Theorem X18_kept_routes_are_the_permitted_ones_in_order (role : Role)
    (routes : list Route) :
  Router.route_path <$> Router.filterAsyncRoutes routes role
  = Router.route_path
      <$> filter (λ r, Router.hasPermission r role = true) routes.
Proof.
  unfold Router.filterAsyncRoutes.
  induction routes as [|[path name roles children] l IH]; [done |].
  cbn [omap list_omap]. rewrite filterRoute_unfold, filter_cons.
  destruct (Router.hasPermission _ role) eqn:Hp.
  - rewrite decide_True by done. cbn. f_equal. exact IH.
  - rewrite decide_False by done. exact IH.
Qed.

End RoutesFacts.

(** ** What cancelling leaves alone, and how failures are reported *)

(** X19.  [cancelUpload] emits no event and makes no call, changes no
    attempt (the dispatch loop and the timers of the entry keep running),
    no chunk object and not the list. *)
Theorem X19_cancel_is_silent_and_stops_no_attempt (f : loc) (s : State) :
  trace (cancelUpload f s) = trace s
  ∧ attempts (cancelUpload f s) = attempts s
  ∧ chunkHeap (cancelUpload f s) = chunkHeap s
  ∧ fileList (cancelUpload f s) = fileList s.
Proof.
  unfold cancelUpload.
  destruct (fileHeap s !! f) as [fe|]; [| done].
  case_decide; [| done].
  destruct (activeRequests s !! prop_key (file_identifier fe)) as [reqs|];
    [| done].
  simpl. destruct (abortAll_frame reqs s) as (Hl & _ & Hc & _ & Ha & Ht).
  by rewrite Hl, Hc, Ha, Ht.
Qed.

(** X20.  A failure of the complete call (a rejected fetch, a status
    outside 200..299, a body that is not JSON) is reported by two
    upload-error events with the same error, one from the catch block of
    [mergeChunks] and one from that of [uploadChunks]; the attempt is
    finished, the entry is in error, and its progress and the list are
    as they were. *)
Theorem X20_merge_failure_is_reported_twice props (s : State) (t : nat)
    (a : Attempt) (o : FetchOutcome MergeResult) (err : UploadError) :
  attempts s !! t = Some a → attempt_phase a = MergePending →
  mergeChunks_result o = inl err →
  let f := attempt_file a in
  let s' := handle props (MergeSettled t o) s in
  trace s' = trace s ++ [Emit (upload_error f err); Emit (upload_error f err)]
  ∧ attemptPhase s' t = Some Finished
  ∧ fileStatus s' f = (λ _, error) <$> fileStatus s f
  ∧ fileProgress s' f = fileProgress s f
  ∧ fileList s' = fileList s.
Proof.
  intros Ha Hph Hres f s'. subst s'. simpl. unfold mergeChunks_resume.
  rewrite Ha, Hph, Hres. fold f. split_and!.
  - simpl. by rewrite <-app_assoc.
  - unfold attemptPhase, uploadChunks_catch. simpl.
    by rewrite list_lookup_alter_eq, Ha.
  - unfold fileStatus. simpl. rewrite !list_lookup_alter_eq.
    by destruct (fileHeap s !! f).
  - unfold fileProgress. simpl. rewrite !list_lookup_alter_eq.
    by destruct (fileHeap s !! f).
  - done.
Qed.

(** ** The theorems at concrete inputs *)

(** A file of 12 MB in chunks of 5 MB: three chunks, the last of 2 MB. *)
Lemma C1_witness :
  length (planChunks (12 * MB) (5 * MB)) = 3%nat
  ∧ (∀ ch, last (planChunks (12 * MB) (5 * MB)) = Some ch →
           chunk_end ch = 12 * MB).
Proof.
  destruct (C1_chunk_plan_covers (12 * MB) (5 * MB))
    as (_ & _ & _ & _ & _ & Hlast & _); [done | done |].
  split; [reflexivity | exact Hlast].
Defined.

(** Three chunks in flight, the second answers 500: the next join tick
    fails the session. *)
Lemma X21_witness :
  let events := [Drop [sampleFile "a.bin" (12 * MB)];
                 CreateSettled 0 (createOk "u1"); XhrLoad 1 500] in
  let s := run defaultProps events init in
  let s' := handle defaultProps (JoinTimer 0) s in
  fileStatus s' 0 = Some error
  ∧ trace s' = trace s ++ [Emit (upload_error 0 ChunksFailedError);
                           Emit (upload_error 0 ChunksFailedError)]
  ∧ attemptPhase s' 0 = Some Finished.
Proof.
  intros events s s'.
  destruct (X21_complete_only_after_join defaultProps events)
    as (_ & Hb & _).
  destruct (Hb 0%nat {| attempt_file := 0; runningUploads := 2;
                        attempt_phase := JoinPolling |} 1%nat)
    as (H1 & H2 & H3 & _).
  - vm_compute; reflexivity.
  - reflexivity.
  - vm_compute. apply list_elem_of_In. simpl. tauto.
  - vm_compute; reflexivity.
  - split_and!; [exact H1 | exact H2 | exact H3].
Defined.

(** Cancel with three requests in flight. *)
Lemma C3_witness :
  let s := run defaultProps
             [Drop [sampleFile "a.bin" (12 * MB)];
              CreateSettled 0 (createOk "u1")] init in
  registered s 0 = [0; 1; 2]%nat
  ∧ registered (cancelUpload 0 s) 0 = []
  ∧ fileStatus (cancelUpload 0 s) 0 = Some error
  ∧ fileProgress (cancelUpload 0 s) 0 = Some (JNum 0).
Proof.
  intros s.
  destruct (C3_cancel_aborts_and_clears s 0) as (_ & H2 & H3 & H4).
  - vm_compute; reflexivity.
  - split_and!; [vm_compute; reflexivity | exact H2 | exact H3 | exact H4].
Defined.

(** Retry after a failed chunk. *)
Lemma C5_witness :
  let events := [Drop [sampleFile "a.bin" (12 * MB)];
                 CreateSettled 0 (createOk "u1"); XhrLoad 1 500;
                 JoinTimer 0] in
  let s := run defaultProps events init in
  let s' := handle defaultProps (ClickRetry 0) s in
  fileStatus s 0 = Some error
  ∧ length (fileChunks s' 0) = 3%nat
  ∧ fileProgress s' 0 = Some (JNum 0)
  ∧ attemptView s' 1 = Some (0%nat, CreatePending).
Proof.
  intros events s s'.
  edestruct (C5_retry_resets_and_recreates defaultProps events 0)
    as (H1 & _ & H3 & _ & _ & H6 & _).
  - vm_compute. apply list_elem_of_In. simpl. tauto.
  - vm_compute; reflexivity.
  - reflexivity.
  - split_and!; [vm_compute; reflexivity | | exact H3 | exact H6].
    etrans; [exact H1 | vm_compute; reflexivity].
Defined.

(** The create call answers 500. *)
Lemma C6_witness :
  let events := [Drop [sampleFile "a.bin" (12 * MB)]] in
  let s := run defaultProps events init in
  let s' := handle defaultProps
              (CreateSettled 0 (FetchResponse 500 None)) s in
  ∃ err, fileStatus s' 0 = Some error
         ∧ trace s' = trace s ++ [Emit (upload_error 0 err)]
         ∧ attemptPhase s' 0 = Some Finished.
Proof.
  intros events s s'.
  destruct (C6_create_failure_skips_chunks defaultProps events 0
              {| attempt_file := 0; runningUploads := 0;
                 attempt_phase := CreatePending |}
              (FetchResponse 500 None))
    as (err & H1 & H2 & H3 & _).
  - vm_compute; reflexivity.
  - reflexivity.
  - right. by exists 500, None.
  - exists err. split_and!; [exact H1 | exact H2 | exact H3].
Defined.

(** Two chunks, a tick at 1 percent on the second: the mean 1/2 is rounded
    to 1. *)
Lemma C7_witness :
  let s := run defaultProps
             [Drop [sampleFile "a.bin" (8 * MB)];
              CreateSettled 0 (createOk "u1")] init in
  let s' := handle defaultProps (XhrProgress 1 true 1) s in
  ∃ p, fileProgress s' 0 = Some (JNum p)
       ∧ trace s' = trace s ++ [Emit (upload_progress 0 (JNum p))].
Proof.
  intros s s'.
  edestruct (C7_progress_is_rounded_mean defaultProps s 1) with (percent := 1)
    as [(p & H1 & _ & _ & H4) _].
  - vm_compute; reflexivity.
  - reflexivity.
  - vm_compute; reflexivity.
  - discriminate.
  - exists p. split; [exact H1 | exact H4].
Defined.

(** Raising one chunk of three from 0 to 10 does not lower the aggregate. *)
Lemma X22_witness :
  js_ge (aggregateProgress [10; 0; 0]) (aggregateProgress [0; 0; 0]) = true.
Proof.
  destruct (X22_progress_is_recomputed_or_reset defaultProps) as [Hmono _].
  apply Hmono; [discriminate |].
  repeat constructor; lia.
Defined.

(** A file of 6 MB against a limit of 5 MB, and one of 3 MB. *)
Lemma C9_witness :
  handle smallLimitProps (Drop [sampleFile "big.bin" (6 * MB)]) init
  = emit (file_change []) (observe (Message "big.bin" 5) init)
  ∧ fileStatus (addFile smallLimitProps init (sampleFile "ok.bin" (3 * MB))) 0
    = Some waiting.
Proof.
  destruct (C9_admission smallLimitProps init []
              (sampleFile "big.bin" (6 * MB))) as [Hbig _].
  destruct (C9_admission smallLimitProps init []
              (sampleFile "ok.bin" (3 * MB))) as (_ & Hok & _).
  destruct Hbig as (_ & _ & H); [done |].
  destruct Hok as (_ & H' & _); [vm_compute; discriminate |].
  split; [apply H; by right | exact H'].
Defined.

(** An empty file: create with no chunks, no chunk call, complete with
    [total_chunks = 0]. *)
Lemma C10_witness :
  let s := run defaultProps
             [Drop [sampleFile "empty.txt" 0];
              CreateSettled 0 (createOk "u1")] init in
  allUploaded s 0 = true
  ∧ trace (handle defaultProps (JoinTimer 0) s)
    = trace s ++ [Net 0 (CompleteCall (Some "u1") "empty.txt" 0 [])].
Proof.
  intros s.
  destruct (C10_empty_file_completes defaultProps
              [Drop [sampleFile "empty.txt" 0];
               CreateSettled 0 (createOk "u1")]) as (_ & _ & _ & H4).
  edestruct (H4 0%nat) as (Hall & Ht3 & _).
  { vm_compute; reflexivity. }
  { reflexivity. }
  { vm_compute; reflexivity. }
  { reflexivity. }
  split; [exact Hall | exact Ht3].
Defined.

(** Three requests in flight: all three are registered, once each. *)
Lemma X2_witness :
  let s := run defaultProps
             [Drop [sampleFile "a.bin" (12 * MB)];
              CreateSettled 0 (createOk "u1")] init in
  NoDup [0; 1; 2]%nat ∧ xhr_state <$> xhrs s !! 1%nat = Some Sent.
Proof.
  intros s.
  apply (X2_registry_holds_requests_in_flight defaultProps
           [Drop [sampleFile "a.bin" (12 * MB)];
            CreateSettled 0 (createOk "u1")]
           (calculateFileIdentifier (sampleFile "a.bin" (12 * MB)))
           [0; 1; 2]%nat 1%nat).
  - vm_compute; reflexivity.
  - apply list_elem_of_In. simpl. tauto.
Defined.

(** A file of 12 MB after its first request has loaded: still three
    chunks. *)
Lemma X3_witness :
  let s := run defaultProps
             [Drop [sampleFile "a.bin" (12 * MB)];
              CreateSettled 0 (createOk "u1"); XhrLoad 0 200] init in
  ∃ fe, fileHeap s !! 0%nat = Some fe
        ∧ length (file_chunks fe)
          = Z.to_nat (Math_ceil_div (file_size fe) (chunkBytes defaultProps)).
Proof.
  intros s. eexists. split; [vm_compute; reflexivity |].
  refine (proj1 (proj2 (X3_chunk_lists_stay_planned defaultProps
                          [Drop [sampleFile "a.bin" (12 * MB)];
                           CreateSettled 0 (createOk "u1"); XhrLoad 0 200]
                          0%nat _ _)) _).
  - vm_compute; reflexivity.
  - discriminate.
Defined.

(** The third chunk call of a file of 12 MB. *)
Lemma X4_witness :
  let s := run defaultProps
             [Drop [sampleFile "a.bin" (12 * MB)];
              CreateSettled 0 (createOk "u1")] init in
  ∃ f ph fe, attemptView s 0 = Some (f, ph) ∧ fileHeap s !! f = Some fe
    ∧ callFits defaultProps fe
        (ChunkCall (Some "u1") 2 (10 * MB) (12 * MB) "a.bin").
Proof.
  intros s.
  apply (X4_calls_fit_their_entry defaultProps
           [Drop [sampleFile "a.bin" (12 * MB)];
            CreateSettled 0 (createOk "u1")] 0%nat).
  apply list_elem_of_In. vm_compute. tauto.
Defined.

(** Its slice is the last 2 MB of the file. *)
Lemma X5_witness :
  let s := run defaultProps
             [Drop [sampleFile "a.bin" (12 * MB)];
              CreateSettled 0 (createOk "u1")] init in
  ∃ f ph fe, attemptView s 0 = Some (f, ph) ∧ fileHeap s !! f = Some fe
    ∧ 0 ≤ 10 * MB ∧ 10 * MB < 12 * MB ∧ 12 * MB ≤ file_size fe
    ∧ 12 * MB - 10 * MB ≤ chunkBytes defaultProps.
Proof.
  intros s.
  apply (X5_chunk_slices_are_within_the_file defaultProps
           [Drop [sampleFile "a.bin" (12 * MB)];
            CreateSettled 0 (createOk "u1")] 0%nat (Some "u1") 2%nat
           (10 * MB) (12 * MB) "a.bin").
  apply list_elem_of_In. vm_compute. tauto.
Defined.

(** A file of one chunk, uploaded and merged. *)
Lemma X7_witness :
  let events := [Drop [sampleFile "a.bin" (3 * MB)];
                 CreateSettled 0 (createOk "u1"); XhrLoad 0 200;
                 JoinTimer 0] in
  let s := run defaultProps events init in
  let s' := handle defaultProps (MergeSettled 0 (mergeOk "/files/a.bin")) s in
  fileStatus s' 0 = Some success ∧ fileProgress s' 0 = Some (JNum 100).
Proof.
  intros events s s'.
  destruct (X7_success_is_reported_by_a_merge_only defaultProps events
              (MergeSettled 0 (mergeOk "/files/a.bin"))
              [Emit (upload_success 0 (Some "/files/a.bin"));
               Emit (upload_complete [0%nat])]) as [H1 _].
  - vm_compute; reflexivity.
  - destruct (H1 0%nat (Some "/files/a.bin"))
      as (t & o & r & _ & _ & _ & _ & Hst & Hpr).
    + apply list_elem_of_In. simpl. tauto.
    + split; [exact Hst | exact Hpr].
Defined.

(** An entry whose create call failed is started again. *)
Lemma X8_witness :
  let s := run defaultProps
             [Drop [sampleFile "a.bin" (3 * MB)];
              CreateSettled 0 (FetchResponse 500 None)] init in
  fileStatus (startUpload defaultProps s) 0 = Some uploading.
Proof.
  intros s.
  apply (X8_startUpload_leaves_nothing_waiting defaultProps s 0%nat error).
  - apply list_elem_of_In. vm_compute. tauto.
  - vm_compute; reflexivity.
Defined.

(** Two files uploading; the first is cancelled, the request of the second
    stays as it is. *)
Lemma X10_witness :
  let s := run defaultProps
             [Drop [sampleFile "a.bin" (12 * MB); sampleFile "b.bin" (3 * MB)];
              CreateSettled 0 (createOk "u1");
              CreateSettled 1 (createOk "u2")] init in
  ∃ xr, xhrs s !! 3%nat = Some xr ∧ xhr_state xr = Sent
        ∧ xhrs (cancelUpload 0 s) !! 3%nat = Some xr.
Proof.
  intros s. eexists. split; [vm_compute; reflexivity |].
  split; [reflexivity |].
  eapply (X10_cancel_spares_the_requests_of_other_files defaultProps
            [Drop [sampleFile "a.bin" (12 * MB); sampleFile "b.bin" (3 * MB)];
             CreateSettled 0 (createOk "u1");
             CreateSettled 1 (createOk "u2")] 0%nat).
  - vm_compute; reflexivity.
  - vm_compute; reflexivity.
  - vm_compute; reflexivity.
  - simpl. intros (Hname & _). discriminate.
Defined.

(** A tick at 40 percent on one chunk of two. *)
Lemma X11_witness :
  let s := run defaultProps
             [Drop [sampleFile "a.bin" (8 * MB)];
              CreateSettled 0 (createOk "u1"); XhrProgress 1 true 40]
             init in
  ∃ fe, fileHeap s !! 0%nat = Some fe
        ∧ ∃ p, file_progress fe = JNum p ∧ 0 ≤ p ∧ p ≤ 100.
Proof.
  intros s. eexists. split; [vm_compute; reflexivity |].
  eapply (X11_progress_is_always_a_percentage defaultProps
            [Drop [sampleFile "a.bin" (8 * MB)];
             CreateSettled 0 (createOk "u1"); XhrProgress 1 true 40]
            0%nat).
  - repeat constructor; simpl; lia.
  - vm_compute; reflexivity.
Defined.

(** The template download next to a report download. *)
Lemma X15_witness :
  ∃ id, id ∈ ({["download:report"]} : gset string)
        ∧ startsWith "download:" id = true.
Proof.
  apply (X15_template_download_does_not_select_the_download_text
           {["download:report"]}).
  vm_compute; reflexivity.
Defined.

(** The complete call answers 500. *)
Lemma X20_witness :
  let s := run defaultProps
             [Drop [sampleFile "a.bin" (3 * MB)];
              CreateSettled 0 (createOk "u1"); XhrLoad 0 200; JoinTimer 0]
             init in
  let s' := handle defaultProps (MergeSettled 0 (FetchResponse 500 None)) s in
  trace s' = trace s ++ [Emit (upload_error 0 (MergeStatusError 500));
                         Emit (upload_error 0 (MergeStatusError 500))]
  ∧ attemptPhase s' 0 = Some Finished.
Proof.
  intros s s'.
  destruct (X20_merge_failure_is_reported_twice defaultProps s 0%nat
              {| attempt_file := 0; runningUploads := 0;
                 attempt_phase := MergePending |}
              (FetchResponse 500 None) (MergeStatusError 500))
    as (H1 & H2 & _).
  - vm_compute; reflexivity.
  - reflexivity.
  - reflexivity.
  - split; [exact H1 | exact H2].
Defined.
